(** * simple-agent: the orchestration loop, the tool executor and the registry

    A shallow embedding of [w6/simple-agent]:
    - [tool/registry.ts]  ([ToolRegistry], a [Map<string, Tool>];
      [defineTool], [defineZodTool]),
    - [tool/executor.ts]  ([ToolExecutor.execute], [executeAll],
      [executeSequential]; once more in [Raw], for tools and hooks that
      throw values without a readable message),
    - [agent/agent.ts]    ([Agent.run], [Agent.stream], [Agent.emit]),
    - [session/session.ts], [utils.ts], [types.ts],
    - [llm/client.ts]     ([LLMClient.call] with [parseResponseOutput],
      [LLMClient.stream], [convertToResponseInput]),
    - [mcp/client.ts]     ([MCPClient.connect], [disconnect], [listTools],
      [callTool], [adaptTool]),
    - [mcp/manager.ts]    ([MCPManager]).

    The first part holds the definitions, the second part the lemmas. *)

From Stdlib Require Import String Ascii ZArith List Bool Lia.
From stdpp Require Import base option list strings.

Set Default Proof Using "Type".


(* ================================================================= *)
(** * Part I: the embedding *)
(* ================================================================= *)

(** ** Thrown values and settled promises *)

(** The classes of [utils.ts]; [AgentError] and its subclasses all set
    [this.name = "AgentError"], so the class is what tells them apart. *)
Inductive ErrorClass :=
| PlainError
| AgentError
| ToolNotFoundError
| ToolExecutionError
| MaxStepsExceededError
| LLMError.

(** What a [throw] carries: an [Error] instance with its message, or some
    other value, kept as the string [String(value)] yields.  Values whose
    message or string cannot be read are the subject of [Raw] below. *)
Inductive Thrown :=
| ErrorObj (cls : ErrorClass) (message : string)
| NonError (text : string).

(** [error instanceof Error ? error.message : String(error)] *)
Definition error_message (e : Thrown) : string :=
  match e with
  | ErrorObj _ m => m
  | NonError t => t
  end.

(** [error instanceof Error ? error : new Error(String(error))] *)
Definition as_Error (e : Thrown) : Thrown :=
  match e with
  | ErrorObj _ _ => e
  | NonError t => ErrorObj PlainError t
  end.

(** [error instanceof LLMError] *)
Definition instanceof_LLMError (e : Thrown) : bool :=
  match e with
  | ErrorObj LLMError _ => true
  | _ => false
  end.

(** A natural number in decimal, as a template literal prints it. *)
Definition digit (n : nat) : ascii := ascii_of_nat (48 + n).

Fixpoint show_nat_go (fuel n : nat) (acc : string) : string :=
  match fuel with
  | 0 => acc
  | S fuel' =>
      let acc' := String (digit (n mod 10)) acc in
      if (n <? 10)%nat then acc' else show_nat_go fuel' (n / 10) acc'
  end.

Definition show_nat (n : nat) : string := show_nat_go (S n) n "".

(** An integer in decimal, as a template literal prints a number that is
    one (of fewer than 22 digits: larger numbers print with an
    exponent). *)
Fixpoint show_Z_go (fuel : nat) (n : Z) (acc : string) : string :=
  match fuel with
  | 0 => acc
  | S fuel' =>
      let acc' := String (digit (Z.to_nat (n mod 10))) acc in
      if (n <? 10)%Z then acc' else show_Z_go fuel' (n / 10) acc'
  end.

Definition show_Z (n : Z) : string :=
  if (n <? 0)%Z
  then "-" +:+ show_Z_go (S (Z.to_nat (Z.log2 (- n)))) (- n) ""
  else show_Z_go (S (Z.to_nat (Z.log2 n))) n "".

(** [new MaxStepsExceededError(maxSteps)] *)
Definition new_MaxStepsExceededError (maxSteps : nat) : Thrown :=
  ErrorObj MaxStepsExceededError ("Max steps exceeded: " +:+ show_nat maxSteps).

(** How a synchronous call or a settled promise ends. *)
Inductive Outcome (A : Type) :=
| Return (a : A)
| Throw (e : Thrown).
Arguments Return {A} a.
Arguments Throw {A} e.

(** How an [async] function ends: it returns, it throws, or it waits for
    a promise that never settles. *)
Inductive Completion (A : Type) :=
| Returned (a : A)
| Threw (e : Thrown)
| Pending.
Arguments Returned {A} a.
Arguments Threw {A} e.
Arguments Pending {A}.

(** A promise, by the way it settles: after [elapsed] milliseconds, with
    the outcome [settled]. *)
Record Async (A : Type) := mkAsync { elapsed : nat; settled : Outcome A }.
Arguments mkAsync {A} elapsed settled.
Arguments elapsed {A} a.
Arguments settled {A} a.

Definition async_ret {A} (a : A) : Async A := mkAsync 0 (Return a).

Definition async_throw {A} (e : Thrown) : Async A := mkAsync 0 (Throw e).

(** [const a = await m; k a] inside an async function. *)
Definition async_bind {A B} (m : Async A) (k : A -> Async B) : Async B :=
  match settled m with
  | Return a => mkAsync (elapsed m + elapsed (k a)) (settled (k a))
  | Throw e => mkAsync (elapsed m) (Throw e)
  end.

(** [try { m } catch (error) { h error }] inside an async function. *)
Definition async_catch {A} (m : Async A) (h : Thrown -> Async A) : Async A :=
  match settled m with
  | Return _ => m
  | Throw e => mkAsync (elapsed m + elapsed (h e)) (settled (h e))
  end.

(** [Promise.race([p, timer])] where [timer] was armed before [p] was
    started: the one that settles first decides, and the timer goes first
    when both are due in the same millisecond. *)
Definition race_timer {A} (p timer : Async A) : Async A :=
  if (elapsed timer <=? elapsed p)%nat then timer else p.

Declare Scope async_scope.
Delimit Scope async_scope with async.
Notation "'await' x ':=' m 'in' k" := (async_bind m (fun x => k))
  (at level 10, x name, m at level 100, k at level 200) : async_scope.

(** ** [Map<string, V>]: keys in insertion order *)

Module JsMap.
Section ops.
Context {V : Type}.

(** [map.get(k)] *)
Fixpoint get (k : string) (m : list (string * V)) : option V :=
  match m with
  | [] => None
  | (k', v) :: m' => if String.eqb k' k then Some v else get k m'
  end.

(** [map.set(k, v)]: an existing key keeps its place. *)
Fixpoint set (k : string) (v : V) (m : list (string * V)) : list (string * V) :=
  match m with
  | [] => [(k, v)]
  | (k', v') :: m' =>
      if String.eqb k' k then (k, v) :: m' else (k', v') :: set k v m'
  end.

(** [map.has(k)] *)
Definition has (k : string) (m : list (string * V)) : bool :=
  match get k m with Some _ => true | None => false end.

(** [map.delete(k)]: whether the key was there, and the map without it. *)
Fixpoint remove (k : string) (m : list (string * V)) : list (string * V) :=
  match m with
  | [] => []
  | (k', v') :: m' =>
      if String.eqb k' k then m' else (k', v') :: remove k m'
  end.

Definition delete (k : string) (m : list (string * V)) : bool * list (string * V) :=
  (has k m, remove k m).

Definition values (m : list (string * V)) : list V := map snd m.

Definition keys (m : list (string * V)) : list string := map fst m.

Definition size (m : list (string * V)) : nat := length m.

End ops.
End JsMap.

(** ** The host: what the JavaScript runtime and the platform supply *)

Class JsHost := {
  (** a value of type [unknown] *)
  JsValue : Type;
  (** a [number] that is passed through (token limits, temperatures) *)
  JsNumber : Type;
  (** a string, as a value *)
  js_string : string -> JsValue;
  js_undefined : JsValue;
  (** [JSON.parse]; [None] when it throws *)
  JSON_parse : string -> option JsValue;
  JSON_stringify : JsValue -> string;
  (** for [c] with [typeof c === "object" && c !== null && "text" in c],
      the property [c.text] *)
  text_property : JsValue -> option string;
  (** [randomUUID()] and [new Date()], by the number of earlier draws *)
  randomUUID : nat -> string;
  Date_now : nat -> nat
}.

Section Model.
Context `{JsHost}.

(** ** [types.ts] *)

Record TextContent := { text : string }.

Record ToolCallContent := {
  call_id : string;
  call_name : string;
  call_arguments : JsValue
}.

Record ToolResultContent := {
  toolCallId : string;
  result : string;
  isError : option bool
}.

Inductive MessageContent :=
| text_content (c : TextContent)
| tool_call_content (c : ToolCallContent)
| tool_result_content (c : ToolResultContent).

Inductive Role := role_user | role_assistant | role_tool.

Record Message := {
  msg_id : string;
  role : Role;
  content : list MessageContent;
  createdAt : nat
}.

Record ToolResult := {
  output : string;
  metadata : option JsValue;
  error : option string
}.

Record ExecutionContext := {
  sessionId : string;
  messageId : string;
  abortSignal : option JsValue
}.

Record Tool := {
  tool_name : string;
  description : string;
  parameters : JsValue;
  tool_execute : JsValue -> ExecutionContext -> Async ToolResult
}.

Record ToolDefinition := {
  def_name : string;
  def_description : string;
  def_parameters : JsValue
}.

Record ModelConfig := {
  model : string;
  model_maxTokens : option JsNumber;
  model_temperature : option JsNumber
}.

Inductive SessionStatus :=
| status_idle
| status_running
| status_completed
| status_error.

Record Session := {
  session_id : string;
  messages : list Message;
  systemPrompt : string;
  session_model : ModelConfig;
  status : SessionStatus
}.

Record LLMInput := {
  in_model : string;
  in_messages : list Message;
  in_systemPrompt : string;
  in_tools : list ToolDefinition;
  in_maxTokens : option JsNumber;
  in_temperature : option JsNumber
}.

Record Usage := { inputTokens : nat; outputTokens : nat }.

Record LLMOutput := {
  out_content : list MessageContent;
  finishReason : string;
  usage : Usage
}.

Inductive LLMEvent :=
| text_delta (text : string)
| tool_call_start (id name : string)
| tool_call_delta (id arguments : string)
| tool_call_end (id name arguments : string)
| finish (reason : string) (usage : Usage)
| error_event (error : Thrown).

Inductive AgentEvent :=
| ev_message_start (role : Role)
| ev_text (text : string)
| ev_text_done (text : string)
| ev_tool_call (id name : string) (args : JsValue)
| ev_tool_result (id name result : string) (isError : option bool)
| ev_message_end (finishReason : string)
| ev_step (step maxSteps : nat)
| ev_error (error : Thrown).

(** ** [tool/registry.ts] *)

Record ToolRegistry := { tools : list (string * Tool) }.

Definition new_ToolRegistry : ToolRegistry := {| tools := [] |}.

Definition register (tool : Tool) (r : ToolRegistry) : ToolRegistry :=
  {| tools := JsMap.set (tool_name tool) tool (tools r) |}.

Definition registerMany (ts : list Tool) (r : ToolRegistry) : ToolRegistry :=
  fold_left (fun r tool => register tool r) ts r.

Definition unregister (name : string) (r : ToolRegistry) : bool * ToolRegistry :=
  let '(was, m) := JsMap.delete name (tools r) in (was, {| tools := m |}).

Definition get (name : string) (r : ToolRegistry) : option Tool :=
  JsMap.get name (tools r).

Definition new_ToolNotFoundError (toolName : string) : Thrown :=
  ErrorObj ToolNotFoundError ("Tool not found: " +:+ toolName).

Definition getOrThrow (name : string) (r : ToolRegistry) : Outcome Tool :=
  match get name r with
  | None => Throw (new_ToolNotFoundError name)
  | Some tool => Return tool
  end.

Definition has (name : string) (r : ToolRegistry) : bool :=
  JsMap.has name (tools r).

Definition list_tools (r : ToolRegistry) : list Tool := JsMap.values (tools r).

Definition names (r : ToolRegistry) : list string := JsMap.keys (tools r).

Definition size (r : ToolRegistry) : nat := JsMap.size (tools r).

Definition clear (r : ToolRegistry) : ToolRegistry := {| tools := [] |}.

Definition toToolDefinitions (r : ToolRegistry) : list ToolDefinition :=
  map (fun tool =>
         {| def_name := tool_name tool;
            def_description := description tool;
            def_parameters := parameters tool |})
      (list_tools r).

(** ** [tool/executor.ts] *)

(** [timeout] is a whole number of milliseconds, of either sign;
    fractions of a millisecond are left out. *)
Record ExecutorOptions := {
  timeout : option Z;
  onBeforeExecute :
    option (ToolCallContent -> ExecutionContext -> Async unit);
  onAfterExecute :
    option (ToolCallContent -> ToolResultContent -> ExecutionContext -> Async unit)
}.

(** [options: ExecutorOptions = {}] *)
Definition default_options : ExecutorOptions :=
  {| timeout := None; onBeforeExecute := None; onAfterExecute := None |}.

Record ToolExecutor := {
  registry : ToolRegistry;
  options : ExecutorOptions
}.

(** [a ?? b] on an optional string *)
Definition nullish (a : option string) (b : string) : string :=
  match a with Some s => s | None => b end.

(** [!!a] on an optional string: [undefined] and the empty string are falsy. *)
Definition truthy (a : option string) : bool :=
  match a with
  | Some s => negb (String.eqb s "")
  | None => false
  end.

(** The delay [setTimeout(f, t)] arms: [t] milliseconds, and 1
    millisecond when [t] is below 1 or above [2^31 - 1]. *)
Definition timer_delay (t : Z) : nat :=
  if ((t <? 1) || (2147483647 <? t))%Z then 1 else Z.to_nat t.

(** [new Error(`Tool execution timed out after ${timeout}ms`)] *)
Definition timeout_error (t : Z) : Thrown :=
  ErrorObj PlainError
    ("Tool execution timed out after " +:+ show_Z t +:+ "ms").

(** The promise whose [setTimeout] callback rejects; the message prints
    the configured timeout, not the delay of the timer. *)
Definition timeoutPromise (t : Z) : Async ToolResult :=
  mkAsync (timer_delay t) (Throw (timeout_error t)).

(** [executeWithTimeout]; [if (this.options.timeout)] is false for a
    missing timeout and for 0. *)
Definition executeWithTimeout (ex : ToolExecutor) (tool : Tool)
    (call : ToolCallContent) (ctx : ExecutionContext) : Async ToolResult :=
  match timeout (options ex) with
  | None | Some 0%Z => tool_execute tool (call_arguments call) ctx
  | Some t =>
      race_timer (tool_execute tool (call_arguments call) ctx) (timeoutPromise t)
  end.

(** The block built from a tool's [ToolResult]. *)
Definition toolResult_of (call : ToolCallContent) (r : ToolResult)
    : ToolResultContent :=
  {| toolCallId := call_id call;
     result := nullish (error r) (output r);
     isError := Some (truthy (error r)) |}.

(** The block built in the [catch] clause. *)
Definition errorResult_of (call : ToolCallContent) (e : Thrown)
    : ToolResultContent :=
  {| toolCallId := call_id call;
     result := error_message e;
     isError := Some true |}.

Definition run_before (ex : ToolExecutor) (call : ToolCallContent)
    (ctx : ExecutionContext) : Async unit :=
  match onBeforeExecute (options ex) with
  | Some hook => hook call ctx
  | None => async_ret tt
  end.

Definition run_after (ex : ToolExecutor) (call : ToolCallContent)
    (toolResult : ToolResultContent) (ctx : ExecutionContext) : Async unit :=
  match onAfterExecute (options ex) with
  | Some hook => hook call toolResult ctx
  | None => async_ret tt
  end.

(** [ToolExecutor.execute] *)
Definition execute (ex : ToolExecutor) (call : ToolCallContent)
    (ctx : ExecutionContext) : Async ToolResultContent :=
  match get (call_name call) (registry ex) with
  | None =>
      async_ret
        {| toolCallId := call_id call;
           result := "Tool not found: " +:+ call_name call;
           isError := Some true |}
  | Some tool =>
      async_catch
        (await _ := run_before ex call ctx in
         await result := executeWithTimeout ex tool call ctx in
         let toolResult := toolResult_of call result in
         await _ := run_after ex call toolResult ctx in
         async_ret toolResult)%async
        (fun error => async_ret (errorResult_of call error))
  end.

(** *** [Promise.all] *)

(** The order in which promises started together settle: by the time each
    takes, earlier ones first; of two that take the same time, the one
    started first settles first.  An entry is the index of a promise with
    the time it takes. *)
Fixpoint insert_by_elapsed (x : nat * nat) (l : list (nat * nat))
    : list (nat * nat) :=
  match l with
  | [] => [x]
  | y :: l' =>
      if (y.2 <=? x.2)%nat then y :: insert_by_elapsed x l' else x :: y :: l'
  end.

Definition sort_by_elapsed (l : list (nat * nat)) : list (nat * nat) :=
  fold_left (fun acc x => insert_by_elapsed x acc) l [].

Definition settle_order {A} (ps : list (Async A)) : list nat :=
  map fst (sort_by_elapsed (imap (fun i p => (i, elapsed p)) ps)).

(** [Promise.all]'s bookkeeping: [values] has one slot per promise and
    [remaining] counts the promises not fulfilled yet.  Each fulfilment
    writes its slot, by the index of its promise; the last one fulfils the
    result with the array; the first rejection rejects it.  [None]: the
    result never settles. *)
Fixpoint settle_all {A} (ps : list (Async A)) (order : list nat)
    (values : list (option A)) (remaining : nat) : option (Async (list A)) :=
  match order with
  | [] => None
  | i :: order' =>
      match ps !! i with
      | None => settle_all ps order' values remaining
      | Some p =>
          match settled p with
          | Throw e => Some (mkAsync (elapsed p) (Throw e))
          | Return v =>
              let values' := <[i := Some v]> values in
              match remaining with
              | 1 => Some (mkAsync (elapsed p) (Return (omap id values')))
              | _ => settle_all ps order' values' (remaining - 1)
              end
          end
      end
  end.

Definition promise_all {A} (ps : list (Async A)) : option (Async (list A)) :=
  match ps with
  | [] => Some (async_ret [])
  | _ => settle_all ps (settle_order ps) (replicate (length ps) None) (length ps)
  end.

(** [ToolExecutor.executeAll] *)
Definition executeAll (ex : ToolExecutor) (calls : list ToolCallContent)
    (ctx : ExecutionContext) : option (Async (list ToolResultContent)) :=
  promise_all (map (fun call => execute ex call ctx) calls).


(** ** [llm/client.ts]: the batch call *)

(** The parts of an OpenAI response that [LLMClient.call] reads. *)
Inductive ResponseOutputPart :=
| output_text (text : string)
| other_part.

Inductive ResponseOutputItem :=
| item_message (content : list ResponseOutputPart)
| item_function_call (arguments call_id id name : option string)
| item_other.

Record ResponseUsage := {
  input_tokens : option nat;
  output_tokens : option nat
}.

Record Response := {
  resp_output : list ResponseOutputItem;
  resp_status : option string;
  resp_usage : option ResponseUsage
}.

(** The events of an OpenAI response stream that [LLMClient.stream]
    reads; the items of [output_item.added] and [output_item.done] are
    function calls or something else. *)
Inductive ResponseStreamEvent :=
| output_text_delta (delta : string)
| function_call_arguments_delta (item_id delta : string)
| output_item_added (item : ResponseOutputItem)
| output_item_done (item : ResponseOutputItem)
| response_completed (status : option string) (usage : option ResponseUsage)
| other_event.

(** The inference backend.  [responses_create n input] is what the [n]-th
    request of a run gets from [client.responses.create] (the request is
    taken before its translation to the wire format).  [responses_stream
    n input] is the same with [stream: true]: the call throws, or it
    gives a stream that produces events and then ends or throws. *)
Record LLMClient := {
  responses_create : nat -> LLMInput -> Outcome Response;
  responses_stream :
    nat -> LLMInput -> Outcome (list ResponseStreamEvent * option Thrown)
}.

Definition parse_part (part : ResponseOutputPart) : list MessageContent :=
  match part with
  | output_text t => [text_content {| text := t |}]
  | other_part => []
  end.

Definition parse_item (item : ResponseOutputItem) : list MessageContent :=
  match item with
  | item_message parts => flat_map parse_part parts
  | item_function_call arguments call_id id name =>
      let args :=
        match JSON_parse (default "{}" arguments) with
        | Some v => v
        | None =>
            match arguments with
            | Some s => js_string s
            | None => js_undefined
            end
        end in
      [tool_call_content {| call_id := default (default "" id) call_id;
                   call_name := default "" name;
                   call_arguments := args |}]
  | item_other => []
  end.

Definition parseResponseOutput (response : Response) : list MessageContent :=
  flat_map parse_item (resp_output response).

Definition mapResponseStatus (st : string) : string :=
  if String.eqb st "completed" then "stop"
  else if String.eqb st "incomplete" then "max_tokens"
  else if String.eqb st "failed" then "error"
  else "stop".

Definition usage_of (response : Response) : Usage :=
  {| inputTokens := default 0 (resp_usage response ≫= input_tokens);
     outputTokens := default 0 (resp_usage response ≫= output_tokens) |}.

(** [LLMClient.call] *)
Definition LLMClient_call (c : LLMClient) (n : nat) (input : LLMInput)
    : Outcome LLMOutput :=
  match responses_create c n input with
  | Return response =>
      Return {| out_content := parseResponseOutput response;
                finishReason :=
                  mapResponseStatus (default "completed" (resp_status response));
                usage := usage_of response |}
  | Throw error =>
      if instanceof_LLMError error then Throw error
      else Throw (ErrorObj LLMError
                    ("LLM call failed: " +:+ error_message error))
  end.

(** *** [LLMClient.stream] *)

Record PendingCall := {
  pc_id : string;
  pc_name : string;
  pc_arguments : string
}.

(** The locals of [stream]: the calls under way, keyed by item
    identifier, the usage and the finish reason. *)
Record AdapterState := {
  ad_toolCalls : list (string * PendingCall);
  ad_usage : Usage;
  ad_finishReason : string
}.

Definition adapter_start : AdapterState :=
  {| ad_toolCalls := [];
     ad_usage := {| inputTokens := 0; outputTokens := 0 |};
     ad_finishReason := "stop" |}.

Definition with_toolCalls (st : AdapterState)
    (m : list (string * PendingCall)) : AdapterState :=
  {| ad_toolCalls := m; ad_usage := ad_usage st;
     ad_finishReason := ad_finishReason st |}.

(** One turn of the [for await] loop of [stream]: the new locals and the
    events yielded. *)
Definition translate (st : AdapterState) (event : ResponseStreamEvent)
    : AdapterState * list LLMEvent :=
  match event with
  | output_text_delta delta => (st, [text_delta delta])
  | function_call_arguments_delta callId delta =>
      let existing :=
        match JsMap.get callId (ad_toolCalls st) with
        | Some existing => existing
        | None => {| pc_id := callId; pc_name := ""; pc_arguments := "" |}
        end in
      (with_toolCalls st
         (JsMap.set callId
            {| pc_id := pc_id existing; pc_name := pc_name existing;
               pc_arguments := pc_arguments existing +:+ delta |}
            (ad_toolCalls st)),
       [tool_call_delta callId delta])
  | output_item_added (item_function_call _ call_id id name) =>
      let callId := default "" id in
      (with_toolCalls st
         (JsMap.set callId
            {| pc_id := default callId call_id; pc_name := default "" name;
               pc_arguments := "" |}
            (ad_toolCalls st)),
       [tool_call_start (default callId call_id) (default "" name)])
  | output_item_added _ => (st, [])
  | output_item_done (item_function_call arguments _ id name) =>
      let callId := default "" id in
      match JsMap.get callId (ad_toolCalls st) with
      | Some existing =>
          let existing' :=
            {| pc_id := pc_id existing;
               pc_name := default (pc_name existing) name;
               pc_arguments := default (pc_arguments existing) arguments |} in
          (with_toolCalls st (JsMap.set callId existing' (ad_toolCalls st)),
           [tool_call_end (pc_id existing') (pc_name existing')
              (pc_arguments existing')])
      | None => (st, [])
      end
  | output_item_done _ => (st, [])
  | response_completed status u =>
      ({| ad_toolCalls := ad_toolCalls st;
          ad_usage :=
            {| inputTokens := default 0 (u ≫= input_tokens);
               outputTokens := default 0 (u ≫= output_tokens) |};
          ad_finishReason := mapResponseStatus (default "completed" status) |},
       [])
  | other_event => (st, [])
  end.

Fixpoint translate_all (st : AdapterState) (events : list ResponseStreamEvent)
    : AdapterState * list LLMEvent :=
  match events with
  | [] => (st, [])
  | event :: events' =>
      let '(st1, out) := translate st event in
      let '(st2, out') := translate_all st1 events' in
      (st2, out ++ out')
  end.

(** [LLMClient.stream], by the events it yields: those translated while
    the backend's stream lasts, then [finish], or [error] when the call
    or the stream throws. *)
Definition LLMClient_stream (c : LLMClient) (n : nat) (input : LLMInput)
    : list LLMEvent :=
  match responses_stream c n input with
  | Throw e => [error_event (as_Error e)]
  | Return (events, failure) =>
      let '(st, out) := translate_all adapter_start events in
      out ++
      match failure with
      | None => [finish (ad_finishReason st) (ad_usage st)]
      | Some e => [error_event (as_Error e)]
      end
  end.

(** ** The heap an orchestration run works on *)

(** [session] is the session object handed to [run] or [stream]; [draws]
    counts the identifiers and dates drawn so far; [requests] are the
    inference requests made, oldest first; [delivered] are the events
    handed to [onEvent] and [yielded] the events the generator produced,
    oldest first. *)
Record World := {
  session : Session;
  draws : nat;
  requests : list LLMInput;
  delivered : list AgentEvent;
  yielded : list AgentEvent
}.

Definition M (A : Type) : Type := World -> Completion A * World.

Definition ret {A} (a : A) : M A := fun w => (Returned a, w).

Definition throw {A} (e : Thrown) : M A := fun w => (Threw e, w).

Definition bind {A B} (m : M A) (k : A -> M B) : M B :=
  fun w =>
    match m w with
    | (Returned a, w') => k a w'
    | (Threw e, w') => (Threw e, w')
    | (Pending, w') => (Pending, w')
    end.

Definition try_catch {A} (m : M A) (h : Thrown -> M A) : M A :=
  fun w =>
    match m w with
    | (Threw e, w') => h e w'
    | r => r
    end.

(** [await p] *)
Definition await_promise {A} (p : option (Async A)) : M A :=
  fun w =>
    match p with
    | None => (Pending, w)
    | Some a =>
        match settled a with
        | Return v => (Returned v, w)
        | Throw e => (Threw e, w)
        end
    end.

Definition lift {A} (o : Outcome A) : M A :=
  fun w =>
    match o with
    | Return v => (Returned v, w)
    | Throw e => (Threw e, w)
    end.

End Model.

Declare Scope agent_scope.
Delimit Scope agent_scope with agent.
Notation "'let!' x ':=' m 'in' k" := (bind m (fun x => k))
  (at level 10, x name, m at level 100, k at level 200) : agent_scope.
Notation "m ;; k" := (bind m (fun _ => k))
  (at level 100, k at level 200, right associativity) : agent_scope.

Section Orchestrator.
Context `{JsHost}.
Local Open Scope agent_scope.

(** ** [utils.ts], [session/session.ts] *)

(** [generateId()] *)
Definition generateId : M string :=
  fun w =>
    (Returned (randomUUID (draws w)),
     {| session := session w; draws := S (draws w); requests := requests w;
        delivered := delivered w; yielded := yielded w |}).

(** [new Date()] *)
Definition new_Date : M nat :=
  fun w =>
    (Returned (Date_now (draws w)),
     {| session := session w; draws := S (draws w); requests := requests w;
        delivered := delivered w; yielded := yielded w |}).

Definition update_session (f : Session -> Session) : M unit :=
  fun w =>
    (Returned tt,
     {| session := f (session w); draws := draws w; requests := requests w;
        delivered := delivered w; yielded := yielded w |}).

Definition get_session : M Session := fun w => (Returned (session w), w).

(** [s.messages = ms] *)
Definition with_messages (s : Session) (ms : list Message) : Session :=
  {| session_id := session_id s;
     messages := ms;
     systemPrompt := systemPrompt s;
     session_model := session_model s;
     status := status s |}.

(** [s.status = st] *)
Definition with_status (s : Session) (st : SessionStatus) : Session :=
  {| session_id := session_id s;
     messages := messages s;
     systemPrompt := systemPrompt s;
     session_model := session_model s;
     status := st |}.

(** [session.messages.push(message)] *)
Definition push_message (message : Message) : M unit :=
  update_session (fun s => with_messages s (messages s ++ [message])).

(** [session.status = st] *)
Definition updateSessionStatus (st : SessionStatus) : M unit :=
  update_session (fun s => with_status s st).

(** [createSession], with the session's identifier drawn by the caller;
    [model] is a model name or a [ModelConfig]. *)
Definition createSession (sid : string) (systemPrompt : option string)
    (model : option (string + ModelConfig)) (messages : option (list Message))
    : Session :=
  {| session_id := sid;
     messages := default [] messages;
     systemPrompt := default "" systemPrompt;
     session_model :=
       match model with
       | Some (inl name) =>
           {| model := name; model_maxTokens := None; model_temperature := None |}
       | Some (inr cfg) => cfg
       | None =>
           {| model := "gpt-5-mini"; model_maxTokens := None;
              model_temperature := None |}
       end;
     status := status_idle |}.

Definition addUserMessage (text : string) : M Message :=
  let! mid := generateId in
  let! date := new_Date in
  let message :=
    {| msg_id := mid; role := role_user;
       content := [text_content {| text := text |}]; createdAt := date |} in
  push_message message ;;
  ret message.

Definition clearSessionMessages (s : Session) : Session := with_messages s [].

Definition is_assistant (m : Message) : bool :=
  match role m with role_assistant => true | _ => false end.

(** [getLastAssistantMessage]: the scan runs from the last message down. *)
Definition getLastAssistantMessage (s : Session) : option Message :=
  List.find is_assistant (rev (messages s)).

Definition texts_of (cs : list MessageContent) : list string :=
  flat_map (fun c => match c with text_content t => [text t] | _ => [] end) cs.

(** [getTextContent]: the text blocks, joined by a newline *)
Definition getTextContent (m : Message) : string :=
  String.concat (String (ascii_of_nat 10) EmptyString) (texts_of (content m)).

(** ** [agent/agent.ts] *)

Record AgentConfig := {
  cfg_model : string;
  cfg_systemPrompt : string;
  maxSteps : nat;
  maxTokens : option JsNumber;
  temperature : option JsNumber;
  (** the callback, given the events it was handed before and the new one *)
  onEvent : option (list AgentEvent -> AgentEvent -> Outcome unit)
}.

(** The executor of an agent is [new ToolExecutor(this.registry)]: it
    reads the agent's registry and has no options. *)
Record Agent := {
  llm : LLMClient;
  agent_registry : ToolRegistry;
  config : AgentConfig
}.

Definition executor (a : Agent) : ToolExecutor :=
  {| registry := agent_registry a; options := default_options |}.

Definition DEFAULT_MAX_STEPS : nat := 100.

Definition DEFAULT_MODEL : string := "gpt-5-mini".

(** [new Agent(config)]; [config.model || DEFAULT_MODEL] takes the default
    for the empty string too. *)
Definition new_Agent (client : LLMClient) (model systemPrompt : string)
    (tools : option (list Tool)) (steps : option nat)
    (tokens temp : option JsNumber)
    (cb : option (list AgentEvent -> AgentEvent -> Outcome unit)) : Agent :=
  {| llm := client;
     agent_registry :=
       match tools with
       | Some ts => registerMany ts new_ToolRegistry
       | None => new_ToolRegistry
       end;
     config :=
       {| cfg_model := if String.eqb model "" then DEFAULT_MODEL else model;
          cfg_systemPrompt := systemPrompt;
          maxSteps := default DEFAULT_MAX_STEPS steps;
          maxTokens := tokens;
          temperature := temp;
          onEvent := cb |} |}.

Definition registerTool (tool : Tool) (a : Agent) : Agent :=
  {| llm := llm a;
     agent_registry := register tool (agent_registry a);
     config := config a |}.

Definition registerTools (ts : list Tool) (a : Agent) : Agent :=
  {| llm := llm a;
     agent_registry := registerMany ts (agent_registry a);
     config := config a |}.

Definition unregisterTool (name : string) (a : Agent) : Agent :=
  {| llm := llm a;
     agent_registry := snd (unregister name (agent_registry a));
     config := config a |}.

Definition getTools (a : Agent) : list Tool := list_tools (agent_registry a).

(** [Agent.emit]: [this.config.onEvent?.(event)] *)
Definition emit (a : Agent) (event : AgentEvent) : M unit :=
  fun w =>
    match onEvent (config a) with
    | None => (Returned tt, w)
    | Some cb =>
        let w' :=
          {| session := session w; draws := draws w; requests := requests w;
             delivered := delivered w ++ [event]; yielded := yielded w |} in
        match cb (delivered w) event with
        | Return _ => (Returned tt, w')
        | Throw e => (Threw e, w')
        end
    end.

(** [yield event] in the generator *)
Definition yield_event (event : AgentEvent) : M unit :=
  fun w =>
    (Returned tt,
     {| session := session w; draws := draws w; requests := requests w;
        delivered := delivered w; yielded := yielded w ++ [event] |}).

(** [for (const x of l) { body x }] *)
Fixpoint for_each {A} (l : list A) (body : A -> M unit) : M unit :=
  match l with
  | [] => ret tt
  | x :: l' => body x ;; for_each l' body
  end.

(** The request both modes build from the session and the configuration. *)
Definition request_of (a : Agent) (s : Session) : LLMInput :=
  {| in_model := cfg_model (config a);
     in_messages := messages s;
     in_systemPrompt := systemPrompt s;
     in_tools := toToolDefinitions (agent_registry a);
     in_maxTokens := maxTokens (config a);
     in_temperature := temperature (config a) |}.

Definition log_request (input : LLMInput) (w : World) : World :=
  {| session := session w; draws := draws w;
     requests := requests w ++ [input];
     delivered := delivered w; yielded := yielded w |}.

(** [await this.llm.call({...})] *)
Definition call_llm (a : Agent) : M LLMOutput :=
  fun w =>
    let input := request_of a (session w) in
    match LLMClient_call (llm a) (length (requests w)) input with
    | Return r => (Returned r, log_request input w)
    | Throw e => (Threw e, log_request input w)
    end.

(** [this.llm.stream({...})], drained *)
Definition open_stream (a : Agent) : M (list LLMEvent) :=
  fun w =>
    let input := request_of a (session w) in
    (Returned (LLMClient_stream (llm a) (length (requests w)) input),
     log_request input w).

(** [content.filter((c) => c.type === "tool_call")] *)
Definition tool_calls_of (cs : list MessageContent) : list ToolCallContent :=
  omap (fun c => match c with tool_call_content tc => Some tc | _ => None end) cs.

Definition emit_text (a : Agent) (c : MessageContent) : M unit :=
  match c with
  | text_content t => emit a (ev_text (text t)) ;; emit a (ev_text_done (text t))
  | _ => ret tt
  end.

Definition emit_tool_call (a : Agent) (call : ToolCallContent) : M unit :=
  emit a (ev_tool_call (call_id call) (call_name call) (call_arguments call)).

(** The [tool_result] event of a result: the name is that of the first
    call with the result's identifier, ["unknown"] when there is none. *)
Definition tool_result_event (toolCalls : list ToolCallContent)
    (r : ToolResultContent) : AgentEvent :=
  let call :=
    List.find (fun c => String.eqb (call_id c) (toolCallId r)) toolCalls in
  ev_tool_result (toolCallId r)
    (match call with Some c => call_name c | None => "unknown" end)
    (result r) (isError r).

Definition new_message (r : Role) (cs : list MessageContent) : M Message :=
  let! mid := generateId in
  let! date := new_Date in
  ret {| msg_id := mid; role := r; content := cs; createdAt := date |}.

(** The tool half of a step, the same in both modes up to how events
    leave: run the calls, append the [tool] message, report the results. *)
Definition run_tools (a : Agent) (out : AgentEvent -> M unit)
    (assistantMessage : Message) (toolCalls : list ToolCallContent) : M unit :=
  let! s := get_session in
  let! results :=
    await_promise
      (executeAll (executor a) toolCalls
         {| sessionId := session_id s;
            messageId := msg_id assistantMessage;
            abortSignal := None |}) in
  let! toolMessage := new_message role_tool (map tool_result_content results) in
  push_message toolMessage ;;
  out (ev_message_start role_tool) ;;
  for_each results (fun r => out (tool_result_event toolCalls r)) ;;
  out (ev_message_end "tool_results").

(** The [while (step < this.config.maxSteps)] loop of [run].  [budget] is
    [maxSteps - step] on entry; the value returned is [step] when the loop
    is left, by [break] or because the condition fails. *)
Fixpoint run_loop (a : Agent) (budget step : nat) : M nat :=
  match budget with
  | 0 => ret step
  | S budget' =>
      let step := S step in
      emit a (ev_step step (maxSteps (config a))) ;;
      let! response := call_llm a in
      let! assistantMessage :=
        new_message role_assistant (out_content response) in
      push_message assistantMessage ;;
      emit a (ev_message_start role_assistant) ;;
      for_each (out_content response) (emit_text a) ;;
      let toolCalls := tool_calls_of (out_content response) in
      if (length toolCalls =? 0)%nat then
        emit a (ev_message_end (finishReason response)) ;;
        ret step
      else
        for_each toolCalls (emit_tool_call a) ;;
        run_tools a (emit a) assistantMessage toolCalls ;;
        run_loop a budget' step
  end.

(** What follows the loop inside the [try] block. *)
Definition after_loop (a : Agent) (step : nat) : M unit :=
  if (maxSteps (config a) <=? step)%nat then
    throw (new_MaxStepsExceededError (maxSteps (config a)))
  else
    updateSessionStatus status_completed.

(** [Agent.run], on the session held in the heap *)
Definition run (a : Agent) (userMessage : string) : M (list Message) :=
  addUserMessage userMessage ;;
  updateSessionStatus status_running ;;
  try_catch
    (let! step := run_loop a (maxSteps (config a)) 0 in
     after_loop a step ;;
     let! s := get_session in
     ret (messages s))
    (fun error =>
       updateSessionStatus status_error ;;
       emit a (ev_error (as_Error error)) ;;
       throw error).

(** *** The streaming state machine *)

Record ToolCallBuffer := {
  buf_id : string;
  buf_name : string;
  buf_arguments : string
}.

(** The locals of one step of [stream]. *)
Record StreamState := {
  st_content : list MessageContent;
  st_toolCalls : list ToolCallContent;
  currentText : string;
  toolCallBuffers : list (string * ToolCallBuffer)
}.

Definition stream_start : StreamState :=
  {| st_content := []; st_toolCalls := []; currentText := "";
     toolCallBuffers := [] |}.

(** [JSON.parse(s)], and [s] itself when that throws *)
Definition parse_or_raw (s : string) : JsValue :=
  match JSON_parse s with
  | Some v => v
  | None => js_string s
  end.

(** One turn of the [switch]: the new locals, the events yielded, and the
    error thrown, if any. *)
Definition on_event (st : StreamState) (event : LLMEvent)
    : StreamState * list AgentEvent * option Thrown :=
  match event with
  | text_delta t =>
      ({| st_content := st_content st; st_toolCalls := st_toolCalls st;
          currentText := currentText st +:+ t;
          toolCallBuffers := toolCallBuffers st |},
       [ev_text t], None)
  | tool_call_start id name =>
      ({| st_content := st_content st; st_toolCalls := st_toolCalls st;
          currentText := currentText st;
          toolCallBuffers :=
            JsMap.set id {| buf_id := id; buf_name := name; buf_arguments := "" |}
              (toolCallBuffers st) |},
       [], None)
  | tool_call_delta id arguments =>
      match JsMap.get id (toolCallBuffers st) with
      | Some buffer =>
          ({| st_content := st_content st; st_toolCalls := st_toolCalls st;
              currentText := currentText st;
              toolCallBuffers :=
                JsMap.set id
                  {| buf_id := buf_id buffer; buf_name := buf_name buffer;
                     buf_arguments := buf_arguments buffer +:+ arguments |}
                  (toolCallBuffers st) |},
           [], None)
      | None => (st, [], None)
      end
  | tool_call_end id name arguments =>
      let args := parse_or_raw arguments in
      let toolCall :=
        {| call_id := id; call_name := name; call_arguments := args |} in
      ({| st_content := st_content st;
          st_toolCalls := st_toolCalls st ++ [toolCall];
          currentText := currentText st;
          toolCallBuffers := toolCallBuffers st |},
       [ev_tool_call id name args], None)
  | finish reason _ =>
      if String.eqb (currentText st) "" then
        (st, [ev_message_end reason], None)
      else
        ({| st_content := st_content st ++ [text_content {| text := currentText st |}];
            st_toolCalls := st_toolCalls st;
            currentText := currentText st;
            toolCallBuffers := toolCallBuffers st |},
         [ev_text_done (currentText st); ev_message_end reason], None)
  | error_event e => (st, [ev_error e], Some e)
  end.

(** The [for await] loop over the events of one step. *)
Fixpoint consume (events : list LLMEvent) (st : StreamState) : M StreamState :=
  match events with
  | [] => ret st
  | event :: events' =>
      let '(st', out, thrown) := on_event st event in
      for_each out yield_event ;;
      match thrown with
      | Some e => throw e
      | None => consume events' st'
      end
  end.

(** [content.push(...toolCalls)]: the content of the assistant message *)
Definition sealed_content (st : StreamState) : list MessageContent :=
  st_content st ++ map tool_call_content (st_toolCalls st).

(** The [while] loop of [stream]; [budget] and the result as in [run_loop]. *)
Fixpoint stream_loop (a : Agent) (budget step : nat) : M nat :=
  match budget with
  | 0 => ret step
  | S budget' =>
      let step := S step in
      yield_event (ev_step step (maxSteps (config a))) ;;
      yield_event (ev_message_start role_assistant) ;;
      let! events := open_stream a in
      let! st := consume events stream_start in
      let! assistantMessage :=
        new_message role_assistant (sealed_content st) in
      push_message assistantMessage ;;
      if (length (st_toolCalls st) =? 0)%nat then
        ret step
      else
        run_tools a yield_event assistantMessage (st_toolCalls st) ;;
        stream_loop a budget' step
  end.

(** [Agent.stream], drained by its consumer *)
Definition stream (a : Agent) (userMessage : string) : M unit :=
  addUserMessage userMessage ;;
  updateSessionStatus status_running ;;
  try_catch
    (let! step := stream_loop a (maxSteps (config a)) 0 in
     after_loop a step)
    (fun error =>
       updateSessionStatus status_error ;;
       yield_event (ev_error (as_Error error)) ;;
       throw error).

(** *** Reading an event sequence *)

(** The locals after one more event. *)
Definition advance (st : StreamState) (event : LLMEvent) : StreamState :=
  (on_event st event).1.1.

(** The locals after the events of a step. *)
Definition after_events (events : list LLMEvent) : StreamState :=
  fold_left advance events stream_start.

Definition is_error_event (event : LLMEvent) : bool :=
  match event with error_event _ => true | _ => false end.

Definition is_finish (event : LLMEvent) : bool :=
  match event with finish _ _ => true | _ => false end.

(** [event] is a [tool_call_start] for [id]. *)
Definition starts (id : string) (event : LLMEvent) : bool :=
  match event with
  | tool_call_start id' _ => String.eqb id' id
  | _ => false
  end.

(** The text of the [text_delta] events, in order. *)
Definition delta_text (events : list LLMEvent) : string :=
  fold_right String.append ""
    (flat_map (fun ev => match ev with text_delta t => [t] | _ => [] end) events).

(** The argument fragments of the [tool_call_delta] events for [id], in
    order. *)
Definition fragments (id : string) (events : list LLMEvent) : string :=
  fold_right String.append ""
    (flat_map (fun ev =>
                 match ev with
                 | tool_call_delta id' a => if String.eqb id' id then [a] else []
                 | _ => []
                 end) events).

(** The call each [tool_call_end] event completes, its arguments read
    from the event's own [arguments] string. *)
Definition ended_calls (events : list LLMEvent) : list ToolCallContent :=
  flat_map (fun ev =>
              match ev with
              | tool_call_end id name arguments =>
                  [{| call_id := id; call_name := name;
                      call_arguments := parse_or_raw arguments |}]
              | _ => []
              end) events.

(** The text block for the text [t], if [t] is not empty. *)
Definition sealed_text (t : string) : list MessageContent :=
  if String.eqb t "" then [] else [text_content {| text := t |}].

Definition is_text (c : MessageContent) : Prop :=
  match c with text_content _ => True | _ => False end.

Definition is_tool_call (c : MessageContent) : Prop :=
  match c with tool_call_content _ => True | _ => False end.

(** *** Reading a transcript *)

(** [content.filter((c) => c.type === "tool_result")] *)
Definition tool_results_of (cs : list MessageContent) : list ToolResultContent :=
  omap (fun c => match c with tool_result_content tr => Some tr | _ => None end) cs.

(** The [tool_call] blocks of a transcript, in message order. *)
Definition calls_in (msgs : list Message) : list ToolCallContent :=
  flat_map (fun m => tool_calls_of (content m)) msgs.

(** The [tool_result] blocks of a transcript, in message order. *)
Definition results_in (msgs : list Message) : list ToolResultContent :=
  flat_map (fun m => tool_results_of (content m)) msgs.

(** The results that carry the identifier of [c]. *)
Definition matching (c : ToolCallContent) (rs : list ToolResultContent)
    : list ToolResultContent :=
  List.filter (fun r => String.eqb (toolCallId r) (call_id c)) rs.

(** Every [tool_call] block of [msgs] has exactly one [tool_result] block
    with its identifier in the messages after its own. *)
Fixpoint answered (msgs : list Message) : Prop :=
  match msgs with
  | [] => True
  | m :: rest =>
      Forall (fun c => length (matching c (results_in rest)) = 1)
             (tool_calls_of (content m))
      /\ answered rest
  end.

(** The transcript as roles and text contents. *)
Definition transcript_texts (s : Session) : list (Role * string) :=
  map (fun m => (role m, getTextContent m)) (messages s).

(** The identifiers of the [tool_call] blocks of a transcript. *)
Definition call_ids (msgs : list Message) : list string :=
  map call_id (calls_in msgs).

(** The [tool_result] blocks in the messages after the [i]-th. *)
Definition later_results (i : nat) (msgs : list Message)
    : list ToolResultContent :=
  results_in (drop (S i) msgs).

(** For each message, the identifier of each of its tool calls with the
    number of later results that carry it. *)
Definition answer_counts (msgs : list Message) : list (list (string * nat)) :=
  imap (fun i m =>
          map (fun c => (call_id c, length (matching c (later_results i msgs))))
              (tool_calls_of (content m)))
       msgs.

(** The agent without its callback. *)
Definition mute (a : Agent) : Agent :=
  {| llm := llm a;
     agent_registry := agent_registry a;
     config :=
       {| cfg_model := cfg_model (config a);
          cfg_systemPrompt := cfg_systemPrompt (config a);
          maxSteps := maxSteps (config a);
          maxTokens := maxTokens (config a);
          temperature := temperature (config a);
          onEvent := None |} |}.

(** The callback, when there is one, returns normally on every event. *)
Definition never_throws (a : Agent) : Prop :=
  forall cb history event,
    onEvent (config a) = Some cb -> cb history event = Return tt.

(** The heap without the record of what the callback was handed. *)
Definition forget (w : World) : World :=
  {| session := session w; draws := draws w; requests := requests w;
     delivered := []; yielded := yielded w |}.

Definition threw {A} (c : Completion A) : Prop :=
  match c with Threw _ => True | _ => False end.

Definition returned {A} (c : Completion A) : bool :=
  match c with Returned _ => true | _ => false end.

Definition thrown {A} (c : Completion A) : option Thrown :=
  match c with Threw e => Some e | _ => None end.

(** The transcript [run] leaves in the session. *)
Definition transcript_after (a : Agent) (userMessage : string) (w : World)
    : list Message :=
  messages (session (snd (run a userMessage w))).

(** Two runs end the same way, on heaps that differ at most in what the
    callback was handed. *)
Definition agree {A} (r r0 : Completion A * World) : Prop :=
  fst r = fst r0 /\ forget (snd r) = forget (snd r0).

(** The callback throws on some event. *)
Definition callback_throws (a : Agent) : Prop :=
  exists cb history event e,
    onEvent (config a) = Some cb /\ cb history event = Throw e.

(** [m], run by [a], and [m0], run without the callback, agree from heaps
    that agree, unless [m] throws and the callback is one that throws. *)
Definition sim (a : Agent) {A} (m m0 : M A) : Prop :=
  forall w w0, forget w = forget w0 ->
    agree (m w) (m0 w0) \/ (threw (fst (m w)) /\ callback_throws a).

(** A computation that does not read what the callback was handed. *)
Definition blind {A} (m : M A) : Prop :=
  forall w w0, forget w = forget w0 -> agree (m w) (m w0).

(** What one run of the loop appends to the transcript [base], and the
    transcripts its inference requests carry: the loop stops on an empty
    budget, or ends with an assistant message without tool calls, or
    appends an assistant message and the [tool] message answering its
    calls and goes on. *)
Inductive loop_trace (base : list Message)
    : list Message -> list (list Message) -> Prop :=
| trace_stop : loop_trace base [] []
| trace_final m :
    role m = role_assistant ->
    tool_calls_of (content m) = [] ->
    tool_results_of (content m) = [] ->
    loop_trace base [m] [base]
| trace_round a t rest reqs :
    role a = role_assistant ->
    role t = role_tool ->
    tool_results_of (content a) = [] ->
    tool_calls_of (content t) = [] ->
    map toolCallId (tool_results_of (content t))
    = map call_id (tool_calls_of (content a)) ->
    loop_trace (base ++ [a; t]) rest reqs ->
    loop_trace base (a :: t :: rest) (base :: reqs).

(** The [tool] message [t] answers the calls of the assistant message
    [a], one result per call, in order. *)
Definition answers (a t : Message) : Prop :=
  role a = role_assistant
  /\ role t = role_tool
  /\ map toolCallId (tool_results_of (content t))
     = map call_id (tool_calls_of (content a)).

(** Each transcript after the first is the one before it with an
    assistant message and the [tool] message answering it appended. *)
Fixpoint stepwise (reqs : list (list Message)) : Prop :=
  match reqs with
  | r :: rest =>
      match rest with
      | r' :: _ => (exists a t, r' = r ++ [a; t] /\ answers a t)
      | [] => True
      end
      /\ stepwise rest
  | [] => True
  end.

(** The transcripts of the inference requests made from heap [w] to
    heap [w']. *)
Definition requests_since (w w' : World) : list (list Message) :=
  map in_messages (drop (length (requests w)) (requests w')).

(** The heap with the session's status set. *)
Definition set_status (w : World) (st : SessionStatus) : World :=
  {| session := with_status (session w) st; draws := draws w;
     requests := requests w; delivered := delivered w; yielded := yielded w |}.

(** The user message [addUserMessage] builds on heap [w]. *)
Definition user_message (w : World) (userMessage : string) : Message :=
  {| msg_id := randomUUID (draws w); role := role_user;
     content := [text_content {| text := userMessage |}];
     createdAt := Date_now (S (draws w)) |}.

(** The heap on which the loop starts: the user message is appended and
    the session is [running]. *)
Definition started (w : World) (userMessage : string) : World :=
  {| session :=
       with_status
         (with_messages (session w)
            (messages (session w) ++ [user_message w userMessage]))
         status_running;
     draws := S (S (draws w)); requests := requests w;
     delivered := delivered w; yielded := yielded w |}.

(** The heap at the start of a run on [s]. *)
Definition world_of (s : Session) : World :=
  {| session := s; draws := 0; requests := []; delivered := []; yielded := [] |}.

(** ** [mcp/client.ts] *)

(** What [client.callTool] of the MCP SDK resolves to: [content] is an
    array of items or something else; [isError] as [if (result.isError)]
    reads it. *)
Inductive McpContent :=
| content_array (items : list JsValue)
| content_other (v : JsValue).

Record McpCallResult := {
  mcp_content : McpContent;
  mcp_isError : bool
}.

Record MCPToolDefinition := {
  mcp_tool_name : string;
  mcp_description : option string;
  inputSchema : JsValue
}.

(** An [MCPClient] in a given state: [connected] is its flag, and the two
    functions are the remote host behind [this.client]. *)
Record MCPClient := {
  server_name : string;
  connected : bool;
  sdk_listTools : Async (list MCPToolDefinition);
  sdk_callTool : string -> JsValue -> Async McpCallResult
}.

Definition item_text (c : JsValue) : string :=
  match text_property c with
  | Some t => t
  | None => JSON_stringify c
  end.

Definition content_output (c : McpContent) : string :=
  match c with
  | content_array items =>
      String.concat (String (ascii_of_nat 10) EmptyString) (map item_text items)
  | content_other v => JSON_stringify v
  end.

(** [MCPClient.callTool] *)
Definition callTool (c : MCPClient) (name : string) (args : JsValue)
    : Async ToolResult :=
  if negb (connected c) then
    async_throw (ErrorObj PlainError "MCP client is not connected")
  else
    async_catch
      (await result := sdk_callTool c name args in
       let output := content_output (mcp_content result) in
       async_ret
         {| output := output; metadata := None;
            error := if mcp_isError result then Some output else None |})%async
      (fun error =>
         async_ret
           {| output := ""; metadata := None;
              error := Some (error_message error) |}).

(** [MCPClient.adaptTool]: the tool forwards to [callTool] of its client. *)
Definition adaptTool (c : MCPClient) (mcpTool : MCPToolDefinition) : Tool :=
  {| tool_name := mcp_tool_name mcpTool;
     description := default "" (mcp_description mcpTool);
     parameters := inputSchema mcpTool;
     tool_execute := fun args _ => callTool c (mcp_tool_name mcpTool) args |}.

(** [MCPClient.listTools] *)
Definition listTools (c : MCPClient) : Async (list Tool) :=
  if negb (connected c) then
    async_throw (ErrorObj PlainError "MCP client is not connected")
  else
    (await response := sdk_listTools c in
     async_ret (map (adaptTool c) response))%async.

End Orchestrator.

(** ** Reading registries, timings, requests and event sequences *)


(** The error an outcome carries, and its value. *)
Definition thrown_of {A} (o : Outcome A) : option Thrown :=
  match o with Throw e => Some e | Return _ => None end.

Definition returned_of {A} (o : Outcome A) : option A :=
  match o with Return a => Some a | Throw _ => None end.

Section Reading.
Context `{JsHost}.

(** The registries a program can reach: [new ToolRegistry()] and what
    [register], [unregister] and [clear] make of a registry. *)
Inductive built : ToolRegistry -> Prop :=
| built_new : built new_ToolRegistry
| built_register tool r : built r -> built (register tool r)
| built_unregister name r : built r -> built (unregister name r).2
| built_clear r : built r -> built (clear r).

(** The last tool of [ts] that carries the name [name]. *)
Definition last_named (name : string) (ts : list Tool) : option Tool :=
  List.find (fun tool => String.eqb (tool_name tool) name) (rev ts).

(** Each tool is filed under its own name. *)
Definition filed (r : ToolRegistry) : Prop :=
  Forall (fun kv => kv.1 = tool_name kv.2) (tools r).

(** The request [r] is one that agent [a] builds on a session that has
    grown out of [s]. *)
Definition configured (a : Agent) (s : Session) (r : LLMInput) : Prop :=
  in_model r = cfg_model (config a)
  /\ in_systemPrompt r = systemPrompt s
  /\ in_tools r = toToolDefinitions (agent_registry a)
  /\ in_maxTokens r = maxTokens (config a)
  /\ in_temperature r = temperature (config a)
  /\ messages s `prefix_of` in_messages r.

(** Each transcript of the list is a prefix of those after it. *)
Definition chained (l : list (list Message)) : Prop :=
  forall i j x y, i <= j -> l !! i = Some x -> l !! j = Some y -> x `prefix_of` y.

(** From heap [w] to heap [w'] the transcript, the counters and the
    event records have only grown, the rest of the session is as it was,
    and at most [n] inference requests were made, each configured by
    [a] and carrying a transcript between the one before it and the one
    of [w']. *)
Definition advances (a : Agent) (n : nat) (w w' : World) : Prop :=
  messages (session w) `prefix_of` messages (session w')
  /\ session_id (session w') = session_id (session w)
  /\ systemPrompt (session w') = systemPrompt (session w)
  /\ session_model (session w') = session_model (session w)
  /\ draws w <= draws w'
  /\ delivered w `prefix_of` delivered w'
  /\ yielded w `prefix_of` yielded w'
  /\ exists new, requests w' = requests w ++ new
                 /\ length new <= n
                 /\ Forall (configured a (session w)) new
                 /\ Forall (fun r => in_messages r `prefix_of`
                                       messages (session w')) new
                 /\ chained (map in_messages new).

(** Whatever the heap, [m] leaves it advanced. *)
Definition keeps (a : Agent) (n : nat) {A} (m : M A) : Prop :=
  forall w, advances a n w (snd (m w)).

(** [m] never waits for a promise that does not settle. *)
Definition settles {A} (m : M A) : Prop :=
  forall w, fst (m w) <> Pending.

(** [m] does not call the callback. *)
Definition silent {A} (m : M A) : Prop :=
  forall w, delivered (snd (m w)) = delivered w.

(** What [LLMClient.call] throws when the backend throws [e]. *)
Definition call_failure (e : Thrown) : Thrown :=
  if instanceof_LLMError e then e
  else ErrorObj LLMError ("LLM call failed: " +:+ error_message e).

(** The events the [switch] of [stream] yields for the events of a step
    taken from the locals [st]. *)
Fixpoint yields_of (events : list LLMEvent) (st : StreamState) : list AgentEvent :=
  match events with
  | [] => []
  | event :: events' =>
      (on_event st event).1.2 ++ yields_of events' (advance st event)
  end.

Definition is_function_call (item : ResponseOutputItem) : bool :=
  match item with item_function_call _ _ _ _ => true | _ => false end.

(** The event ends a sequence: [finish] or [error]. *)
Definition is_terminal (event : LLMEvent) : bool :=
  is_finish event || is_error_event event.

(** The backend's events for one function call: the item is announced,
    its arguments arrive in fragments under the item's identifier, and
    the item is reported done. *)
Definition call_events (arguments0 arguments call_id id name : option string)
    (deltas : list string) : list ResponseStreamEvent :=
  output_item_added (item_function_call arguments0 call_id id name)
  :: map (function_call_arguments_delta (default "" id)) deltas
  ++ [output_item_done (item_function_call arguments call_id id name)].

(** [new Error("MCP client is not connected")] *)
Definition not_connected : Thrown :=
  ErrorObj PlainError "MCP client is not connected".

End Reading.

(** ** More of the platform *)

(** [typeof v === "string"] (and then the string [v] is), [new URL(s)],
    which gives the URL as it prints or throws a [TypeError], and the
    object and array literals. *)
Class JsPlatform `{JsHost} := {
  typeof_string : JsValue -> option string;
  new_URL : string -> Outcome string;
  js_object : list (string * JsValue) -> JsValue;
  js_array : list JsValue -> JsValue
}.

(** ** [llm/client.ts]: the input of a request *)

Section Wire.
Context `{JsPlatform}.

(** An item of the input of the Responses API, as [convertToResponseInput]
    builds it. *)
Inductive ResponseInputItem :=
| input_message (role : Role) (content : string)
| input_function_call (call_id name arguments : string)
| input_function_call_output (call_id output : string).

(** [texts.join("\n")] *)
Definition join_lines (texts : list string) : string :=
  String.concat (String (ascii_of_nat 10) EmptyString) texts.

(** [typeof tc.arguments === "string" ? tc.arguments
     : JSON.stringify(tc.arguments)] *)
Definition arguments_text (v : JsValue) : string :=
  match typeof_string v with
  | Some s => s
  | None => JSON_stringify v
  end.

(** One turn of the [for (const msg of messages)] loop. *)
Definition convert_message (msg : Message) : list ResponseInputItem :=
  match role msg with
  | role_user =>
      let textContent := join_lines (texts_of (content msg)) in
      if String.eqb textContent "" then []
      else [input_message role_user textContent]
  | role_assistant =>
      let textParts := texts_of (content msg) in
      let toolCalls := tool_calls_of (content msg) in
      (if (0 <? length textParts)%nat
       then [input_message role_assistant (join_lines textParts)]
       else [])
      ++ map (fun tc =>
                input_function_call (call_id tc) (call_name tc)
                  (arguments_text (call_arguments tc)))
             toolCalls
  | role_tool =>
      map (fun tr => input_function_call_output (toolCallId tr) (result tr))
          (tool_results_of (content msg))
  end.

(** [LLMClient.convertToResponseInput] *)
Definition convertToResponseInput (messages : list Message)
    : list ResponseInputItem :=
  flat_map convert_message messages.

(** The function calls of an input, by identifier and name, and its
    function-call outputs, by identifier and output. *)
Definition input_calls (items : list ResponseInputItem) : list (string * string) :=
  flat_map (fun item =>
              match item with
              | input_function_call id name _ => [(id, name)]
              | _ => []
              end) items.

Definition input_outputs (items : list ResponseInputItem)
    : list (string * string) :=
  flat_map (fun item =>
              match item with
              | input_function_call_output id output => [(id, output)]
              | _ => []
              end) items.

Definition is_input_message (item : ResponseInputItem) : bool :=
  match item with input_message _ _ => true | _ => false end.

(** Tool calls sit in assistant messages and tool results in [tool]
    messages. *)
Definition in_place (msg : Message) : Prop :=
  match role msg with
  | role_user =>
      tool_calls_of (content msg) = [] /\ tool_results_of (content msg) = []
  | role_assistant => tool_results_of (content msg) = []
  | role_tool => tool_calls_of (content msg) = []
  end.

End Wire.

(** ** [mcp/client.ts], [mcp/manager.ts]: connections *)

Section Connections.
Context `{JsPlatform}.

(** [MCPServerConfig]; [transport] is ["stdio"] or ["sse"] by its type
    and any string at run time. *)
Record MCPServerConfig := {
  srv_name : string;
  srv_transport : string;
  srv_command : option string;
  srv_args : option (list string);
  srv_url : option string;
  srv_env : option (list (string * string))
}.

Inductive McpTransport :=
| StdioClientTransport (command : string) (args : list string)
    (env : option (list (string * string)))
| SSEClientTransport (url : string).

(** The SDK [Client] of an [MCPClient] and the server behind it, by what
    each of its calls settles to. *)
Record SdkClient := {
  client_connect : McpTransport -> Async unit;
  client_close : Async unit;
  client_listTools : Async (list MCPToolDefinition);
  client_callTool : string -> JsValue -> Async McpCallResult
}.

(** The fields of an [MCPClient] object. *)
Record ClientObject := {
  obj_client : SdkClient;
  obj_transport : option McpTransport;
  obj_config : MCPServerConfig;
  obj_connected : bool
}.

(** [new MCPClient(config)], [sdk] being the [Client] it creates *)
Definition new_MCPClient (config : MCPServerConfig) (sdk : SdkClient)
    : ClientObject :=
  {| obj_client := sdk; obj_transport := None; obj_config := config;
     obj_connected := false |}.

(** The object as [listTools], [callTool] and [adaptTool] read it. *)
Definition client_of (o : ClientObject) : MCPClient :=
  {| server_name := srv_name (obj_config o);
     connected := obj_connected o;
     sdk_listTools := client_listTools (obj_client o);
     sdk_callTool := client_callTool (obj_client o) |}.

Definition isConnected (o : ClientObject) : bool := obj_connected o.

Definition getName (o : ClientObject) : string := srv_name (obj_config o).

(** [await this.client.connect(this.transport); this.connected = true],
    the transport having been stored *)
Definition attach (o : ClientObject) (t : McpTransport)
    : Async unit * ClientObject :=
  (client_connect (obj_client o) t,
   {| obj_client := obj_client o; obj_transport := Some t;
      obj_config := obj_config o;
      obj_connected :=
        match settled (client_connect (obj_client o) t) with
        | Return _ => true
        | Throw _ => false
        end |}).

(** [MCPClient.connect]: the promise it returns and the object once the
    promise has settled.  [!this.config.command] holds for a missing
    command and for the empty string, and so for the URL. *)
Definition connect (o : ClientObject) : Async unit * ClientObject :=
  if obj_connected o then (async_ret tt, o)
  else if String.eqb (srv_transport (obj_config o)) "stdio" then
    match srv_command (obj_config o) with
    | None | Some EmptyString =>
        (async_throw
           (ErrorObj PlainError "Command is required for stdio transport"), o)
    | Some command =>
        attach o
          (StdioClientTransport command (default [] (srv_args (obj_config o)))
             (srv_env (obj_config o)))
    end
  else if String.eqb (srv_transport (obj_config o)) "sse" then
    match srv_url (obj_config o) with
    | None | Some EmptyString =>
        (async_throw (ErrorObj PlainError "URL is required for SSE transport"), o)
    | Some url =>
        match new_URL url with
        | Return u => attach o (SSEClientTransport u)
        | Throw e => (async_throw e, o)
        end
    end
  else
    (async_throw
       (ErrorObj PlainError
          ("Unsupported transport: " +:+ srv_transport (obj_config o))), o).

(** [MCPClient.disconnect] *)
Definition disconnect (o : ClientObject) : Async unit * ClientObject :=
  if negb (obj_connected o) then (async_ret tt, o)
  else
    (client_close (obj_client o),
     match settled (client_close (obj_client o)) with
     | Return _ =>
         {| obj_client := obj_client o; obj_transport := None;
            obj_config := obj_config o; obj_connected := false |}
     | Throw _ => o
     end).

(** [connectMCP]: the promise of the client, and the client *)
Definition connectMCP (config : MCPServerConfig) (sdk : SdkClient)
    : Async unit * ClientObject :=
  connect (new_MCPClient config sdk).

(** The [MCPClient] objects, by address, and the [clients] map of the
    [MCPManager], from names to addresses. *)
Record McpHeap := {
  mcp_objects : list ClientObject;
  manager_clients : list (string * nat)
}.

(** [createMCPManager()], on a heap without clients *)
Definition createMCPManager : McpHeap :=
  {| mcp_objects := []; manager_clients := [] |}.

(** A tool that [adaptTool] made: the closure
    [async (args) => this.callTool(mcpTool.name, args)] with the rest of
    the tool, by the address of [this] and [mcpTool]. *)
Record AdaptedTool := {
  tool_client : nat;
  tool_def : MCPToolDefinition
}.

(** The tool as it runs on heap [h]: it reads the client as it is then. *)
Definition tool_on (h : McpHeap) (t : AdaptedTool) : option Tool :=
  option_map (fun o => adaptTool (client_of o) (tool_def t))
             (mcp_objects h !! tool_client t).

(** [client.listTools()] for the client [o] at address [p] *)
Definition listTools_at (p : nat) (o : ClientObject) : Async (list AdaptedTool) :=
  if negb (obj_connected o) then
    async_throw (ErrorObj PlainError "MCP client is not connected")
  else
    (await response := client_listTools (obj_client o) in
     async_ret (map (fun d => {| tool_client := p; tool_def := d |}) response))%async.

(** [MCPManager.addServer], [sdk] being the [Client] the new [MCPClient]
    creates.  A client whose [connect] fails is referred to by nothing
    and is left out of the heap. *)
Definition addServer (config : MCPServerConfig) (sdk : SdkClient) (h : McpHeap)
    : Async (list AdaptedTool) * McpHeap :=
  if JsMap.has (srv_name config) (manager_clients h) then
    (async_throw
       (ErrorObj PlainError ("MCP server already exists: " +:+ srv_name config)),
     h)
  else
    let p := length (mcp_objects h) in
    let '(connecting, client) := connect (new_MCPClient config sdk) in
    match settled connecting with
    | Throw e => (mkAsync (elapsed connecting) (Throw e), h)
    | Return _ =>
        ((await _ := connecting in listTools_at p client)%async,
         {| mcp_objects := mcp_objects h ++ [client];
            manager_clients := JsMap.set (srv_name config) p (manager_clients h) |})
    end.

(** [MCPManager.removeServer] *)
Definition removeServer (name : string) (h : McpHeap) : Async unit * McpHeap :=
  match JsMap.get name (manager_clients h) with
  | None => (async_ret tt, h)
  | Some p =>
      match mcp_objects h !! p with
      | None => (async_ret tt, h)
      | Some o =>
          let '(closing, o') := disconnect o in
          (closing,
           {| mcp_objects := <[p := o']> (mcp_objects h);
              manager_clients :=
                match settled closing with
                | Return _ => JsMap.remove name (manager_clients h)
                | Throw _ => manager_clients h
                end |})
      end
  end.

(** [MCPManager.getClient]: the address of the client *)
Definition getClient (name : string) (h : McpHeap) : option nat :=
  JsMap.get name (manager_clients h).

(** [MCPManager.getServerNames] *)
Definition getServerNames (h : McpHeap) : list string :=
  JsMap.keys (manager_clients h).

(** [MCPManager.isServerConnected]: [client?.isConnected() ?? false] *)
Definition isServerConnected (name : string) (h : McpHeap) : bool :=
  match getClient name h with
  | Some p =>
      match mcp_objects h !! p with
      | Some o => isConnected o
      | None => false
      end
  | None => false
  end.

(** [MCPManager.listAllTools]: the loop over [this.clients.values()] *)
Fixpoint listAllTools_from (h : McpHeap) (ps : list nat)
    : Async (list AdaptedTool) :=
  match ps with
  | [] => async_ret []
  | p :: ps' =>
      match mcp_objects h !! p with
      | None => listAllTools_from h ps'
      | Some o =>
          (await tools := listTools_at p o in
           await rest := listAllTools_from h ps' in
           async_ret (tools ++ rest))%async
      end
  end.

Definition listAllTools (h : McpHeap) : Async (list AdaptedTool) :=
  listAllTools_from h (JsMap.values (manager_clients h)).

(** [MCPManager.disconnectAll]: every client is told to disconnect, and
    the map is cleared when all of them have done so.  The objects are
    given as they are once every [disconnect] has settled. *)
Definition disconnectAll (h : McpHeap) : option (Async unit) * McpHeap :=
  let ps := JsMap.values (manager_clients h) in
  let objects' :=
    fold_left (fun objs p =>
                 match objs !! p with
                 | Some o => <[p := (disconnect o).2]> objs
                 | None => objs
                 end) ps (mcp_objects h) in
  let disconnectPromises :=
    omap (fun p => option_map (fun o => (disconnect o).1) (mcp_objects h !! p)) ps in
  match promise_all disconnectPromises with
  | Some all =>
      match settled all with
      | Return _ =>
          (Some (mkAsync (elapsed all) (Return tt)),
           {| mcp_objects := objects'; manager_clients := [] |})
      | Throw e =>
          (Some (mkAsync (elapsed all) (Throw e)),
           {| mcp_objects := objects'; manager_clients := manager_clients h |})
      end
  | None =>
      (None, {| mcp_objects := objects'; manager_clients := manager_clients h |})
  end.

(** The heaps the manager's methods keep: every address in the map
    holds a client, and no two names share a client. *)
Definition heap_ok (h : McpHeap) : Prop :=
  NoDup (JsMap.keys (manager_clients h))
  /\ NoDup (JsMap.values (manager_clients h))
  /\ Forall (fun p => p < length (mcp_objects h)) (JsMap.values (manager_clients h)).

End Connections.


(** ** [tool/registry.ts]: [defineTool], [defineZodTool] *)

Section Zod.
Context `{JsPlatform}.

(** A zod schema, by what [defineZodTool] reads of it: [_def] with its
    [typeName] and [type] when ["_def" in schema], [shape] as
    [Object.entries] lists it when ["shape" in schema], what
    [isOptional?.()] returns when the schema has the method, and
    [parse], which returns the parsed value or throws. *)
#[warnings="-register-all"]
Inductive ZodType :=
| zod (_def : option (option string * option ZodType))
      (shape : option (list (string * ZodType)))
      (isOptional : option bool)
      (parse : JsValue -> Outcome JsValue).

(** The schemas [zodToJsonSchema] builds: [{ type: "object" }],
    [{ type: "object", properties, required }] with [properties] in the
    order of the assignments and [required] absent for [undefined], the
    three scalar types, and [{ type: "array", items }] with [items] the
    empty object for [None]. *)
#[warnings="-register-all"]
Inductive JSONSchema :=
| schema_any_object
| schema_object (properties : list (string * JSONSchema))
    (required : option (list string))
| schema_string
| schema_number
| schema_boolean
| schema_array (items : option JSONSchema).

(** [value.isOptional?.()], as a condition *)
Definition is_optional (value : ZodType) : bool :=
  match value with
  | zod _ _ (Some true) _ => true
  | _ => false
  end.

(** [schema.parse] *)
Definition zod_parse (schema : ZodType) : JsValue -> Outcome JsValue :=
  match schema with zod _ _ _ parse => parse end.

(** [required.length > 0 ? required : undefined] *)
Definition non_empty (required : list string) : option (list string) :=
  match required with
  | [] => None
  | _ => Some required
  end.

(** [def.typeName === name] *)
Definition named (typeName : option string) (name : string) : bool :=
  match typeName with
  | Some n => String.eqb n name
  | None => false
  end.

(** [zodToJsonSchema]; [rest] is what follows the [if] on ["ZodObject"].
    The keys [Object.entries] lists are distinct, so each assignment to
    [properties] adds a property (a key ["__proto__"] apart, which the
    assignment does not define); they are kept in the order of the
    assignments. *)
Fixpoint zodToJsonSchema (schema : ZodType) : JSONSchema :=
  match schema with
  | zod None _ _ _ => schema_any_object
  | zod (Some (typeName, type)) shape _ _ =>
      let rest :=
        if named typeName "ZodString" then schema_string
        else if named typeName "ZodNumber" then schema_number
        else if named typeName "ZodBoolean" then schema_boolean
        else if named typeName "ZodArray" then
          schema_array
            (match type with
             | Some element => Some (zodToJsonSchema element)
             | None => None
             end)
        else schema_any_object in
      match shape with
      | Some entries =>
          if named typeName "ZodObject" then
            schema_object
              (map (fun '(key, value) => (key, zodToJsonSchema value)) entries)
              (non_empty
                 (map fst
                    (List.filter (fun kv => negb (is_optional kv.2)) entries)))
          else rest
      | None => rest
      end
  end.

(** The schema as the value [parameters] holds. *)
Fixpoint schema_value (s : JSONSchema) : JsValue :=
  match s with
  | schema_any_object => js_object [("type", js_string "object")]
  | schema_object properties required =>
      js_object
        [("type", js_string "object");
         ("properties",
          js_object
            (map (fun '(key, value) => (key, schema_value value)) properties));
         ("required",
          match required with
          | Some keys => js_array (map js_string keys)
          | None => js_undefined
          end)]
  | schema_string => js_object [("type", js_string "string")]
  | schema_number => js_object [("type", js_string "number")]
  | schema_boolean => js_object [("type", js_string "boolean")]
  | schema_array items =>
      js_object
        [("type", js_string "array");
         ("items",
          match items with
          | Some element => schema_value element
          | None => js_object []
          end)]
  end.

(** [ZodTool<T>] *)
Record ZodTool := {
  zt_name : string;
  zt_description : string;
  zt_schema : ZodType;
  zt_execute : JsValue -> ExecutionContext -> Async ToolResult
}.

(** [defineZodTool]; a [parse] that throws rejects the promise of the
    [async] function. *)
Definition defineZodTool (config : ZodTool) : Tool :=
  {| tool_name := zt_name config;
     description := zt_description config;
     parameters := schema_value (zodToJsonSchema (zt_schema config));
     tool_execute := fun args ctx =>
       match zod_parse (zt_schema config) args with
       | Return parsed => zt_execute config parsed ctx
       | Throw e => async_throw e
       end |}.

(** [defineTool] returns its configuration. *)
Definition defineTool (config : Tool) : Tool := config.

End Zod.
(** ** [tool/executor.ts], with thrown values as they are *)

(** [Thrown] keeps of a thrown value what
    [error instanceof Error ? error.message : String(error)] evaluates
    to.  A tool or a hook is code of the caller, and it can throw a value
    for which that expression itself throws: an object without prototype,
    a value whose [toString] throws, an error whose [message] is a getter
    that throws.  Here a tool and a hook reject with a value of either
    kind, and [execute] is the same function over such promises. *)
Module Raw.
Section defs.
Context `{JsHost}.

(** A thrown value [Thrown] describes, or one whose message cannot be
    read, with what reading it throws. *)
Inductive Raised :=
| readable (e : Thrown)
| unreadable (failure : Raised).

Inductive Settled (A : Type) :=
| fulfilled (a : A)
| rejected (r : Raised).
Arguments fulfilled {A} a.
Arguments rejected {A} r.

(** A promise, by the time it takes and the way it settles. *)
Record Promise (A : Type) := mkPromise { took : nat; outcome : Settled A }.
Arguments mkPromise {A} took outcome.
Arguments took {A} p.
Arguments outcome {A} p.

Definition resolve {A} (a : A) : Promise A := mkPromise 0 (fulfilled a).

Definition reject {A} (r : Raised) : Promise A := mkPromise 0 (rejected r).

(** [const a = await m; k a] *)
Definition bind {A B} (m : Promise A) (k : A -> Promise B) : Promise B :=
  match outcome m with
  | fulfilled a => mkPromise (took m + took (k a)) (outcome (k a))
  | rejected r => mkPromise (took m) (rejected r)
  end.

(** [try { m } catch (error) { h error }] *)
Definition catch {A} (m : Promise A) (h : Raised -> Promise A) : Promise A :=
  match outcome m with
  | fulfilled _ => m
  | rejected r => mkPromise (took m + took (h r)) (outcome (h r))
  end.

(** [Promise.race([p, timer])], the timer armed first. *)
Definition race_timer {A} (p timer : Promise A) : Promise A :=
  if (took timer <=? took p)%nat then timer else p.

Record Tool := {
  tool_name : string;
  description : string;
  parameters : JsValue;
  tool_execute : JsValue -> ExecutionContext -> Promise ToolResult
}.

Record ToolRegistry := { tools : list (string * Tool) }.

(** [registry.get(name)] *)
Definition get (name : string) (r : ToolRegistry) : option Tool :=
  JsMap.get name (tools r).

Record ExecutorOptions := {
  timeout : option Z;
  onBeforeExecute :
    option (ToolCallContent -> ExecutionContext -> Promise unit);
  onAfterExecute :
    option (ToolCallContent -> ToolResultContent -> ExecutionContext
            -> Promise unit)
}.

Record ToolExecutor := {
  registry : ToolRegistry;
  options : ExecutorOptions
}.

Definition timeoutPromise (t : Z) : Promise ToolResult :=
  mkPromise (timer_delay t) (rejected (readable (timeout_error t))).

(** [ToolExecutor.execute].  The [catch] block reads the message of what
    was thrown; when reading it throws, that is what [execute] throws. *)
Definition execute (ex : ToolExecutor) (call : ToolCallContent)
    (ctx : ExecutionContext) : Promise ToolResultContent :=
  match get (call_name call) (registry ex) with
  | None =>
      resolve
        {| toolCallId := call_id call;
           result := "Tool not found: " +:+ call_name call;
           isError := Some true |}
  | Some tool =>
      catch
        (bind
           (match onBeforeExecute (options ex) with
            | Some hook => hook call ctx
            | None => resolve tt
            end)
           (fun _ =>
         bind
           (match timeout (options ex) with
            | None | Some 0%Z => tool_execute tool (call_arguments call) ctx
            | Some t =>
                race_timer (tool_execute tool (call_arguments call) ctx)
                  (timeoutPromise t)
            end)
           (fun result =>
         let toolResult :=
           {| toolCallId := call_id call;
              result := nullish (error result) (output result);
              isError := Some (truthy (error result)) |} in
         bind
           (match onAfterExecute (options ex) with
            | Some hook => hook call toolResult ctx
            | None => resolve tt
            end)
           (fun _ => resolve toolResult))))
        (fun error =>
           match error with
           | readable e =>
               resolve
                 {| toolCallId := call_id call;
                    result := error_message e;
                    isError := Some true |}
           | unreadable failure => reject failure
           end)
  end.

(** [Promise.all], as above. *)
Definition settle_order {A} (ps : list (Promise A)) : list nat :=
  map fst (sort_by_elapsed (imap (fun i p => (i, took p)) ps)).

Fixpoint settle_all {A} (ps : list (Promise A)) (order : list nat)
    (values : list (option A)) (remaining : nat) : option (Promise (list A)) :=
  match order with
  | [] => None
  | i :: order' =>
      match ps !! i with
      | None => settle_all ps order' values remaining
      | Some p =>
          match outcome p with
          | rejected r => Some (mkPromise (took p) (rejected r))
          | fulfilled v =>
              let values' := <[i := Some v]> values in
              match remaining with
              | 1 => Some (mkPromise (took p) (fulfilled (omap id values')))
              | _ => settle_all ps order' values' (remaining - 1)
              end
          end
      end
  end.

Definition promise_all {A} (ps : list (Promise A)) : option (Promise (list A)) :=
  match ps with
  | [] => Some (resolve [])
  | _ => settle_all ps (settle_order ps) (replicate (length ps) None) (length ps)
  end.

(** [ToolExecutor.executeAll] *)
Definition executeAll (ex : ToolExecutor) (calls : list ToolCallContent)
    (ctx : ExecutionContext) : option (Promise (list ToolResultContent)) :=
  promise_all (map (fun call => execute ex call ctx) calls).

End defs.

Arguments fulfilled {A} a.
Arguments rejected {A} r.
Arguments mkPromise {A} took outcome.
Arguments took {A} p.
Arguments outcome {A} p.

End Raw.

(** A promise, a tool and an executor that throw values [Thrown]
    describes, among those that throw anything. *)
Section Lifting.
Context `{JsHost}.

Definition raw_promise {A} (p : Async A) : Raw.Promise A :=
  Raw.mkPromise (elapsed p)
    (match settled p with
     | Return a => Raw.fulfilled a
     | Throw e => Raw.rejected (Raw.readable e)
     end).

Definition raw_tool (tool : Tool) : Raw.Tool :=
  {| Raw.tool_name := tool_name tool;
     Raw.description := description tool;
     Raw.parameters := parameters tool;
     Raw.tool_execute := fun args ctx => raw_promise (tool_execute tool args ctx) |}.

Definition raw_executor (ex : ToolExecutor) : Raw.ToolExecutor :=
  {| Raw.registry :=
       {| Raw.tools := map (fun kv => (kv.1, raw_tool kv.2)) (tools (registry ex)) |};
     Raw.options :=
       {| Raw.timeout := timeout (options ex);
          Raw.onBeforeExecute :=
            option_map (fun hook call ctx => raw_promise (hook call ctx))
              (onBeforeExecute (options ex));
          Raw.onAfterExecute :=
            option_map (fun hook call block ctx => raw_promise (hook call block ctx))
              (onAfterExecute (options ex)) |} |}.

End Lifting.

(** ** A host to run the model on

    [MiniJson] reads and prints a fragment of JSON: [null], [true],
    [false], integers, strings without escapes, arrays and objects.  Text
    outside the fragment (fractions, exponents, escapes) is refused.  The
    lemmas of the second part hold for every host; this one serves to
    evaluate the model on concrete inputs. *)

Module MiniJson.

#[local] Set Warnings "-register-all".

Inductive json :=
| JNull
| JBool (b : bool)
| JNum (z : Z)
| JStr (s : string)
| JArr (items : list json)
| JObj (members : list (string * json)).

Definition quote : ascii := ascii_of_nat 34.

Definition backslash : ascii := ascii_of_nat 92.

Definition is_ws (c : ascii) : bool :=
  let n := nat_of_ascii c in
  (n =? 32)%nat || (n =? 9)%nat || (n =? 10)%nat || (n =? 13)%nat.

Fixpoint skip_ws (s : string) : string :=
  match s with
  | String c s' => if is_ws c then skip_ws s' else s
  | EmptyString => s
  end.

Fixpoint strip_prefix (p s : string) : option string :=
  match p with
  | EmptyString => Some s
  | String a p' =>
      match s with
      | String b s' => if Ascii.eqb a b then strip_prefix p' s' else None
      | EmptyString => None
      end
  end.

Definition is_digit (c : ascii) : bool :=
  let n := nat_of_ascii c in (48 <=? n)%nat && (n <=? 57)%nat.

Fixpoint digits (acc : Z) (s : string) : Z * string :=
  match s with
  | String c s' =>
      if is_digit c
      then digits (acc * 10 + Z.of_nat (nat_of_ascii c - 48)) s'
      else (acc, s)
  | EmptyString => (acc, s)
  end.

(** An optional minus sign, then 0 or a digit string that does not start
    with 0; a fraction or an exponent after it is outside the fragment. *)
Definition number (s : string) : option (Z * string) :=
  let '(neg, s1) :=
    match s with
    | String c s' => if Ascii.eqb c "-" then (true, s') else (false, s)
    | EmptyString => (false, s)
    end in
  match s1 with
  | String c s2 =>
      if is_digit c then
        let '(n, rest) := if Ascii.eqb c "0" then (0%Z, s2) else digits 0 s1 in
        let v := if neg : bool then (- n)%Z else n in
        match rest with
        | String d _ =>
            if Ascii.eqb d "." || Ascii.eqb d "e" || Ascii.eqb d "E"
            then None else Some (v, rest)
        | EmptyString => Some (v, rest)
        end
      else None
  | EmptyString => None
  end.

(** The characters up to the closing quote. *)
Fixpoint string_body (s : string) : option (string * string) :=
  match s with
  | EmptyString => None
  | String c s' =>
      if Ascii.eqb c quote then Some (EmptyString, s')
      else if Ascii.eqb c backslash then None
      else if (nat_of_ascii c <? 32)%nat then None
      else
        match string_body s' with
        | Some (t, rest) => Some (String c t, rest)
        | None => None
        end
  end.

Fixpoint value (fuel : nat) (s : string) : option (json * string) :=
  match fuel with
  | 0 => None
  | S fuel' =>
      match skip_ws s with
      | EmptyString => None
      | String c rest =>
          if Ascii.eqb c "n" then
            option_map (fun r => (JNull, r)) (strip_prefix "ull" rest)
          else if Ascii.eqb c "t" then
            option_map (fun r => (JBool true, r)) (strip_prefix "rue" rest)
          else if Ascii.eqb c "f" then
            option_map (fun r => (JBool false, r)) (strip_prefix "alse" rest)
          else if Ascii.eqb c quote then
            option_map (fun '(t, r) => (JStr t, r)) (string_body rest)
          else if Ascii.eqb c "[" then
            match skip_ws rest with
            | String d rest' =>
                if Ascii.eqb d "]" then Some (JArr [], rest')
                else option_map (fun '(vs, r) => (JArr vs, r)) (elements fuel' rest)
            | EmptyString => None
            end
          else if Ascii.eqb c "{" then
            match skip_ws rest with
            | String d rest' =>
                if Ascii.eqb d "}" then Some (JObj [], rest')
                else option_map (fun '(ms, r) => (JObj ms, r)) (members fuel' rest)
            | EmptyString => None
            end
          else
            option_map (fun '(z, r) => (JNum z, r)) (number (String c rest))
      end
  end
with elements (fuel : nat) (s : string) : option (list json * string) :=
  match fuel with
  | 0 => None
  | S fuel' =>
      match value fuel' s with
      | Some (v, r) =>
          match skip_ws r with
          | String d r' =>
              if Ascii.eqb d "," then
                option_map (fun '(vs, r2) => (v :: vs, r2)) (elements fuel' r')
              else if Ascii.eqb d "]" then Some ([v], r')
              else None
          | EmptyString => None
          end
      | None => None
      end
  end
with members (fuel : nat) (s : string) : option (list (string * json) * string) :=
  match fuel with
  | 0 => None
  | S fuel' =>
      match skip_ws s with
      | String q s1 =>
          if Ascii.eqb q quote then
            match string_body s1 with
            | Some (k, s2) =>
                match skip_ws s2 with
                | String colon s3 =>
                    if Ascii.eqb colon ":" then
                      match value fuel' s3 with
                      | Some (v, r) =>
                          match skip_ws r with
                          | String d r' =>
                              if Ascii.eqb d "," then
                                option_map (fun '(ms, r2) => ((k, v) :: ms, r2))
                                  (members fuel' r')
                              else if Ascii.eqb d "}" then Some ([(k, v)], r')
                              else None
                          | EmptyString => None
                          end
                      | None => None
                      end
                    else None
                | EmptyString => None
                end
            | None => None
            end
          else None
      | EmptyString => None
      end
  end.

Definition parse (s : string) : option json :=
  match value (2 * String.length s + 2) s with
  | Some (v, rest) =>
      match skip_ws rest with
      | EmptyString => Some v
      | String _ _ => None
      end
  | None => None
  end.

Definition show_Z (z : Z) : string :=
  match z with
  | Z0 => "0"
  | Zpos p => show_nat (Pos.to_nat p)
  | Zneg p => "-" +:+ show_nat (Pos.to_nat p)
  end.

Fixpoint escape (s : string) : string :=
  match s with
  | EmptyString => EmptyString
  | String c s' =>
      if Ascii.eqb c quote || Ascii.eqb c backslash
      then String backslash (String c (escape s'))
      else String c (escape s')
  end.

Definition quoted (s : string) : string :=
  String quote (escape s +:+ String quote EmptyString).

Fixpoint stringify (v : json) : string :=
  match v with
  | JNull => "null"
  | JBool true => "true"
  | JBool false => "false"
  | JNum z => show_Z z
  | JStr s => quoted s
  | JArr items => "[" +:+ String.concat "," (map stringify items) +:+ "]"
  | JObj members =>
      "{" +:+
      String.concat ","
        (map (fun kv => quoted (fst kv) +:+ ":" +:+ stringify (snd kv)) members)
      +:+ "}"
  end.

(** What [Array.prototype.join] makes of an element. *)
Fixpoint join_text (v : json) : string :=
  match v with
  | JNull => ""
  | JBool true => "true"
  | JBool false => "false"
  | JNum z => show_Z z
  | JStr s => s
  | JArr items => String.concat "," (map join_text items)
  | JObj _ => "[object Object]"
  end.

(** [c.text] for an object that has the property; a key given twice
    holds its last value. *)
Definition text_of (v : json) : option string :=
  match v with
  | JObj members => option_map join_text (JsMap.get "text" (rev members))
  | _ => None
  end.

Definition host : JsHost :=
  {| JsValue := json;
     JsNumber := Z;
     js_string := JStr;
     js_undefined := JNull;
     JSON_parse := parse;
     JSON_stringify := stringify;
     text_property := text_of;
     randomUUID := fun n => "id-" +:+ show_nat n;
     Date_now := fun n => n |}.

Definition starts_with (p s : string) : bool :=
  match strip_prefix p s with Some _ => true | None => false end.

(** Strings are the values [JStr]; [new URL] takes what starts with
    ["http://"] or ["https://"] as it is and refuses the rest; object and
    array literals are [JObj] and [JArr]. *)
Definition platform : @JsPlatform host :=
  @Build_JsPlatform host
    (fun v => match v with JStr s => Some s | _ => None end)
    (fun s =>
       if starts_with "http://" s || starts_with "https://" s
       then Return s
       else Throw (ErrorObj PlainError "Invalid URL"))
    JObj JArr.

End MiniJson.

(** ** Concrete tools, backends and sessions *)

Module Demo.

#[local] Existing Instance MiniJson.host.

Definition no_usage : Usage := {| inputTokens := 0; outputTokens := 0 |}.

(** A tool that resolves to [r] after [ms] milliseconds. *)
Definition constant_tool (name : string) (ms : nat) (r : ToolResult) : Tool :=
  {| tool_name := name;
     description := "";
     parameters := MiniJson.JObj [];
     tool_execute := fun _ _ => mkAsync ms (Return r) |}.

Definition echo : Tool :=
  constant_tool "echo" 5 {| output := "pong"; metadata := None; error := None |}.

Definition echo' : Tool :=
  constant_tool "echo" 7 {| output := "ping"; metadata := None; error := None |}.

(** A tool whose result has an output and an empty [error] string. *)
Definition blank : Tool :=
  constant_tool "blank" 1
    {| output := "kept?"; metadata := None; error := Some "" |}.

Definition ctx : ExecutionContext :=
  {| sessionId := "s"; messageId := "m"; abortSignal := None |}.

Definition blank_call : ToolCallContent :=
  {| call_id := "c1"; call_name := "blank"; call_arguments := MiniJson.JNull |}.

Definition blank_executor : ToolExecutor :=
  {| registry := register blank new_ToolRegistry; options := default_options |}.

Definition text_response (t : string) : Response :=
  {| resp_output := [item_message [output_text t]];
     resp_status := Some "completed";
     resp_usage := None |}.

Definition call_response (id name args : string) : Response :=
  {| resp_output := [item_function_call (Some args) (Some id) None (Some name)];
     resp_status := Some "completed";
     resp_usage := None |}.

(** A backend that answers the [n]-th request with the [n]-th response of
    [script], and with a plain text once the script is used up; streamed,
    it produces [events] for every request. *)
Definition scripted (script : list Response)
    (events : list ResponseStreamEvent) : LLMClient :=
  {| responses_create := fun n _ => Return (nth n script (text_response "done"));
     responses_stream := fun _ _ => Return (events, None) |}.

Definition agent_of (client : LLMClient) (steps : nat)
    (cb : option (list AgentEvent -> AgentEvent -> Outcome unit)) : Agent :=
  new_Agent client "gpt-5-mini" "" (Some [echo]) (Some steps) None None cb.

Definition fresh : World := world_of (createSession "s" None None None).

(** A session created with a transcript that holds a tool call nobody
    answered. *)
Definition dangling : World :=
  world_of
    (createSession "s" None None
       (Some [{| msg_id := "m0"; role := role_assistant;
                 content := [tool_call_content {| call_id := "z"; call_name := "echo";
                                         call_arguments := MiniJson.JNull |}];
                 createdAt := 0 |}])).

(** One step without tool calls. *)
Definition plain_agent (steps : nat) : Agent :=
  agent_of (scripted [text_response "hello"] []) steps None.

(** Two steps that both call [echo] under the identifier ["a"], then a
    final answer. *)
Definition reuse_agent : Agent :=
  agent_of (scripted [call_response "a" "echo" "{}";
                      call_response "a" "echo" "{}";
                      text_response "done"] []) 5 None.

(** Two steps calling [echo] under ["a"] and then ["b"], then a final
    answer. *)
Definition two_step_agent : Agent :=
  agent_of (scripted [call_response "a" "echo" "{}";
                      call_response "b" "echo" "{}";
                      text_response "done"] []) 5 None.

(** A backend whose every response asks for [echo] again. *)
Definition insistent : LLMClient :=
  {| responses_create := fun n _ =>
       Return (call_response ("call-" +:+ show_nat n) "echo" "{}");
     responses_stream := fun _ _ => Return ([], None) |}.

Definition looping_agent : Agent := agent_of insistent 3 None.

(** A tool whose executor throws. *)
Definition boom : Tool :=
  {| tool_name := "boom";
     description := "";
     parameters := MiniJson.JObj [];
     tool_execute := fun _ _ => mkAsync 2 (Throw (ErrorObj PlainError "boom")) |}.

Definition boom_agent : Agent :=
  new_Agent
    (scripted [call_response "a" "boom" "{}"; text_response "sorry"] [])
    "gpt-5-mini" "" (Some [boom]) (Some 5) None None None.

(** A callback that throws on every event, and one that never does. *)
Definition throwing_callback (_ : list AgentEvent) (_ : AgentEvent)
    : Outcome unit :=
  Throw (ErrorObj PlainError "observer failed").

Definition quiet_callback (_ : list AgentEvent) (_ : AgentEvent)
    : Outcome unit :=
  Return tt.

Definition observed_agent : Agent :=
  agent_of (scripted [text_response "hello"] []) 5 (Some throwing_callback).

Definition logged_agent : Agent :=
  agent_of (scripted [text_response "hello"] []) 5 (Some quiet_callback).

(** A turn streamed as two text chunks and a [finish], and the same turn
    as one response. *)
Definition hello_agent (steps : nat) : Agent :=
  agent_of
    (scripted [text_response "Hello"]
       [output_text_delta "Hel"; output_text_delta "lo";
        response_completed (Some "completed") None])
    steps None.

(** A streamed tool call whose fragments spell ["1"] and whose end event
    carries ["2"]. *)
Definition split_call : list LLMEvent :=
  [tool_call_start "c1" "echo";
   tool_call_delta "c1" "1";
   tool_call_end "c1" "echo" "2";
   finish "tool_calls" no_usage].

Definition remote_tool : MCPToolDefinition :=
  {| mcp_tool_name := "remote"; mcp_description := None;
     inputSchema := MiniJson.JObj [] |}.

(** A client that is not connected, and a connected one whose host
    fails every invocation. *)
Definition offline : MCPClient :=
  {| server_name := "srv"; connected := false;
     sdk_listTools := async_ret [remote_tool];
     sdk_callTool := fun _ _ =>
       async_ret {| mcp_content := content_array [MiniJson.JStr "hi"];
                    mcp_isError := false |} |}.

Definition failing : MCPClient :=
  {| server_name := "srv"; connected := true;
     sdk_listTools := async_ret [remote_tool];
     sdk_callTool := fun _ _ =>
       mkAsync 3 (Throw (ErrorObj PlainError "connection reset")) |}.

#[local] Existing Instance MiniJson.platform.

Definition echo_call : ToolCallContent :=
  {| call_id := "c1"; call_name := "echo"; call_arguments := MiniJson.JNull |}.

(** A call of [echo] and a call of a tool nobody registered. *)
Definition two_calls : list ToolCallContent :=
  [{| call_id := "A"; call_name := "echo"; call_arguments := MiniJson.JNull |};
   {| call_id := "B"; call_name := "nope"; call_arguments := MiniJson.JNull |}].

(** An executor that gives [echo], which takes 5 ms, 3 ms. *)
Definition hasty_executor : ToolExecutor :=
  {| registry := register echo new_ToolRegistry;
     options := {| timeout := Some 3%Z; onBeforeExecute := None;
                   onAfterExecute := None |} |}.

(** An executor with a timeout so large that the timer is armed for one
    millisecond. *)
Definition patient_executor : ToolExecutor :=
  {| registry := register echo new_ToolRegistry;
     options := {| timeout := Some 2147483648%Z; onBeforeExecute := None;
                   onAfterExecute := None |} |}.

(** An executor with a timeout of 50 ms and hooks that resolve after a
    millisecond. *)
Definition careful_executor : ToolExecutor :=
  {| registry := register blank new_ToolRegistry;
     options := {| timeout := Some 50%Z;
                   onBeforeExecute := Some (fun _ _ => mkAsync 1 (Return tt));
                   onAfterExecute := Some (fun _ _ _ => mkAsync 1 (Return tt)) |} |}.

(** An executor whose after-hook fails. *)
Definition audited_executor : ToolExecutor :=
  {| registry := register echo new_ToolRegistry;
     options := {| timeout := None;
                   onBeforeExecute := None;
                   onAfterExecute :=
                     Some (fun _ _ _ =>
                             async_throw (ErrorObj PlainError "audit log is full")) |} |}.

(** A tool that throws [Object.create(null)], whose conversion to a
    string throws a [TypeError], beside one that resolves. *)
Definition bare_object : Raw.Raised :=
  Raw.unreadable
    (Raw.readable
       (ErrorObj PlainError "Cannot convert object to primitive value")).

Definition bare_thrower : Raw.Tool :=
  {| Raw.tool_name := "bare";
     Raw.description := "";
     Raw.parameters := MiniJson.JObj [];
     Raw.tool_execute := fun _ _ => Raw.mkPromise 2 (Raw.rejected bare_object) |}.

Definition bare_executor : Raw.ToolExecutor :=
  {| Raw.registry :=
       {| Raw.tools := [("echo", raw_tool echo); ("bare", bare_thrower)] |};
     Raw.options :=
       {| Raw.timeout := None; Raw.onBeforeExecute := None;
          Raw.onAfterExecute := None |} |}.

Definition bare_call : ToolCallContent :=
  {| call_id := "c2"; call_name := "bare"; call_arguments := MiniJson.JNull |}.

(** A backend that streams a sentence and a call of [echo] at every
    step. *)
Definition chatty_agent : Agent :=
  agent_of
    (scripted []
       [output_text_delta "Checking";
        output_item_added
          (item_function_call None (Some "c1") (Some "i1") (Some "echo"));
        function_call_arguments_delta "i1" "{}";
        output_item_done
          (item_function_call (Some "{}") (Some "c1") (Some "i1") (Some "echo"));
        response_completed (Some "completed") None])
    2 None.

(** A callback that throws when the assistant message starts. *)
Definition startled_callback (_ : list AgentEvent) (event : AgentEvent)
    : Outcome unit :=
  match event with
  | ev_message_start _ => Throw (ErrorObj PlainError "observer failed")
  | _ => Return tt
  end.

Definition startled_agent : Agent :=
  agent_of
    (scripted [text_response "Hello"]
       [output_text_delta "Hel"; output_text_delta "lo";
        response_completed (Some "completed") None])
    2 (Some startled_callback).

(** A backend whose every request fails, and one whose stream breaks
    after a first chunk. *)
Definition broken : LLMClient :=
  {| responses_create := fun _ _ => Throw (ErrorObj PlainError "socket hang up");
     responses_stream := fun _ _ => Throw (NonError "socket hang up") |}.

Definition stalling : LLMClient :=
  {| responses_create := fun _ _ => Throw (ErrorObj PlainError "socket hang up");
     responses_stream := fun _ _ =>
       Return ([output_text_delta "Hel"],
               Some (ErrorObj PlainError "stream closed")) |}.

Definition broken_agent : Agent := agent_of broken 3 None.

Definition stalling_agent : Agent := agent_of stalling 3 None.

(** An agent without a budget whose callback throws. *)
Definition idle_agent : Agent :=
  agent_of (scripted [] []) 0 (Some throwing_callback).

(** A server started by a command, and the SDK client that reaches it. *)
Definition files_config : MCPServerConfig :=
  {| srv_name := "files"; srv_transport := "stdio";
     srv_command := Some "npx"; srv_args := Some ["-y"; "server-filesystem"];
     srv_url := None; srv_env := None |}.

Definition files_sdk : SdkClient :=
  {| client_connect := fun _ => mkAsync 20 (Return tt);
     client_close := mkAsync 1 (Return tt);
     client_listTools := mkAsync 2 (Return [remote_tool]);
     client_callTool := fun _ _ =>
       mkAsync 3 (Return {| mcp_content := content_array [MiniJson.JStr "hi"];
                            mcp_isError := false |}) |}.

(** A manager with that one server, and the tool it was given. *)
Definition one_server : McpHeap :=
  (addServer files_config files_sdk createMCPManager).2.

Definition files_tool : AdaptedTool :=
  {| tool_client := 0; tool_def := remote_tool |}.


(** [z.string()], [z.number()], [schema.optional()] and [z.object(shape)],
    told apart by the tag of the value. *)
Definition z_string : ZodType :=
  zod (Some (Some "ZodString", None)) None (Some false)
    (fun v => match v with
              | MiniJson.JStr _ => Return v
              | _ => Throw (ErrorObj PlainError "Expected string")
              end).

Definition z_number : ZodType :=
  zod (Some (Some "ZodNumber", None)) None (Some false)
    (fun v => match v with
              | MiniJson.JNum _ => Return v
              | _ => Throw (ErrorObj PlainError "Expected number")
              end).

Definition z_optional (inner : ZodType) : ZodType :=
  zod (Some (Some "ZodOptional", None)) None (Some true)
    (fun v => match v with
              | MiniJson.JNull => Return v
              | _ => zod_parse inner v
              end).

Definition z_object (entries : list (string * ZodType)) : ZodType :=
  zod (Some (Some "ZodObject", None)) (Some entries) (Some false)
    (fun v => match v with
              | MiniJson.JObj _ => Return v
              | _ => Throw (ErrorObj PlainError "Expected object")
              end).

(** A tool that takes a path and an optional limit. *)
Definition read_tool : ZodTool :=
  {| zt_name := "read";
     zt_description := "Reads a file";
     zt_schema := z_object [("path", z_string); ("limit", z_optional z_number)];
     zt_execute := fun _ _ =>
       async_ret {| output := "contents"; metadata := None; error := None |} |}.
End Demo.

(* ================================================================= *)
(** * Part II: lemmas *)
(* ================================================================= *)

Example show_nat_samples :
  show_nat 0 = "0" /\ show_nat 7 = "7" /\ show_nat 100 = "100"
  /\ show_nat 2048 = "2048".
Proof. repeat split. Qed.

Example show_Z_samples :
  show_Z 0 = "0" /\ show_Z 50 = "50" /\ show_Z (-5) = "-5"
  /\ show_Z 1000 = "1000" /\ show_Z 2147483648 = "2147483648".
Proof. repeat split. Qed.

Example MiniJson_parse_samples :
  MiniJson.parse "[1, -2, true, {}, null]"
  = Some (MiniJson.JArr [MiniJson.JNum 1; MiniJson.JNum (-2);
                         MiniJson.JBool true; MiniJson.JObj []; MiniJson.JNull])
  /\ MiniJson.parse (MiniJson.stringify
        (MiniJson.JObj [("a", MiniJson.JStr "b c"); ("n", MiniJson.JNum 42)]))
     = Some (MiniJson.JObj [("a", MiniJson.JStr "b c"); ("n", MiniJson.JNum 42)])
  /\ MiniJson.parse "1" = Some (MiniJson.JNum 1)
  /\ MiniJson.parse "x" = None
  /\ MiniJson.parse "1.5" = None
  /\ MiniJson.parse "[1,]" = None
  /\ MiniJson.parse "01" = None.
Proof. vm_compute. repeat split. Qed.

(** ** [Map<string, V>] *)

Section JsMapLemmas.
Context {V : Type}.
Implicit Types (m : list (string * V)) (k : string) (v : V).

Lemma JsMap_get_set_eq m k v : JsMap.get k (JsMap.set k v m) = Some v.
Proof.
  induction m as [|[k' v'] m IH]; simpl.
  - by rewrite String.eqb_refl.
  - destruct (String.eqb k' k) eqn:E; simpl.
    + by rewrite String.eqb_refl.
    + by rewrite E.
Qed.

Lemma JsMap_get_set_ne m k k' v :
  k <> k' -> JsMap.get k' (JsMap.set k v m) = JsMap.get k' m.
Proof.
  intros Hne. induction m as [|[k0 v0] m IH]; simpl.
  - destruct (String.eqb k k') eqn:E; [|done].
    apply String.eqb_eq in E. contradiction.
  - destruct (String.eqb k0 k) eqn:E; simpl.
    + apply String.eqb_eq in E. subst k0.
      destruct (String.eqb k k') eqn:E'; [|done].
      apply String.eqb_eq in E'. contradiction.
    + by rewrite IH.
Qed.

(** Setting a key that is present replaces its value where it stands. *)
Lemma JsMap_size_set_present m k v v' :
  JsMap.get k m = Some v' -> JsMap.size (JsMap.set k v m) = JsMap.size m.
Proof.
  unfold JsMap.size. induction m as [|[k0 v0] m IH]; simpl; [done|].
  destruct (String.eqb k0 k); simpl; [done|]. intros Hg. by rewrite IH.
Qed.

Lemma JsMap_size_set_absent m k v :
  JsMap.get k m = None -> JsMap.size (JsMap.set k v m) = S (JsMap.size m).
Proof.
  unfold JsMap.size. induction m as [|[k0 v0] m IH]; simpl; [done|].
  destruct (String.eqb k0 k); simpl; [done|]. intros Hg. by rewrite IH.
Qed.

Lemma JsMap_remove_absent m k : JsMap.get k m = None -> JsMap.remove k m = m.
Proof.
  induction m as [|[k0 v0] m IH]; simpl; [done|].
  destruct (String.eqb k0 k); [done|]. intros Hg. by rewrite IH.
Qed.

Lemma JsMap_keys_set_present m k v v' :
  JsMap.get k m = Some v' -> JsMap.keys (JsMap.set k v m) = JsMap.keys m.
Proof.
  unfold JsMap.keys. induction m as [|[k0 v0] m IH]; simpl; [done|].
  destruct (String.eqb k0 k) eqn:E; simpl.
  - apply String.eqb_eq in E. by subst.
  - intros Hg. by rewrite IH.
Qed.

Lemma JsMap_keys_set_absent m k v :
  JsMap.get k m = None -> JsMap.keys (JsMap.set k v m) = JsMap.keys m ++ [k].
Proof.
  unfold JsMap.keys. induction m as [|[k0 v0] m IH]; simpl; [done|].
  destruct (String.eqb k0 k) eqn:E; simpl; [done|].
  intros Hg. by rewrite IH.
Qed.

Lemma JsMap_get_None_keys m k : JsMap.get k m = None <-> k ∉ JsMap.keys m.
Proof.
  unfold JsMap.keys. induction m as [|[k0 v0] m IH]; simpl.
  - split; [intros _; apply not_elem_of_nil | done].
  - destruct (String.eqb k0 k) eqn:E.
    + apply String.eqb_eq in E. subst. split; [done|].
      intros Hn. exfalso. apply Hn. left.
    + apply String.eqb_neq in E. rewrite IH. rewrite not_elem_of_cons.
      split; [intros ?; split; [congruence|done] | intros [_ ?]; done].
Qed.

End JsMapLemmas.

(** ** The registry *)

Section RegistryLemmas.
Context `{JsHost}.
Implicit Types (r : ToolRegistry) (t : Tool).

Lemma get_register_eq r t : get (tool_name t) (register t r) = Some t.
Proof. apply JsMap_get_set_eq. Qed.

Lemma get_register_ne r t name :
  tool_name t <> name -> get name (register t r) = get name r.
Proof. apply JsMap_get_set_ne. Qed.

(** The names of a registry stay pairwise distinct under [register]. *)
Lemma register_NoDup r t : NoDup (names r) -> NoDup (names (register t r)).
Proof.
  unfold names, register; simpl. intros Hnd.
  destruct (JsMap.get (tool_name t) (tools r)) as [t'|] eqn:E.
  - by rewrite (JsMap_keys_set_present _ _ _ _ E).
  - rewrite (JsMap_keys_set_absent _ _ _ E).
    apply NoDup_app. split; [done|]. split; [|apply NoDup_singleton].
    intros x Hx Hx'. apply list_elem_of_singleton in Hx'. subst x.
    by apply JsMap_get_None_keys in E.
Qed.

Lemma size_register_present r t t' :
  get (tool_name t) r = Some t' -> size (register t r) = size r.
Proof. apply JsMap_size_set_present. Qed.

Lemma names_register_present r t t' :
  get (tool_name t) r = Some t' -> names (register t r) = names r.
Proof. apply JsMap_keys_set_present. Qed.

Lemma unregister_absent r name :
  get name r = None -> unregister name r = (false, r).
Proof.
  destruct r as [m]. unfold unregister, JsMap.delete, JsMap.has, get. simpl.
  intros Hget. rewrite Hget. by rewrite JsMap_remove_absent.
Qed.

(** C7. The registry is last-write-wins and [unregister] is total: after
    [register(t1)] then [register(t2)] of two tools with one name,
    [get(name)] is [t2] and the second registration leaves the size and
    the names as they were (the size is 1 when the registry was empty
    before, and a registry that lists no name twice still lists none
    twice); [unregister] of a name that is not registered returns [false]
    and leaves the registry as it is. *)
Theorem registry_last_write_wins r t1 t2 :
  tool_name t1 = tool_name t2 ->
  get (tool_name t2) (register t2 (register t1 r)) = Some t2
  /\ size (register t2 (register t1 r)) = size (register t1 r)
  /\ size (register t2 (register t1 new_ToolRegistry)) = 1
  /\ names (register t2 (register t1 r)) = names (register t1 r)
  /\ (NoDup (names r) -> NoDup (names (register t2 (register t1 r))))
  /\ (forall name r', get name r' = None -> unregister name r' = (false, r')).
Proof.
  intros Hname.
  assert (Hin : forall r0, get (tool_name t2) (register t1 r0) = Some t1).
  { intros r0. rewrite <- Hname. apply get_register_eq. }
  split; [apply get_register_eq|].
  split; [exact (size_register_present _ _ _ (Hin r))|].
  split.
  { rewrite (size_register_present _ _ _ (Hin new_ToolRegistry)). reflexivity. }
  split; [exact (names_register_present _ _ _ (Hin r))|].
  split.
  { intros Hnd. by apply register_NoDup, register_NoDup. }
  intros name r'. apply unregister_absent.
Qed.

End RegistryLemmas.

(** ** [Promise.all] *)

Section PromiseLemmas.
Context {A : Type}.
Implicit Types (ps : list (Async A)) (vals : list A) (order : list nat).

Lemma omap_id_Some vals : omap id (map Some vals) = vals.
Proof. induction vals as [|v vals IH]; [done|]. cbn. by f_equal. Qed.

(** An array whose every slot is written holds the values in index order. *)
Lemma slots_all_written (values : list (option A)) vals :
  length values = length vals ->
  (forall i v, vals !! i = Some v -> values !! i = Some (Some v)) ->
  values = map Some vals.
Proof.
  intros Hlen Hall. apply list_eq. intros i.
  rewrite list_lookup_fmap.
  destruct (vals !! i) as [v|] eqn:E; simpl.
  - by apply Hall.
  - apply lookup_ge_None. apply lookup_ge_None in E. lia.
Qed.

(** Whatever the order in which the promises fulfil, as long as each one
    does so once, the result is fulfilled by the last of them, with the
    values in the order of the promises. *)
Lemma settle_all_fulfilled ps vals order (values : list (option A)) :
  map settled ps = map Return vals ->
  length values = length ps ->
  NoDup order ->
  order <> [] ->
  (forall i, i ∈ order -> i < length ps) ->
  (forall i v, vals !! i = Some v -> i ∉ order -> values !! i = Some (Some v)) ->
  exists a, settle_all ps order values (length order) = Some a
            /\ settled a = Return vals.
Proof.
  intros Hps. revert values.
  assert (Hlen : length ps = length vals).
  { rewrite <- (length_map settled ps), Hps. apply length_map. }
  induction order as [|i order IH]; intros values Hvl Hnd Hne Hlt Hdone; [done|].
  apply NoDup_cons in Hnd as [Hi Hnd].
  assert (Hi_lt : i < length ps) by (apply Hlt; left).
  destruct (lookup_lt_is_Some_2 ps i Hi_lt) as [p Hp].
  destruct (lookup_lt_is_Some_2 vals i ltac:(lia)) as [v Hv].
  assert (Hsp : settled p = Return v).
  { assert (Hl : map settled ps !! i = Some (settled p))
      by (by rewrite list_lookup_fmap, Hp).
    rewrite Hps, list_lookup_fmap, Hv in Hl. simpl in Hl. congruence. }
  assert (Hdone' : forall j u, vals !! j = Some u -> j ∉ order ->
                     <[i:=Some v]> values !! j = Some (Some u)).
  { intros j u Hu Hj. destruct (decide (i = j)) as [->|Hij].
    - rewrite list_lookup_insert_eq by lia. congruence.
    - rewrite list_lookup_insert_ne by done. apply Hdone; [done|].
      rewrite not_elem_of_cons. split; [congruence|done]. }
  simpl. rewrite Hp, Hsp.
  destruct order as [|i' order'].
  - simpl. eexists. split; [reflexivity|]. simpl. f_equal.
    rewrite (slots_all_written (<[i:=Some v]> values) vals).
    + apply omap_id_Some.
    + rewrite length_insert. lia.
    + intros j u Hu. apply Hdone'; [done|]. apply not_elem_of_nil.
  - change (length (i' :: order')) with (S (length order')).
    replace (S (S (length order')) - 1) with (length (i' :: order'))
      by (simpl; lia).
    apply IH.
    + rewrite length_insert. lia.
    + done.
    + done.
    + intros j Hj. apply Hlt. by right.
    + done.
Qed.

Lemma imap_indices {B} (f : nat -> nat) (g : nat -> B -> nat) (l : list B) :
  map fst (imap (fun i x => (f i, g i x)) l) = map f (seq 0 (length l)).
Proof.
  revert f g. induction l as [|x l IH]; intros f g; simpl; [done|].
  f_equal. unfold compose. rewrite (IH (fun i => f (S i)) (fun i => g (S i))).
  by rewrite <- seq_shift, map_map.
Qed.

Lemma insert_by_elapsed_Permutation x l : insert_by_elapsed x l ≡ₚ x :: l.
Proof.
  induction l as [|y l IH]; simpl; [done|].
  destruct (y.2 <=? x.2)%nat; [|done].
  rewrite IH. apply Permutation_swap.
Qed.

Lemma sort_by_elapsed_Permutation l : sort_by_elapsed l ≡ₚ l.
Proof.
  unfold sort_by_elapsed.
  assert (Hgen : forall acc, fold_left (fun acc x => insert_by_elapsed x acc) l acc
                             ≡ₚ l ++ acc).
  { induction l as [|x l IH]; intros acc; simpl; [done|].
    rewrite IH, insert_by_elapsed_Permutation.
    by rewrite Permutation_middle. }
  by rewrite Hgen, app_nil_r.
Qed.

(** Every promise settles once: the settle order lists each index once. *)
Lemma settle_order_Permutation ps : settle_order ps ≡ₚ seq 0 (length ps).
Proof.
  unfold settle_order. rewrite sort_by_elapsed_Permutation.
  rewrite (imap_indices (fun i => i) (fun _ p => elapsed p)).
  by rewrite map_id.
Qed.

Lemma seq_order_facts order n :
  order ≡ₚ seq 0 n ->
  NoDup order /\ (forall i, i ∈ order <-> i < n).
Proof.
  intros Hp. split.
  - rewrite Hp. apply NoDup_ListNoDup, List.seq_NoDup.
  - intros i. rewrite Hp. rewrite list_elem_of_In, List.in_seq. lia.
Qed.

(** [Promise.all] of promises that all fulfil is fulfilled with their
    values, in the order of the promises, for every settle order. *)
Lemma settle_all_any_order ps vals order :
  map settled ps = map Return vals ->
  ps <> [] ->
  order ≡ₚ seq 0 (length ps) ->
  exists a, settle_all ps order (replicate (length ps) None) (length ps) = Some a
            /\ settled a = Return vals.
Proof.
  intros Hps Hne Hperm.
  destruct (seq_order_facts _ _ Hperm) as [Hnd Hin].
  assert (Hlen : length order = length ps).
  { rewrite Hperm. apply length_seq. }
  cut (exists a, settle_all ps order (replicate (length ps) None) (length order)
                   = Some a /\ settled a = Return vals).
  { by rewrite Hlen. }
  apply settle_all_fulfilled; try done.
  - apply length_replicate.
  - destruct order; [|done]. destruct ps; [done|]. simpl in Hlen. lia.
  - intros i Hi. by apply Hin.
  - intros i v Hv Hi. exfalso. apply Hi. apply Hin.
    apply lookup_lt_Some in Hv.
    rewrite <- (length_map settled ps), Hps, length_map. done.
Qed.

Lemma promise_all_fulfilled ps vals :
  map settled ps = map Return vals ->
  exists a, promise_all ps = Some a /\ settled a = Return vals.
Proof.
  intros Hps. destruct ps as [|p ps'] eqn:E.
  - destruct vals; [|done]. simpl. eexists. split; reflexivity.
  - rewrite <- E in *. unfold promise_all.
    destruct (settle_all_any_order ps vals (settle_order ps) Hps) as (a & Ha & Hs).
    + by rewrite E.
    + apply settle_order_Permutation.
    + exists a. rewrite E in *. split; done.
Qed.

End PromiseLemmas.

(** ** The executor *)

Section ExecutorLemmas.
Context `{JsHost}.
Implicit Types (ex : ToolExecutor) (call : ToolCallContent)
  (ctx : ExecutionContext) (tool : Tool).

Lemma settled_async_bind {A B} (m : Async A) (k : A -> Async B) :
  settled (async_bind m k)
  = match settled m with
    | Return a => settled (k a)
    | Throw e => Throw e
    end.
Proof. unfold async_bind. by destruct (settled m). Qed.

Lemma settled_async_catch {A} (m : Async A) (h : Thrown -> Async A) :
  settled (async_catch m h)
  = match settled m with
    | Return a => Return a
    | Throw e => settled (h e)
    end.
Proof. unfold async_catch. by destruct (settled m) eqn:E. Qed.

(** The outcome of [execute] for a registered tool, stage by stage. *)
Lemma settled_execute_found ex call ctx tool :
  get (call_name call) (registry ex) = Some tool ->
  settled (execute ex call ctx)
  = match settled (run_before ex call ctx) with
    | Throw e => Return (errorResult_of call e)
    | Return _ =>
        match settled (executeWithTimeout ex tool call ctx) with
        | Throw e => Return (errorResult_of call e)
        | Return r =>
            match settled (run_after ex call (toolResult_of call r) ctx) with
            | Throw e => Return (errorResult_of call e)
            | Return _ => Return (toolResult_of call r)
            end
        end
    end.
Proof.
  intros Hget. unfold execute. rewrite Hget.
  rewrite settled_async_catch, settled_async_bind.
  destruct (settled (run_before ex call ctx)); [|done].
  rewrite settled_async_bind.
  destruct (settled (executeWithTimeout ex tool call ctx)) as [r|]; [|done].
  rewrite settled_async_bind.
  by destruct (settled (run_after ex call (toolResult_of call r) ctx)).
Qed.

Lemma settled_execute_absent ex call ctx :
  get (call_name call) (registry ex) = None ->
  settled (execute ex call ctx)
  = Return {| toolCallId := call_id call;
              result := "Tool not found: " +:+ call_name call;
              isError := Some true |}.
Proof. intros Hget. unfold execute. by rewrite Hget. Qed.

(** [execute] always returns a block, and the block answers its call. *)
Lemma execute_returns ex call ctx :
  exists block, settled (execute ex call ctx) = Return block
                /\ toolCallId block = call_id call.
Proof.
  destruct (get (call_name call) (registry ex)) as [tool|] eqn:Hget.
  - rewrite (settled_execute_found _ _ _ _ Hget).
    repeat case_match; eexists; (split; [reflexivity|done]).
  - rewrite (settled_execute_absent _ _ _ Hget). eexists. split; done.
Qed.

(** The results of the calls, each as [execute] returns it. *)
Lemma executions_settle ex calls ctx :
  exists results,
    map settled (map (fun call => execute ex call ctx) calls) = map Return results
    /\ Forall2 (fun call r => settled (execute ex call ctx) = Return r
                              /\ toolCallId r = call_id call) calls results.
Proof.
  induction calls as [|call calls (results & Hm & Hf)].
  - exists []. split; [done|constructor].
  - destruct (execute_returns ex call ctx) as (r & Hr & Hid).
    exists (r :: results). split.
    + simpl. by rewrite Hr, Hm.
    + by constructor.
Qed.

(** [executeAll] is fulfilled with the results of its calls, in the order
    of the calls. *)
Lemma executeAll_fulfilled ex calls ctx :
  exists a results,
    executeAll ex calls ctx = Some a
    /\ settled a = Return results
    /\ Forall2 (fun call r => settled (execute ex call ctx) = Return r
                              /\ toolCallId r = call_id call) calls results.
Proof.
  destruct (executions_settle ex calls ctx) as (results & Hm & Hf).
  destruct (promise_all_fulfilled _ _ Hm) as (a & Ha & Hs).
  by exists a, results.
Qed.

Lemma Forall2_call_ids (calls : list ToolCallContent)
    (results : list ToolResultContent) (P : ToolCallContent -> ToolResultContent -> Prop) :
  Forall2 (fun call r => P call r /\ toolCallId r = call_id call) calls results ->
  map toolCallId results = map call_id calls.
Proof. induction 1 as [|call r calls results [_ Hid] _ IH]; simpl; congruence. Qed.

Lemma timer_delay_pos t : 1 <= timer_delay t.
Proof.
  unfold timer_delay. destruct ((t <? 1) || (2147483647 <? t))%Z eqn:E; [done|].
  apply orb_false_iff in E as [E _]. apply Z.ltb_ge in E. lia.
Qed.

(** Without a timeout, or with a tool that settles before the timer
    fires, [executeWithTimeout] is the tool's own promise. *)
Lemma executeWithTimeout_in_time ex tool call ctx :
  (forall t, timeout (options ex) = Some t -> t <> 0%Z ->
     elapsed (tool_execute tool (call_arguments call) ctx) < timer_delay t) ->
  executeWithTimeout ex tool call ctx
  = tool_execute tool (call_arguments call) ctx.
Proof.
  intros Htime. unfold executeWithTimeout.
  destruct (timeout (options ex)) as [t|]; [|done].
  destruct (Z.eq_dec t 0%Z) as [->|Hne]; [done|].
  specialize (Htime t eq_refl Hne).
  assert (Hrace : race_timer (tool_execute tool (call_arguments call) ctx)
                    (timeoutPromise t)
                  = tool_execute tool (call_arguments call) ctx).
  { unfold race_timer. simpl.
    destruct (timer_delay t <=? _)%nat eqn:E; [|done].
    apply Nat.leb_le in E. lia. }
  destruct t; done.
Qed.

(** With a timer that fires no later than the tool settles,
    [executeWithTimeout] is the timer's promise. *)
Lemma executeWithTimeout_late ex tool call ctx t :
  timeout (options ex) = Some t -> t <> 0%Z ->
  timer_delay t <= elapsed (tool_execute tool (call_arguments call) ctx) ->
  executeWithTimeout ex tool call ctx = timeoutPromise t.
Proof.
  intros Ht Hne Hlate. unfold executeWithTimeout. rewrite Ht.
  assert (Hrace : race_timer (tool_execute tool (call_arguments call) ctx)
                    (timeoutPromise t)
                  = timeoutPromise t).
  { unfold race_timer. simpl.
    destruct (timer_delay t <=? _)%nat eqn:E; [done|].
    apply Nat.leb_gt in E. lia. }
  destruct t; done.
Qed.

Lemma run_before_returns ex call ctx :
  (forall hook, onBeforeExecute (options ex) = Some hook ->
     settled (hook call ctx) = Return tt) ->
  settled (run_before ex call ctx) = Return tt.
Proof.
  intros Hb. unfold run_before.
  destruct (onBeforeExecute (options ex)) as [hook|]; [by apply Hb|done].
Qed.

(** C10, as amended.  For a tool found in the registry whose executor
    resolves to a [ToolResult], before the timer fires when a timeout is
    set, and with hooks, when configured, that resolve, the block
    [execute] returns has [result] equal to the [error] field when that
    is defined and to [output] otherwise, and [isError] is true exactly
    when [error] is a non-empty string; a defined but empty [error]
    yields [result = ""] with [isError = false], whatever [output]
    is. *)
Theorem execute_result_of_ToolResult ex call ctx tool r :
  get (call_name call) (registry ex) = Some tool ->
  settled (tool_execute tool (call_arguments call) ctx) = Return r ->
  (forall hook, onBeforeExecute (options ex) = Some hook ->
     settled (hook call ctx) = Return tt) ->
  (forall t, timeout (options ex) = Some t -> t <> 0%Z ->
     elapsed (tool_execute tool (call_arguments call) ctx) < timer_delay t) ->
  (forall hook, onAfterExecute (options ex) = Some hook ->
     settled
       (hook call
          {| toolCallId := call_id call;
             result := match error r with Some e => e | None => output r end;
             isError := Some (match error r with
                              | Some e => negb (String.eqb e "")
                              | None => false
                              end) |}
          ctx)
     = Return tt) ->
  exists block,
    settled (execute ex call ctx) = Return block
    /\ toolCallId block = call_id call
    /\ result block = match error r with Some e => e | None => output r end
    /\ (isError block = Some true <-> exists e, error r = Some e /\ e <> "")
    /\ (isError block = Some true \/ isError block = Some false)
    /\ (error r = Some "" -> result block = "" /\ isError block = Some false).
Proof.
  intros Hget Hr Hb Htime Ha. exists (toolResult_of call r).
  rewrite (settled_execute_found _ _ _ _ Hget).
  rewrite (run_before_returns _ _ _ Hb).
  rewrite (executeWithTimeout_in_time _ _ _ _ Htime), Hr.
  assert (Hafter : settled (run_after ex call (toolResult_of call r) ctx)
                   = Return tt).
  { unfold run_after.
    destruct (onAfterExecute (options ex)) as [hook|]; [|done].
    apply (Ha hook eq_refl). }
  rewrite Hafter.
  unfold toolResult_of, nullish, truthy; simpl.
  split; [done|]. split; [done|]. split; [done|].
  destruct (error r) as [e|]; simpl.
  - split; [|split].
    + split.
      * intros [= He]. exists e. split; [done|]. intros ->. done.
      * intros (e' & [= <-] & Hne). f_equal. apply negb_true_iff.
        by apply String.eqb_neq.
    + destruct (String.eqb e ""); auto.
    + by intros [= ->].
  - split; [|split]; [|by right|done].
    split; [done|]. by intros (e & ? & _).
Qed.


End ExecutorLemmas.

(** ** The executor, with thrown values as they are *)

Section RawPromiseLemmas.
Context {A : Type}.
Implicit Types (ps : list (Raw.Promise A)).

(** The first promise to reject, in the order in which the promises
    settle, rejects the result of [Promise.all]. *)
Lemma raw_settle_all_rejects ps order values remaining :
  (exists i p r, i ∈ order /\ ps !! i = Some p
                 /\ Raw.outcome p = Raw.rejected r) ->
  length order <= remaining ->
  exists q r, Raw.settle_all ps order values remaining = Some q
              /\ Raw.outcome q = Raw.rejected r.
Proof.
  revert values remaining.
  induction order as [|i order IH]; intros values remaining Hbad Hlen.
  - destruct Hbad as (i & p & r & Hin & _). by apply elem_of_nil in Hin.
  - simpl. destruct (ps !! i) as [p|] eqn:Hp.
    + destruct (Raw.outcome p) as [v|r] eqn:Ho.
      * assert (Hrest : exists j q r, j ∈ order /\ ps !! j = Some q
                                      /\ Raw.outcome q = Raw.rejected r).
        { destruct Hbad as (j & q & r & Hin & Hq & Hr).
          apply elem_of_cons in Hin as [-> | Hin]; [congruence|].
          by exists j, q, r. }
        simpl in Hlen. destruct remaining as [|[|n]]; [lia| |].
        -- destruct order; [|simpl in Hlen; lia].
           destruct Hrest as (j & _ & _ & Hin & _). by apply elem_of_nil in Hin.
        -- apply IH; [done|simpl; lia].
      * eexists _, r. split; [reflexivity|done].
    + apply IH; [|simpl in Hlen; lia].
      destruct Hbad as (j & q & r & Hin & Hq & Hr).
      apply elem_of_cons in Hin as [-> | Hin]; [congruence|].
      by exists j, q, r.
Qed.

Lemma raw_settle_order_Permutation ps :
  Raw.settle_order ps ≡ₚ seq 0 (length ps).
Proof.
  unfold Raw.settle_order. rewrite sort_by_elapsed_Permutation.
  rewrite (imap_indices (fun i => i) (fun _ p => Raw.took p)).
  by rewrite map_id.
Qed.

Lemma raw_promise_all_rejects ps :
  (exists p r, p ∈ ps /\ Raw.outcome p = Raw.rejected r) ->
  exists q r, Raw.promise_all ps = Some q /\ Raw.outcome q = Raw.rejected r.
Proof.
  intros (p & r & Hin & Hr).
  apply list_elem_of_lookup in Hin as [i Hi].
  destruct ps as [|p0 ps'] eqn:E; [done|]. rewrite <- E in *.
  unfold Raw.promise_all. rewrite E. rewrite <- E.
  pose proof (raw_settle_order_Permutation ps) as Hperm.
  apply raw_settle_all_rejects.
  - exists i, p, r. split; [|done].
    rewrite Hperm. apply list_elem_of_In, List.in_seq.
    apply lookup_lt_Some in Hi. lia.
  - rewrite (Permutation_length Hperm), length_seq. done.
Qed.

End RawPromiseLemmas.

Section RawLemmas.
Context `{JsHost}.
Implicit Types (call : ToolCallContent) (ctx : ExecutionContext).

Lemma raw_outcome_bind {A B} (m : Raw.Promise A) (k : A -> Raw.Promise B) :
  Raw.outcome (Raw.bind m k)
  = match Raw.outcome m with
    | Raw.fulfilled a => Raw.outcome (k a)
    | Raw.rejected r => Raw.rejected r
    end.
Proof. unfold Raw.bind. by destruct (Raw.outcome m). Qed.

Lemma raw_outcome_catch {A} (m : Raw.Promise A) (h : Raw.Raised -> Raw.Promise A) :
  Raw.outcome (Raw.catch m h)
  = match Raw.outcome m with
    | Raw.fulfilled a => Raw.fulfilled a
    | Raw.rejected r => Raw.outcome (h r)
    end.
Proof. unfold Raw.catch. by destruct (Raw.outcome m) eqn:E. Qed.

(** *** The executor above is this one, on values with a message *)

Lemma raw_bind_lift {A B} (m' : Raw.Promise A) (k' : A -> Raw.Promise B)
    (m : Async A) (k : A -> Async B) :
  m' = raw_promise m ->
  (forall a, k' a = raw_promise (k a)) ->
  Raw.bind m' k' = raw_promise (async_bind m k).
Proof.
  intros -> Hk. unfold Raw.bind, async_bind, raw_promise. simpl.
  destruct (settled m) as [a|e]; [|done].
  rewrite Hk. done.
Qed.

Lemma raw_catch_lift {A} (m' : Raw.Promise A) (h' : Raw.Raised -> Raw.Promise A)
    (m : Async A) (h : Thrown -> Async A) :
  m' = raw_promise m ->
  (forall e, h' (Raw.readable e) = raw_promise (h e)) ->
  Raw.catch m' h' = raw_promise (async_catch m h).
Proof.
  intros -> Hh. unfold Raw.catch, async_catch, raw_promise. simpl.
  destruct (settled m) as [a|e] eqn:E; simpl.
  - by rewrite E.
  - rewrite Hh. done.
Qed.

Lemma raw_race_lift (p : Async ToolResult) t :
  Raw.race_timer (raw_promise p) (Raw.timeoutPromise t)
  = raw_promise (race_timer p (timeoutPromise t)).
Proof.
  unfold Raw.race_timer, race_timer. simpl.
  by destruct (timer_delay t <=? elapsed p)%nat.
Qed.

Lemma JsMap_get_map {V W} (f : V -> W) k (m : list (string * V)) :
  JsMap.get k (map (fun kv => (kv.1, f kv.2)) m) = option_map f (JsMap.get k m).
Proof.
  induction m as [|[k' v] m IH]; simpl; [done|].
  by destruct (String.eqb k' k).
Qed.

(** On tools and hooks that throw values with a message, [Raw.execute]
    is [execute]. *)
Lemma raw_execute_lift (ex : ToolExecutor) call ctx :
  Raw.execute (raw_executor ex) call ctx = raw_promise (execute ex call ctx).
Proof.
  unfold Raw.execute, execute, Raw.get, get. simpl.
  rewrite JsMap_get_map.
  destruct (JsMap.get (call_name call) (tools (registry ex))) as [tool|];
    [|done].
  simpl. apply raw_catch_lift; [|done].
  apply raw_bind_lift.
  { unfold run_before. by destruct (onBeforeExecute (options ex)). }
  intros _. apply raw_bind_lift.
  { unfold executeWithTimeout.
    destruct (timeout (options ex)) as [[|t|t]|]; try done;
      apply raw_race_lift. }
  intros r. apply raw_bind_lift; [|done].
  unfold run_after, toolResult_of.
  by destruct (onAfterExecute (options ex)).
Qed.

(** [Promise.all] on such promises. *)
Lemma raw_settle_all_lift {A} (ps : list (Async A)) order values remaining :
  Raw.settle_all (map raw_promise ps) order values remaining
  = option_map raw_promise (settle_all ps order values remaining).
Proof.
  revert values remaining.
  induction order as [|i order IH]; intros values remaining; simpl; [done|].
  rewrite list_lookup_fmap.
  destruct (ps !! i) as [p|]; simpl; [|apply IH].
  destruct (settled p) as [v|e]; [|done].
  destruct remaining as [|[|n]]; [apply IH|done|apply IH].
Qed.

Lemma raw_promise_all_lift {A} (ps : list (Async A)) :
  Raw.promise_all (map raw_promise ps) = option_map raw_promise (promise_all ps).
Proof.
  destruct ps as [|p ps']; [done|].
  unfold Raw.promise_all, promise_all.
  change (map raw_promise (p :: ps')) with (raw_promise p :: map raw_promise ps') at 1.
  cbv iota. rewrite raw_settle_all_lift. rewrite length_map.
  f_equal. f_equal. unfold Raw.settle_order, settle_order.
  by rewrite imap_fmap.
Qed.

Lemma raw_executeAll_lift (ex : ToolExecutor) calls ctx :
  Raw.executeAll (raw_executor ex) calls ctx
  = option_map raw_promise (executeAll ex calls ctx).
Proof.
  unfold Raw.executeAll, executeAll. rewrite <- raw_promise_all_lift.
  f_equal. rewrite map_map. apply map_ext. intros call.
  apply raw_execute_lift.
Qed.

(** [Promise.all] of promises that all fulfil. *)
Lemma raw_promise_all_fulfilled {A} (ps : list (Raw.Promise A)) vals :
  map Raw.outcome ps = map Raw.fulfilled vals ->
  exists q, Raw.promise_all ps = Some q /\ Raw.outcome q = Raw.fulfilled vals.
Proof.
  intros Hps.
  assert (Hlift :
    ps = map raw_promise
           (map (fun pv => mkAsync (Raw.took pv.1) (Return pv.2)) (zip ps vals))).
  { revert vals Hps. induction ps as [|p ps IH]; intros [|v vals]; simpl;
      try done.
    intros [= Hp Hrest]. rewrite <- (IH _ Hrest).
    unfold raw_promise. simpl. rewrite <- Hp. by destruct p. }
  destruct (promise_all_fulfilled
              (map (fun pv => mkAsync (Raw.took pv.1) (Return pv.2)) (zip ps vals))
              vals) as (a & Ha & Hs).
  { rewrite map_map. simpl. clear Hlift.
    revert vals Hps.
    induction ps as [|p ps IH]; intros [|v vals]; simpl; try done.
    intros [= _ Hrest]. f_equal. by apply IH. }
  rewrite Hlift, raw_promise_all_lift, Ha. simpl.
  eexists. split; [reflexivity|]. simpl. by rewrite Hs.
Qed.

(** *** What [execute] does with what is thrown *)

(** The outcome of [Raw.execute] for a registered tool, stage by
    stage. *)
Lemma raw_outcome_execute_found (ex : Raw.ToolExecutor) call ctx tool :
  Raw.get (call_name call) (Raw.registry ex) = Some tool ->
  let handled r :=
    match r with
    | Raw.readable e =>
        Raw.fulfilled {| toolCallId := call_id call;
                         result := error_message e;
                         isError := Some true |}
    | Raw.unreadable failure => Raw.rejected failure
    end in
  let before :=
    match Raw.onBeforeExecute (Raw.options ex) with
    | Some hook => hook call ctx
    | None => Raw.resolve tt
    end in
  let timed :=
    match Raw.timeout (Raw.options ex) with
    | None | Some 0%Z => Raw.tool_execute tool (call_arguments call) ctx
    | Some t =>
        Raw.race_timer (Raw.tool_execute tool (call_arguments call) ctx)
          (Raw.timeoutPromise t)
    end in
  let block res :=
    {| toolCallId := call_id call;
       result := nullish (error res) (output res);
       isError := Some (truthy (error res)) |} in
  let after res :=
    match Raw.onAfterExecute (Raw.options ex) with
    | Some hook => hook call (block res) ctx
    | None => Raw.resolve tt
    end in
  Raw.outcome (Raw.execute ex call ctx)
  = match Raw.outcome before with
    | Raw.rejected r => handled r
    | Raw.fulfilled _ =>
        match Raw.outcome timed with
        | Raw.rejected r => handled r
        | Raw.fulfilled res =>
            match Raw.outcome (after res) with
            | Raw.rejected r => handled r
            | Raw.fulfilled _ => Raw.fulfilled (block res)
            end
        end
    end.
Proof.
  intros Hget. cbv zeta. unfold Raw.execute. rewrite Hget.
  rewrite raw_outcome_catch, raw_outcome_bind.
  destruct (Raw.outcome match Raw.onBeforeExecute (Raw.options ex) with
                        | Some hook => hook call ctx
                        | None => Raw.resolve tt
                        end) as [u|r]; [|by destruct r].
  rewrite raw_outcome_bind.
  destruct (Raw.outcome _) as [res|r]; [|by destruct r].
  rewrite raw_outcome_bind.
  destruct (Raw.outcome _) as [u'|r]; [done|by destruct r].
Qed.

Lemma raw_timed_in_time (ex : Raw.ToolExecutor) call ctx tool :
  (forall t, Raw.timeout (Raw.options ex) = Some t -> t <> 0%Z ->
     Raw.took (Raw.tool_execute tool (call_arguments call) ctx) < timer_delay t) ->
  match Raw.timeout (Raw.options ex) with
  | None | Some 0%Z => Raw.tool_execute tool (call_arguments call) ctx
  | Some t =>
      Raw.race_timer (Raw.tool_execute tool (call_arguments call) ctx)
        (Raw.timeoutPromise t)
  end = Raw.tool_execute tool (call_arguments call) ctx.
Proof.
  intros Htime. destruct (Raw.timeout (Raw.options ex)) as [t|]; [|done].
  destruct (Z.eq_dec t 0%Z) as [->|Hne]; [done|].
  specialize (Htime t eq_refl Hne).
  assert (Hrace :
    Raw.race_timer (Raw.tool_execute tool (call_arguments call) ctx)
      (Raw.timeoutPromise t)
    = Raw.tool_execute tool (call_arguments call) ctx).
  { unfold Raw.race_timer. simpl.
    destruct (timer_delay t <=? _)%nat eqn:E; [|done].
    apply Nat.leb_le in E. lia. }
  destruct t; done.
Qed.

Lemma raw_timed_late (ex : Raw.ToolExecutor) call ctx tool t :
  Raw.timeout (Raw.options ex) = Some t -> t <> 0%Z ->
  timer_delay t <= Raw.took (Raw.tool_execute tool (call_arguments call) ctx) ->
  match Raw.timeout (Raw.options ex) with
  | None | Some 0%Z => Raw.tool_execute tool (call_arguments call) ctx
  | Some t =>
      Raw.race_timer (Raw.tool_execute tool (call_arguments call) ctx)
        (Raw.timeoutPromise t)
  end = Raw.timeoutPromise t.
Proof.
  intros Ht Hne Hlate. rewrite Ht.
  assert (Hrace :
    Raw.race_timer (Raw.tool_execute tool (call_arguments call) ctx)
      (Raw.timeoutPromise t)
    = Raw.timeoutPromise t).
  { unfold Raw.race_timer. simpl.
    destruct (timer_delay t <=? _)%nat eqn:E; [done|].
    apply Nat.leb_gt in E. lia. }
  destruct t; done.
Qed.

Lemma raw_before_fulfilled (ex : Raw.ToolExecutor) call ctx :
  (forall hook, Raw.onBeforeExecute (Raw.options ex) = Some hook ->
     Raw.outcome (hook call ctx) = Raw.fulfilled tt) ->
  Raw.outcome match Raw.onBeforeExecute (Raw.options ex) with
              | Some hook => hook call ctx
              | None => Raw.resolve tt
              end = Raw.fulfilled tt.
Proof.
  intros Hb. destruct (Raw.onBeforeExecute (Raw.options ex)) as [hook|];
    [by apply Hb|done].
Qed.

(** C2.  What [execute] makes of a name that is not registered and of
    what a hook or the tool throws.  A missing tool yields an error block
    naming it.  A value thrown by the before-hook, by the tool (settling
    before the timer, when a timeout is set) or by the after-hook yields
    an error block with its message when the message can be read; when
    reading the message throws, [execute] rejects with what that throws.
    A timer that fires first yields an error block.  [execute] rejects in
    no other case, and [executeAll] is fulfilled, with one block per call
    in the order of the calls, when every [execute] is, and rejected as
    soon as one is. *)
Theorem execute_rejects_unreadable (ex : Raw.ToolExecutor) call ctx :
  (Raw.get (call_name call) (Raw.registry ex) = None ->
   Raw.outcome (Raw.execute ex call ctx)
   = Raw.fulfilled {| toolCallId := call_id call;
                      result := "Tool not found: " +:+ call_name call;
                      isError := Some true |})
  /\ (forall tool r,
        Raw.get (call_name call) (Raw.registry ex) = Some tool ->
        (exists hook,
           Raw.onBeforeExecute (Raw.options ex) = Some hook
           /\ Raw.outcome (hook call ctx) = Raw.rejected r)
        \/ ((forall hook,
               Raw.onBeforeExecute (Raw.options ex) = Some hook ->
               Raw.outcome (hook call ctx) = Raw.fulfilled tt)
            /\ (forall t,
                  Raw.timeout (Raw.options ex) = Some t -> t <> 0%Z ->
                  Raw.took (Raw.tool_execute tool (call_arguments call) ctx)
                  < timer_delay t)
            /\ (Raw.outcome (Raw.tool_execute tool (call_arguments call) ctx)
                = Raw.rejected r
                \/ exists res hook,
                     Raw.outcome (Raw.tool_execute tool (call_arguments call) ctx)
                     = Raw.fulfilled res
                     /\ Raw.onAfterExecute (Raw.options ex) = Some hook
                     /\ Raw.outcome
                          (hook call
                             {| toolCallId := call_id call;
                                result := match error res with
                                          | Some e => e
                                          | None => output res
                                          end;
                                isError := Some (match error res with
                                                 | Some e => negb (String.eqb e "")
                                                 | None => false
                                                 end) |}
                             ctx)
                        = Raw.rejected r)) ->
        Raw.outcome (Raw.execute ex call ctx)
        = match r with
          | Raw.readable e =>
              Raw.fulfilled {| toolCallId := call_id call;
                               result := error_message e;
                               isError := Some true |}
          | Raw.unreadable failure => Raw.rejected failure
          end)
  /\ (forall tool t,
        Raw.get (call_name call) (Raw.registry ex) = Some tool ->
        (forall hook,
           Raw.onBeforeExecute (Raw.options ex) = Some hook ->
           Raw.outcome (hook call ctx) = Raw.fulfilled tt) ->
        Raw.timeout (Raw.options ex) = Some t -> t <> 0%Z ->
        timer_delay t
        <= Raw.took (Raw.tool_execute tool (call_arguments call) ctx) ->
        Raw.outcome (Raw.execute ex call ctx)
        = Raw.fulfilled {| toolCallId := call_id call;
                           result := "Tool execution timed out after "
                                     +:+ show_Z t +:+ "ms";
                           isError := Some true |})
  /\ (forall failure,
        Raw.outcome (Raw.execute ex call ctx) = Raw.rejected failure ->
        exists tool,
          Raw.get (call_name call) (Raw.registry ex) = Some tool
          /\ ((exists hook,
                 Raw.onBeforeExecute (Raw.options ex) = Some hook
                 /\ Raw.outcome (hook call ctx)
                    = Raw.rejected (Raw.unreadable failure))
              \/ Raw.outcome (Raw.tool_execute tool (call_arguments call) ctx)
                 = Raw.rejected (Raw.unreadable failure)
              \/ (exists hook block,
                    Raw.onAfterExecute (Raw.options ex) = Some hook
                    /\ Raw.outcome (hook call block ctx)
                       = Raw.rejected (Raw.unreadable failure))))
  /\ (forall calls,
        (Forall (fun c => exists block,
                   Raw.outcome (Raw.execute ex c ctx) = Raw.fulfilled block)
                calls ->
         exists q results,
           Raw.executeAll ex calls ctx = Some q
           /\ Raw.outcome q = Raw.fulfilled results
           /\ Forall2 (fun c block =>
                         Raw.outcome (Raw.execute ex c ctx) = Raw.fulfilled block)
                      calls results)
        /\ (Exists (fun c => exists failure,
                      Raw.outcome (Raw.execute ex c ctx) = Raw.rejected failure)
                   calls ->
            exists q failure,
              Raw.executeAll ex calls ctx = Some q
              /\ Raw.outcome q = Raw.rejected failure)).
Proof.
  split; [|split; [|split; [|split]]].
  - intros Hget. unfold Raw.execute. by rewrite Hget.
  - intros tool r Hget Hcases.
    rewrite (raw_outcome_execute_found ex call ctx tool Hget). cbv zeta.
    destruct Hcases as [(hook & Hhook & Hr) | (Hb & Htime & Hcases)].
    + by rewrite Hhook, Hr.
    + rewrite (raw_before_fulfilled ex call ctx Hb).
      rewrite (raw_timed_in_time ex call ctx tool Htime).
      destruct Hcases as [Hr | (res & hook & Hres & Hhook & Hr)].
      * by rewrite Hr.
      * rewrite Hres, Hhook. unfold nullish, truthy. by rewrite Hr.
  - intros tool t Hget Hb Ht Hne Hlate.
    rewrite (raw_outcome_execute_found ex call ctx tool Hget). cbv zeta.
    rewrite (raw_before_fulfilled ex call ctx Hb).
    by rewrite (raw_timed_late ex call ctx tool t Ht Hne Hlate).
  - intros failure Hrej.
    destruct (Raw.get (call_name call) (Raw.registry ex)) as [tool|] eqn:Hget;
      [|unfold Raw.execute in Hrej; by rewrite Hget in Hrej].
    exists tool. split; [done|].
    rewrite (raw_outcome_execute_found ex call ctx tool Hget) in Hrej.
    cbv zeta in Hrej.
    assert (Hhandled : forall r,
              match r with
              | Raw.readable e =>
                  Raw.fulfilled {| toolCallId := call_id call;
                                   result := error_message e;
                                   isError := Some true |}
              | Raw.unreadable failure' => Raw.rejected failure'
              end = Raw.rejected failure ->
              r = Raw.unreadable failure).
    { intros [e|f]; [done|]. by intros [= ->]. }
    destruct (Raw.outcome match Raw.onBeforeExecute (Raw.options ex) with
                          | Some hook => hook call ctx
                          | None => Raw.resolve tt
                          end) as [u|r] eqn:Hb.
    + destruct (Raw.outcome match Raw.timeout (Raw.options ex) with
                            | Some 0%Z | None =>
                                Raw.tool_execute tool (call_arguments call) ctx
                            | Some t =>
                                Raw.race_timer
                                  (Raw.tool_execute tool (call_arguments call) ctx)
                                  (Raw.timeoutPromise t)
                            end) as [res|r] eqn:Ht.
      * destruct (Raw.onAfterExecute (Raw.options ex)) as [hook|]; [|done].
        destruct (Raw.outcome (hook call _ ctx)) as [u'|r] eqn:Ha; [done|].
        apply Hhandled in Hrej as ->. right. right. by eexists hook, _.
      * apply Hhandled in Hrej as ->. right. left.
        destruct (Raw.timeout (Raw.options ex)) as [[|t|t]|]; try done;
          unfold Raw.race_timer in Ht;
          destruct (Raw.took _ <=? Raw.took _)%nat; done.
    + apply Hhandled in Hrej as ->. left.
      destruct (Raw.onBeforeExecute (Raw.options ex)) as [hook|]; [|done].
      by exists hook.
  - intros calls. split.
    + intros Hall.
      assert (Hvals : exists results,
                Forall2 (fun c block =>
                           Raw.outcome (Raw.execute ex c ctx) = Raw.fulfilled block)
                        calls results).
      { induction Hall as [|c calls (block & Hblock) _ (results & IH)].
        - exists []. constructor.
        - exists (block :: results). by constructor. }
      destruct Hvals as (results & Hvals).
      destruct (raw_promise_all_fulfilled
                  (map (fun c => Raw.execute ex c ctx) calls) results)
        as (q & Hq & Ho).
      { rewrite map_map. clear Hall.
        induction Hvals as [|c block calls results Hc _ IH]; [done|].
        simpl. by rewrite Hc, IH. }
      by exists q, results.
    + intros Hbad. apply Exists_exists in Hbad as (c & Hin & failure & Hc).
      apply raw_promise_all_rejects.
      exists (Raw.execute ex c ctx), failure. split; [|done].
      apply list_elem_of_fmap. by exists c.
Qed.

End RawLemmas.

(** ** The callback and the run *)

Section CallbackLemmas.
Context `{JsHost}.
Local Open Scope agent_scope.
Implicit Types (a : Agent) (w : World).

Lemma agree_refl {A} (r : Completion A * World) : agree r r.
Proof. by split. Qed.

Lemma sim_ret a {A} (x : A) : sim a (ret x) (ret x).
Proof. intros w w0 Hw. left. by split. Qed.

Lemma sim_throw a {A} (e : Thrown) : sim a (throw (A:=A) e) (throw e).
Proof. intros w w0 Hw. left. by split. Qed.

Lemma sim_bind a {A B} (m m0 : M A) (k k0 : A -> M B) :
  sim a m m0 -> (forall x, sim a (k x) (k0 x)) -> sim a (bind m k) (bind m0 k0).
Proof.
  intros Hm Hk w w0 Hw. unfold bind.
  destruct (Hm w w0 Hw) as [[Hc Hf] | [Ht Hcb]].
  - destruct (m w) as [c w1], (m0 w0) as [c0 w01]. simpl in *. subst c0.
    destruct c as [x| |]; [by apply Hk | left; by split | left; by split].
  - right. split; [|done]. destruct (m w) as [[x| |] w1]; simpl in *; done.
Qed.

Lemma sim_blind a {A} (m : M A) : blind m -> sim a m m.
Proof. intros Hm w w0 Hw. left. by apply Hm. Qed.

Ltac blind_prim :=
  intros [s d r dl y] [s0 d0 r0 dl0 y0] Hw;
  unfold forget in Hw; simpl in Hw; injection Hw as -> -> -> ->;
  split; reflexivity.

Lemma blind_generateId : blind generateId.
Proof. blind_prim. Qed.

Lemma blind_new_Date : blind new_Date.
Proof. blind_prim. Qed.

Lemma blind_update_session f : blind (update_session f).
Proof. blind_prim. Qed.

Lemma blind_get_session : blind get_session.
Proof. blind_prim. Qed.

Lemma blind_await_promise {A} (p : option (Async A)) : blind (await_promise p).
Proof.
  intros w w0 Hw. unfold await_promise.
  destruct p as [p|]; [destruct (settled p)|]; by split.
Qed.

Lemma sim_call_llm a : sim a (call_llm a) (call_llm (mute a)).
Proof.
  intros [s d r dl y] [s0 d0 r0 dl0 y0] Hw.
  unfold forget in Hw; simpl in Hw; injection Hw as -> -> -> ->.
  left. unfold call_llm, mute, request_of; simpl.
  destruct (LLMClient_call _ _ _); split; reflexivity.
Qed.

Lemma sim_emit a event : sim a (emit a event) (emit (mute a) event).
Proof.
  intros [s d r dl y] [s0 d0 r0 dl0 y0] Hw.
  unfold forget in Hw; simpl in Hw; injection Hw as -> -> -> ->.
  unfold emit; simpl. destruct (onEvent (config a)) as [cb|] eqn:Hcb.
  - destruct (cb dl event) as [u|e] eqn:Hr.
    + left. destruct u. by split.
    + right. split; [done|]. by exists cb, dl, event, e.
  - left. by split.
Qed.

Lemma sim_for_each a {A} (l : list A) (f f0 : A -> M unit) :
  (forall x, sim a (f x) (f0 x)) -> sim a (for_each l f) (for_each l f0).
Proof.
  intros Hf. induction l as [|x l IH]; simpl.
  - apply sim_ret.
  - apply sim_bind; [apply Hf | intros _; apply IH].
Qed.

Lemma sim_try_catch a {A} (m m0 : M A) (h h0 : Thrown -> M A) :
  sim a m m0 ->
  (forall e, sim a (h e) (h0 e)) ->
  (forall e w, threw (fst (h e w))) ->
  sim a (try_catch m h) (try_catch m0 h0).
Proof.
  intros Hm Hh Hthrows w w0 Hw. unfold try_catch.
  destruct (Hm w w0 Hw) as [[Hc Hf] | [Ht Hcb]].
  - destruct (m w) as [c w1], (m0 w0) as [c0 w01]. simpl in *. subst c0.
    destruct c as [x|e|]; [left; by split | by apply Hh | left; by split].
  - right. split; [|done].
    destruct (m w) as [[x|e|] w1]; simpl in *; first [done | apply Hthrows].
Qed.

Lemma sim_new_message a r cs : sim a (new_message r cs) (new_message r cs).
Proof.
  unfold new_message.
  apply sim_bind; [apply sim_blind, blind_generateId|]. intros mid.
  apply sim_bind; [apply sim_blind, blind_new_Date|]. intros date.
  apply sim_ret.
Qed.

Lemma sim_push_message a m : sim a (push_message m) (push_message m).
Proof. apply sim_blind, blind_update_session. Qed.

Lemma sim_updateSessionStatus a st :
  sim a (updateSessionStatus st) (updateSessionStatus st).
Proof. apply sim_blind, blind_update_session. Qed.

Lemma sim_addUserMessage a text :
  sim a (addUserMessage text) (addUserMessage text).
Proof.
  unfold addUserMessage.
  apply sim_bind; [apply sim_blind, blind_generateId|]. intros mid.
  apply sim_bind; [apply sim_blind, blind_new_Date|]. intros date.
  apply sim_bind; [apply sim_push_message|]. intros _. apply sim_ret.
Qed.

Lemma sim_run_tools a m calls :
  sim a (run_tools a (emit a) m calls) (run_tools (mute a) (emit (mute a)) m calls).
Proof.
  unfold run_tools.
  apply sim_bind; [apply sim_blind, blind_get_session|]. intros s.
  apply sim_bind; [apply sim_blind, blind_await_promise|]. intros results.
  apply sim_bind; [apply sim_new_message|]. intros toolMessage.
  apply sim_bind; [apply sim_push_message|]. intros _.
  apply sim_bind; [apply sim_emit|]. intros _.
  apply sim_bind; [apply sim_for_each; intros r; apply sim_emit|]. intros _.
  apply sim_emit.
Qed.

Lemma sim_emit_text a c : sim a (emit_text a c) (emit_text (mute a) c).
Proof.
  destruct c; simpl; try apply sim_ret.
  apply sim_bind; [apply sim_emit|]. intros _. apply sim_emit.
Qed.

Lemma sim_run_loop a budget step :
  sim a (run_loop a budget step) (run_loop (mute a) budget step).
Proof.
  revert step. induction budget as [|budget IH]; intros step; simpl.
  - apply sim_ret.
  - apply sim_bind; [apply sim_emit|]. intros _.
    apply sim_bind; [apply sim_call_llm|]. intros response.
    apply sim_bind; [apply sim_new_message|]. intros assistantMessage.
    apply sim_bind; [apply sim_push_message|]. intros _.
    apply sim_bind; [apply sim_emit|]. intros _.
    apply sim_bind; [apply sim_for_each, sim_emit_text|]. intros _.
    destruct (length (tool_calls_of (out_content response)) =? 0)%nat.
    + apply sim_bind; [apply sim_emit|]. intros _. apply sim_ret.
    + apply sim_bind; [apply sim_for_each; intros c; apply sim_emit|]. intros _.
      apply sim_bind; [apply sim_run_tools|]. intros _. apply IH.
Qed.

Lemma sim_after_loop a step : sim a (after_loop a step) (after_loop (mute a) step).
Proof.
  unfold after_loop; simpl.
  destruct (maxSteps (config a) <=? step)%nat.
  - apply sim_throw.
  - apply sim_updateSessionStatus.
Qed.

Lemma sim_run a userMessage : sim a (run a userMessage) (run (mute a) userMessage).
Proof.
  unfold run.
  apply sim_bind; [apply sim_addUserMessage|]. intros _.
  apply sim_bind; [apply sim_updateSessionStatus|]. intros _.
  apply sim_try_catch.
  - apply sim_bind; [apply sim_run_loop|]. intros step.
    apply sim_bind; [apply sim_after_loop|]. intros _.
    apply sim_bind; [apply sim_blind, blind_get_session|]. intros s.
    apply sim_ret.
  - intros e.
    apply sim_bind; [apply sim_updateSessionStatus|]. intros _.
    apply sim_bind; [apply sim_emit|]. intros _. apply sim_throw.
  - intros e w. unfold bind, updateSessionStatus, update_session, throw.
    destruct (emit a (ev_error (as_Error e)) _) as [[u| |] w1] eqn:E; simpl; try done.
    unfold emit in E. repeat case_match; simplify_eq.
Qed.

Lemma never_throws_not_callback_throws a :
  never_throws a -> ~ callback_throws a.
Proof.
  intros Hn (cb & history & event & e & Hcb & Hthrow).
  rewrite (Hn cb history event Hcb) in Hthrow. discriminate.
Qed.

(** With a callback that returns normally, the run agrees with the run
    of the agent without the callback. *)
Lemma run_agree_mute a userMessage w :
  never_throws a -> agree (run a userMessage w) (run (mute a) userMessage w).
Proof.
  intros Hn. destruct (sim_run a userMessage w w eq_refl) as [Hag | [_ Hcb]].
  - done.
  - by apply never_throws_not_callback_throws in Hcb.
Qed.

(** A run that returns agrees with the run without the callback. *)
Lemma run_Returned_mute a userMessage w msgs w' :
  run a userMessage w = (Returned msgs, w') ->
  exists w0', run (mute a) userMessage w = (Returned msgs, w0')
              /\ forget w' = forget w0'.
Proof.
  intros Hrun. destruct (sim_run a userMessage w w eq_refl) as [[Hc Hf] | [Ht _]].
  - rewrite Hrun in *. simpl in *.
    destruct (run (mute a) userMessage w) as [c0 w0']. simpl in *. subst c0.
    by exists w0'.
  - by rewrite Hrun in Ht.
Qed.

End CallbackLemmas.

(** ** The loop of the agent without a callback *)

Section LoopLemmas.
Context `{JsHost}.
Local Open Scope agent_scope.
Implicit Types (a : Agent) (w : World).

Lemma bind_Returned {A B} (m : M A) (k : A -> M B) w b w' :
  bind m k w = (Returned b, w') ->
  exists x w1, m w = (Returned x, w1) /\ k x w1 = (Returned b, w').
Proof.
  unfold bind. destruct (m w) as [[x|e|] w1]; intros Hk; try discriminate.
  by exists x, w1.
Qed.

Lemma for_each_quiet {A} (l : list A) (f : A -> M unit) w :
  (forall x w1, f x w1 = (Returned tt, w1)) ->
  for_each l f w = (Returned tt, w).
Proof.
  intros Hf. induction l as [|x l IH]; simpl; [done|].
  unfold bind. by rewrite Hf.
Qed.

Lemma emit_text_mute a c w : emit_text (mute a) c w = (Returned tt, w).
Proof. by destruct c. Qed.

Lemma tool_results_of_parse_part part : tool_results_of (parse_part part) = [].
Proof. by destruct part. Qed.

Lemma tool_results_of_app cs cs' :
  tool_results_of (cs ++ cs') = tool_results_of cs ++ tool_results_of cs'.
Proof. unfold tool_results_of. apply omap_app. Qed.

Lemma tool_calls_of_app cs cs' :
  tool_calls_of (cs ++ cs') = tool_calls_of cs ++ tool_calls_of cs'.
Proof. unfold tool_calls_of. apply omap_app. Qed.

Lemma tool_results_of_parse_item item : tool_results_of (parse_item item) = [].
Proof.
  destruct item as [parts| |]; simpl; try done.
  induction parts as [|part parts IH]; simpl; [done|].
  by rewrite tool_results_of_app, tool_results_of_parse_part, IH.
Qed.

(** [parseResponseOutput] builds text and [tool_call] blocks only. *)
Lemma parseResponseOutput_no_results response :
  tool_results_of (parseResponseOutput response) = [].
Proof.
  unfold parseResponseOutput.
  induction (resp_output response) as [|item items IH]; simpl; [done|].
  by rewrite tool_results_of_app, tool_results_of_parse_item, IH.
Qed.

Lemma LLMClient_call_no_results c n input r :
  LLMClient_call c n input = Return r -> tool_results_of (out_content r) = [].
Proof.
  unfold LLMClient_call. destruct (responses_create c n input) as [response|e].
  - intros [= <-]. apply parseResponseOutput_no_results.
  - by destruct (instanceof_LLMError e).
Qed.

Lemma tool_calls_of_results (rs : list ToolResultContent) :
  tool_calls_of (map tool_result_content rs) = [].
Proof. induction rs as [|r rs IH]; [done|]. done. Qed.

Lemma tool_results_of_results (rs : list ToolResultContent) :
  tool_results_of (map tool_result_content rs) = rs.
Proof. induction rs as [|r rs IH]; [done|]. cbn. by f_equal. Qed.

(** The tool half of a step, without a callback: it returns, having
    appended one [tool] message that answers the calls in order. *)
Lemma run_tools_mute a m calls w :
  exists t,
    run_tools (mute a) (emit (mute a)) m calls w
    = (Returned tt,
       {| session := with_messages (session w) (messages (session w) ++ [t]);
          draws := S (S (draws w)); requests := requests w;
          delivered := delivered w; yielded := yielded w |})
    /\ role t = role_tool
    /\ tool_calls_of (content t) = []
    /\ map toolCallId (tool_results_of (content t)) = map call_id calls.
Proof.
  destruct (executeAll_fulfilled (executor (mute a)) calls
              {| sessionId := session_id (session w); messageId := msg_id m;
                 abortSignal := None |}) as (p & results & Hp & Hs & Hf).
  eexists. split; [|split; [|split]].
  - unfold run_tools, bind, get_session, await_promise. rewrite Hp, Hs.
    simpl. rewrite for_each_quiet by done. reflexivity.
  - done.
  - apply tool_calls_of_results.
  - simpl. rewrite tool_results_of_results. eapply Forall2_call_ids, Hf.
Qed.

Lemma with_messages_same (s : Session) : with_messages s (messages s ++ []) = s.
Proof. destruct s. unfold with_messages; simpl. by rewrite app_nil_r. Qed.

(** One turn of the loop, without a callback. *)
Lemma run_loop_mute_S a budget step w :
  run_loop (mute a) (S budget) step w
  = match LLMClient_call (llm a) (length (requests w))
            (request_of a (session w)) with
    | Throw e => (Threw e, log_request (request_of a (session w)) w)
    | Return response =>
        let asst :=
          {| msg_id := randomUUID (draws w); role := role_assistant;
             content := out_content response;
             createdAt := Date_now (S (draws w)) |} in
        let w2 :=
          {| session := with_messages (session w) (messages (session w) ++ [asst]);
             draws := S (S (draws w));
             requests := requests w ++ [request_of a (session w)];
             delivered := delivered w; yielded := yielded w |} in
        if (length (tool_calls_of (out_content response)) =? 0)%nat
        then (Returned (S step), w2)
        else
          bind (run_tools (mute a) (emit (mute a)) asst
                  (tool_calls_of (out_content response)))
               (fun _ => run_loop (mute a) budget (S step)) w2
    end.
Proof.
  simpl. unfold bind at 1. simpl. unfold bind at 1. unfold call_llm.
  change (request_of (mute a) (session w)) with (request_of a (session w)).
  change (llm (mute a)) with (llm a).
  destruct (LLMClient_call _ _ _) as [response|e]; [|done].
  unfold bind at 1. unfold new_message, bind at 1. simpl.
  unfold bind at 1. simpl. unfold bind at 1. simpl.
  unfold bind at 1. simpl. unfold bind at 1.
  rewrite for_each_quiet by (intros; apply emit_text_mute).
  destruct (length (tool_calls_of (out_content response)) =? 0)%nat; [done|].
  unfold bind at 1. rewrite for_each_quiet by done.
  reflexivity.
Qed.

(** What a loop that returns has done to the transcript and which
    transcripts its inference requests carried. *)
Lemma run_loop_mute_trace a budget step w s w' :
  run_loop (mute a) budget step w = (Returned s, w') ->
  exists added reqs,
    loop_trace (messages (session w)) added reqs
    /\ session w' = with_messages (session w) (messages (session w) ++ added)
    /\ map in_messages (requests w') = map in_messages (requests w) ++ reqs
    /\ s = step + length reqs.
Proof.
  revert step w. induction budget as [|budget IH]; intros step w Hrun.
  - injection Hrun as <- <-. exists [], []. split; [constructor|].
    rewrite with_messages_same, app_nil_r. repeat split. simpl. lia.
  - rewrite run_loop_mute_S in Hrun.
    destruct (LLMClient_call _ _ _) as [response|e] eqn:Hcall; [|done].
    pose proof (LLMClient_call_no_results _ _ _ _ Hcall) as Hnores.
    cbv zeta in Hrun.
    destruct (length (tool_calls_of (out_content response)) =? 0)%nat eqn:Hlen.
    + injection Hrun as <- <-. simpl.
      exists [{| msg_id := randomUUID (draws w); role := role_assistant;
                 content := out_content response;
                 createdAt := Date_now (S (draws w)) |}],
             [messages (session w)].
      split; [|split; [|split]].
      * apply trace_final; simpl; [done| |done].
        apply Nat.eqb_eq in Hlen. by destruct (tool_calls_of _).
      * reflexivity.
      * by rewrite map_app.
      * simpl. lia.
    + apply bind_Returned in Hrun as ([] & w3 & Htools & Hrest).
      match type of Htools with
      | run_tools _ _ ?m ?cs ?w2 = _ =>
          destruct (run_tools_mute a m cs w2) as (t & Ht & Hrole & Htc & Htr)
      end.
      rewrite Ht in Htools. injection Htools as <-.
      apply IH in Hrest as (added & reqs & Htrace & Hsess & Hreqs & Hle).
      simpl in *.
      exists ({| msg_id := randomUUID (draws w); role := role_assistant;
                 content := out_content response;
                 createdAt := Date_now (S (draws w)) |} :: t :: added),
             (messages (session w) :: reqs).
      split; [|split; [|split]].
      * apply trace_round; [done | exact Hrole | exact Hnores | exact Htc
                           | exact Htr |].
        rewrite <- app_assoc in Htrace. exact Htrace.
      * rewrite Hsess. unfold with_messages; simpl.
        by rewrite <- !app_assoc.
      * rewrite Hreqs, map_app. simpl. by rewrite <- app_assoc.
      * simpl. lia.
Qed.

End LoopLemmas.

(** ** Transcripts *)

Section TranscriptLemmas.
Context `{JsHost}.
Implicit Types (msgs base added : list Message) (c : ToolCallContent)
  (rs : list ToolResultContent).

Lemma calls_in_app msgs msgs' :
  calls_in (msgs ++ msgs') = calls_in msgs ++ calls_in msgs'.
Proof. unfold calls_in. apply flat_map_app. Qed.

Lemma results_in_app msgs msgs' :
  results_in (msgs ++ msgs') = results_in msgs ++ results_in msgs'.
Proof. unfold results_in. apply flat_map_app. Qed.

Lemma call_ids_app msgs msgs' :
  call_ids (msgs ++ msgs') = call_ids msgs ++ call_ids msgs'.
Proof. unfold call_ids. by rewrite calls_in_app, map_app. Qed.

Lemma matching_app c rs rs' :
  matching c (rs ++ rs') = matching c rs ++ matching c rs'.
Proof. apply List.filter_app. Qed.

Lemma matching_none c rs :
  call_id c ∉ map toolCallId rs -> matching c rs = [].
Proof.
  induction rs as [|r rs IH]; simpl; [done|].
  rewrite not_elem_of_cons. intros [Hne Hnin].
  destruct (String.eqb (toolCallId r) (call_id c)) eqn:E.
  - apply String.eqb_eq in E. congruence.
  - by apply IH.
Qed.

Lemma matching_one c rs :
  NoDup (map toolCallId rs) ->
  call_id c ∈ map toolCallId rs ->
  length (matching c rs) = 1.
Proof.
  induction rs as [|r rs IH]; simpl.
  - intros _ Hin. by apply elem_of_nil in Hin.
  - intros Hnd Hin. apply NoDup_cons in Hnd as [Hr Hnd].
    destruct (String.eqb (toolCallId r) (call_id c)) eqn:E.
    + apply String.eqb_eq in E. rewrite E in Hr.
      simpl. by rewrite (matching_none c rs Hr).
    + apply String.eqb_neq in E. apply elem_of_cons in Hin as [Hin|Hin].
      * congruence.
      * by apply IH.
Qed.

(** Appending messages whose results answer none of the earlier calls
    keeps the earlier calls answered once. *)
Lemma answered_app base added :
  answered base ->
  answered added ->
  (forall c, c ∈ calls_in base -> matching c (results_in added) = []) ->
  answered (base ++ added).
Proof.
  induction base as [|m base IH]; simpl; [done|].
  intros [Hm Hbase] Hadded Hfresh. split.
  - apply Forall_forall. intros c Hc.
    rewrite Forall_forall in Hm.
    rewrite results_in_app, matching_app, length_app, (Hm c Hc).
    rewrite (Hfresh c); [done|].
    unfold calls_in; simpl. apply elem_of_app. by left.
  - apply IH; [done|done|]. intros c Hc. apply Hfresh.
    unfold calls_in; simpl. apply elem_of_app. by right.
Qed.

Lemma answered_lookup msgs i m c :
  answered msgs ->
  msgs !! i = Some m ->
  c ∈ tool_calls_of (content m) ->
  length (matching c (later_results i msgs)) = 1.
Proof.
  revert i. induction msgs as [|m0 msgs IH]; intros i Hans Hi Hc; [done|].
  destruct Hans as [Hm0 Hans]. destruct i as [|i]; simpl in Hi.
  - injection Hi as ->. rewrite Forall_forall in Hm0. by apply Hm0.
  - unfold later_results. simpl. by apply (IH i).
Qed.

Lemma elem_of_call_ids c msgs : c ∈ calls_in msgs -> call_id c ∈ call_ids msgs.
Proof. intros Hc. unfold call_ids. by apply list_elem_of_fmap_2. Qed.

(** A run of the loop whose tool-call identifiers are new and pairwise
    distinct keeps the transcript answered, and made each of its
    inference requests on an answered transcript. *)
Lemma loop_trace_answered base added reqs :
  loop_trace base added reqs ->
  answered base ->
  NoDup (call_ids (base ++ added)) ->
  answered (base ++ added) /\ Forall answered reqs.
Proof.
  induction 1 as [base | base m _ Hcalls Hres
                 | base a t rest reqs _ _ Hres_a Hcalls_t Hids Htrace IH];
    intros Hbase Hnd.
  - rewrite app_nil_r. by split.
  - split; [|by constructor].
    apply answered_app; [done| |].
    + simpl. rewrite Hcalls. by split.
    + intros c _. unfold results_in; simpl. by rewrite Hres.
  - assert (Hids_a : call_ids [a; t] = map call_id (tool_calls_of (content a))).
    { unfold call_ids, calls_in; simpl. by rewrite Hcalls_t, !app_nil_r. }
    assert (Hres_at : map toolCallId (results_in [a; t])
                      = map call_id (tool_calls_of (content a))).
    { unfold results_in; simpl. by rewrite Hres_a, app_nil_r. }
    change (a :: t :: rest) with ([a; t] ++ rest) in Hnd.
    rewrite app_assoc in Hnd.
    pose proof Hnd as Hnd'.
    rewrite call_ids_app in Hnd'. apply NoDup_app in Hnd' as (Hnd_at & _ & _).
    rewrite call_ids_app in Hnd_at.
    apply NoDup_app in Hnd_at as (_ & Hdisj & Hnd_a).
    rewrite Hids_a in *.
    assert (Hat : answered (base ++ [a; t])).
    { apply answered_app; [done| |].
      - simpl. rewrite Hcalls_t. split; [|by split].
        apply Forall_forall. intros c Hc. apply matching_one.
        + unfold results_in in Hres_at; simpl in Hres_at.
          rewrite Hres_a in Hres_at; simpl in Hres_at. unfold results_in; simpl.
          by rewrite Hres_at.
        + unfold results_in in Hres_at; simpl in Hres_at.
          rewrite Hres_a in Hres_at; simpl in Hres_at. unfold results_in; simpl.
          rewrite Hres_at. by apply list_elem_of_fmap_2.
      - intros c Hc. apply matching_none. rewrite Hres_at.
        apply Hdisj. by apply elem_of_call_ids. }
    destruct (IH Hat Hnd) as [Hall Hreqs].
    split.
    + change (a :: t :: rest) with ([a; t] ++ rest). by rewrite app_assoc.
    + by constructor.
Qed.

Lemma loop_trace_head base added reqs :
  loop_trace base added reqs -> reqs = [] \/ exists rest, reqs = base :: rest.
Proof. destruct 1; [by left | right; by eexists | right; by eexists]. Qed.

(** The inference requests of a run of the loop carry transcripts that
    grow by one answered step at a time. *)
Lemma loop_trace_stepwise base added reqs :
  loop_trace base added reqs -> stepwise reqs.
Proof.
  induction 1 as [base | base m _ _ _
                 | base a t rest reqs Ha Ht _ _ Hids Htrace IH]; simpl; try done.
  split; [|done].
  destruct (loop_trace_head _ _ _ Htrace) as [-> | [rest' ->]]; [done|].
  by exists a, t.
Qed.

End TranscriptLemmas.

(** ** [Agent.run] *)

Section RunLemmas.
Context `{JsHost}.
Local Open Scope agent_scope.
Implicit Types (a : Agent) (w : World).

(** [run] without a callback, in terms of its loop. *)
Lemma run_mute_unfold a userMessage w :
  run (mute a) userMessage w
  = match run_loop (mute a) (maxSteps (config a)) 0 (started w userMessage) with
    | (Returned step, wl) =>
        if (maxSteps (config a) <=? step)%nat
        then (Threw (new_MaxStepsExceededError (maxSteps (config a))),
              set_status wl status_error)
        else (Returned (messages (session wl)), set_status wl status_completed)
    | (Threw e, wl) => (Threw e, set_status wl status_error)
    | (Pending, wl) => (Pending, wl)
    end.
Proof.
  unfold run. unfold bind at 1. unfold addUserMessage, bind at 1. simpl.
  unfold bind at 1. simpl. unfold bind at 1. simpl.
  unfold try_catch. unfold bind at 1.
  change (maxSteps (config (mute a))) with (maxSteps (config a)).
  fold (user_message w userMessage). fold (started w userMessage).
  destruct (run_loop (mute a) (maxSteps (config a)) 0 (started w userMessage))
    as [[step|e|] wl]; [|done|done].
  unfold bind at 1. unfold after_loop.
  change (maxSteps (config (mute a))) with (maxSteps (config a)).
  destruct (maxSteps (config a) <=? step)%nat; reflexivity.
Qed.

Lemma requests_since_app w w' reqs :
  map in_messages (requests w') = map in_messages (requests w) ++ reqs ->
  requests_since w w' = reqs.
Proof.
  intros Hreqs. unfold requests_since.
  change (map in_messages (drop (length (requests w)) (requests w')))
    with (in_messages <$> drop (length (requests w)) (requests w')).
  rewrite fmap_drop.
  change (in_messages <$> requests w') with (map in_messages (requests w')).
  rewrite Hreqs, <- (length_map in_messages (requests w)).
  apply drop_app_length.
Qed.

(** C4, as the code has it.  For a run of [Agent.run] that returns, on
    a session whose earlier transcript has every tool call answered once,
    and whose tool-call identifiers are pairwise distinct over the whole
    final transcript: the run returns the session's transcript and leaves
    the session [completed]; every [tool_call] block in the transcript has
    exactly one [tool_result] block with its identifier in a later
    message; and the inference requests of the run carry transcripts that
    grow by one answered step at a time (an assistant message and the
    [tool] message answering its calls), each of them with every tool
    call answered. *)
Theorem run_answers_tool_calls a userMessage w :
  returned (fst (run a userMessage w)) = true ->
  answered (messages (session w)) ->
  NoDup (call_ids (transcript_after a userMessage w)) ->
  fst (run a userMessage w) = Returned (transcript_after a userMessage w)
  /\ status (session (snd (run a userMessage w))) = status_completed
  /\ (forall i m c,
        transcript_after a userMessage w !! i = Some m ->
        c ∈ tool_calls_of (content m) ->
        length (matching c (later_results i (transcript_after a userMessage w)))
        = 1)
  /\ stepwise (requests_since w (snd (run a userMessage w)))
  /\ Forall answered (requests_since w (snd (run a userMessage w))).
Proof.
  unfold transcript_after.
  destruct (run a userMessage w) as [[msgs|e|] w'] eqn:Hrun; simpl;
    [|done|done].
  intros _ Hbase Hnd.
  apply run_Returned_mute in Hrun as (w0 & Hrun & Hforget).
  assert (Hsess : session w' = session w0)
    by (apply (f_equal session) in Hforget; exact Hforget).
  assert (Hreq : requests w' = requests w0)
    by (apply (f_equal requests) in Hforget; exact Hforget).
  unfold requests_since. rewrite Hsess, Hreq in *.
  fold (requests_since w w0). clear Hsess Hreq Hforget w'.
  rewrite run_mute_unfold in Hrun.
  destruct (run_loop (mute a) (maxSteps (config a)) 0 (started w userMessage))
    as [[step|e|] wl] eqn:Hloop; [|done|done].
  destruct (maxSteps (config a) <=? step)%nat; [done|].
  injection Hrun as <- <-.
  apply run_loop_mute_trace in Hloop as (added & reqs & Htrace & Hs & Hreqs & _).
  simpl in Htrace, Hs, Hreqs.
  assert (Hmsgs : messages (session wl)
                  = (messages (session w) ++ [user_message w userMessage]) ++ added)
    by (by rewrite Hs).
  assert (Hstart : answered (messages (session w) ++ [user_message w userMessage])).
  { apply answered_app; [done| |].
    - simpl. by split.
    - intros c _. done. }
  simpl in Hnd. rewrite Hmsgs in Hnd.
  destruct (loop_trace_answered _ _ _ Htrace Hstart Hnd) as [Hall Hreqs_ans].
  rewrite (requests_since_app w (set_status wl status_completed) reqs)
    by exact Hreqs.
  simpl. rewrite Hmsgs.
  split; [done|]. split; [done|]. split; [|split].
  - intros i m c Hi Hc. by apply (answered_lookup _ i m c Hall).
  - by apply (loop_trace_stepwise _ _ _ Htrace).
  - done.
Qed.

(** X1. A run that returns made fewer inference requests than [maxSteps]:
    the step on which the loop ends is never the last one of the budget. *)
Theorem run_returns_before_last_step a userMessage w :
  returned (fst (run a userMessage w)) = true ->
  length (requests_since w (snd (run a userMessage w))) < maxSteps (config a).
Proof.
  destruct (run a userMessage w) as [[msgs|e|] w'] eqn:Hrun; simpl;
    [|done|done].
  intros _.
  apply run_Returned_mute in Hrun as (w0 & Hrun & Hforget).
  assert (Hreq : requests w' = requests w0)
    by (apply (f_equal requests) in Hforget; exact Hforget).
  unfold requests_since. rewrite Hreq. fold (requests_since w w0).
  rewrite run_mute_unfold in Hrun.
  destruct (run_loop (mute a) (maxSteps (config a)) 0 (started w userMessage))
    as [[step|e|] wl] eqn:Hloop; [|done|done].
  destruct (maxSteps (config a) <=? step)%nat eqn:Hle; [done|].
  injection Hrun as <- <-.
  apply run_loop_mute_trace in Hloop as (added & reqs & _ & _ & Hreqs & Hstep).
  rewrite (requests_since_app w (set_status wl status_completed) reqs)
    by exact Hreqs.
  apply Nat.leb_gt in Hle. lia.
Qed.

(** X2. With a budget of two steps or more, a first response without tool
    calls ends the run after one inference request: [run] returns the
    transcript, extended by the user message and the assistant message,
    and the session is [completed]. *)
Theorem run_first_step_completes a userMessage w response :
  never_throws a ->
  2 <= maxSteps (config a) ->
  LLMClient_call (llm a) (length (requests w))
    (request_of a (session (started w userMessage))) = Return response ->
  tool_calls_of (out_content response) = [] ->
  fst (run a userMessage w) = Returned (transcript_after a userMessage w)
  /\ status (session (snd (run a userMessage w))) = status_completed
  /\ length (requests_since w (snd (run a userMessage w))) = 1
  /\ exists m,
       transcript_after a userMessage w
       = messages (session w) ++ [user_message w userMessage; m]
       /\ role m = role_assistant
       /\ content m = out_content response.
Proof.
  intros Hquiet Hmax Hcall Hnone. unfold transcript_after, requests_since.
  destruct (run_agree_mute a userMessage w Hquiet) as [Hc Hf].
  pose proof (f_equal session Hf) as Hs. pose proof (f_equal requests Hf) as Hr.
  simpl in Hs, Hr. rewrite Hc, Hs, Hr. clear Hc Hf Hs Hr.
  rewrite run_mute_unfold.
  destruct (maxSteps (config a)) as [|[|budget]] eqn:Hsteps; [lia|lia|].
  rewrite run_loop_mute_S.
  change (requests (started w userMessage)) with (requests w).
  rewrite Hcall. cbv zeta. rewrite Hnone. simpl.
  split; [done|]. split; [done|]. split.
  - by rewrite drop_app_length.
  - eexists. split; [by rewrite <- app_assoc|]. split; reflexivity.
Qed.

(** When every response asks for a tool, the loop uses up its budget. *)
Lemma run_loop_mute_exhausts a budget step w :
  (forall n input, exists r,
      LLMClient_call (llm a) n input = Return r
      /\ tool_calls_of (out_content r) <> []) ->
  exists w', run_loop (mute a) budget step w = (Returned (step + budget), w').
Proof.
  intros Hllm. revert step w.
  induction budget as [|budget IH]; intros step w.
  - exists w. simpl. by rewrite Nat.add_0_r.
  - rewrite run_loop_mute_S.
    destruct (Hllm (length (requests w)) (request_of a (session w)))
      as (r & -> & Hcalls).
    cbv zeta.
    destruct (length (tool_calls_of (out_content r)) =? 0)%nat eqn:Hlen.
    { apply Nat.eqb_eq in Hlen. by destruct (tool_calls_of (out_content r)). }
    match goal with
    | |- exists _, bind (run_tools _ _ ?m ?cs) _ ?w2 = _ =>
        destruct (run_tools_mute a m cs w2) as (t & Ht & _)
    end.
    unfold bind. rewrite Ht.
    match goal with
    | |- exists _, run_loop _ _ _ ?w3 = _ =>
        destruct (IH (S step) w3) as (w' & Hrest)
    end.
    exists w'. rewrite Hrest. f_equal. f_equal. lia.
Qed.

(** X3. A model that asks for a tool in every response exhausts [maxSteps]:
    [run] throws [MaxStepsExceededError] and the session ends in [error]. *)
Theorem run_exhausts_budget a userMessage w :
  never_throws a ->
  (forall n input, exists r,
      LLMClient_call (llm a) n input = Return r
      /\ tool_calls_of (out_content r) <> []) ->
  fst (run a userMessage w)
  = Threw (new_MaxStepsExceededError (maxSteps (config a)))
  /\ status (session (snd (run a userMessage w))) = status_error.
Proof.
  intros Hquiet Hllm.
  destruct (run_agree_mute a userMessage w Hquiet) as [Hc Hf].
  apply (f_equal session) in Hf. simpl in Hf. rewrite Hc, Hf. clear Hc Hf.
  rewrite run_mute_unfold.
  destruct (run_loop_mute_exhausts a (maxSteps (config a)) 0
              (started w userMessage) Hllm) as (w' & ->).
  simpl. by rewrite Nat.leb_refl.
Qed.

(** C1, at the input on which the code departs from it.  With
    [maxSteps = 1] and a callback that returns normally (or none), a first
    response without tool calls makes [run] throw [MaxStepsExceededError]
    and leaves the session in status [error], the assistant message
    appended. *)
Theorem run_single_step_budget_fails a userMessage w response :
  never_throws a ->
  maxSteps (config a) = 1 ->
  LLMClient_call (llm a) (length (requests w))
    (request_of a (session (started w userMessage))) = Return response ->
  tool_calls_of (out_content response) = [] ->
  fst (run a userMessage w) = Threw (new_MaxStepsExceededError 1)
  /\ status (session (snd (run a userMessage w))) = status_error
  /\ exists m,
       messages (session (snd (run a userMessage w)))
       = messages (session w) ++ [user_message w userMessage; m]
       /\ role m = role_assistant
       /\ content m = out_content response.
Proof.
  intros Hquiet Hmax Hcall Hnone.
  destruct (run_agree_mute a userMessage w Hquiet) as [Hc Hf].
  apply (f_equal session) in Hf. simpl in Hf.
  rewrite Hc, Hf. clear Hc Hf.
  rewrite run_mute_unfold, Hmax, run_loop_mute_S.
  change (requests (started w userMessage)) with (requests w).
  rewrite Hcall. cbv zeta. rewrite Hnone. simpl.
  split; [done|]. split; [done|].
  eexists. split; [by rewrite <- app_assoc|]. split; reflexivity.
Qed.

(** C9, as the code has it.  With a callback that returns normally on
    every event, [run] ends as it does without a callback: the same
    outcome (and value or error), the same session (transcript and
    status), the same inference requests. *)
Theorem run_unaffected_by_quiet_callback a userMessage w :
  never_throws a ->
  fst (run a userMessage w) = fst (run (mute a) userMessage w)
  /\ session (snd (run a userMessage w))
     = session (snd (run (mute a) userMessage w))
  /\ requests (snd (run a userMessage w))
     = requests (snd (run (mute a) userMessage w)).
Proof.
  intros Hquiet.
  destruct (run_agree_mute a userMessage w Hquiet) as [Hc Hf].
  split; [done|]. split.
  - by apply (f_equal session) in Hf.
  - by apply (f_equal requests) in Hf.
Qed.

End RunLemmas.

(** ** The streaming state machine *)

Section StreamLemmas.
Context `{JsHost}.
Local Open Scope agent_scope.
Implicit Types (a : Agent) (w : World) (st : StreamState)
  (events body pre post : list LLMEvent).

Lemma append_nil_r (s : string) : s +:+ "" = s.
Proof.
  induction s as [|c s IH]; [done|].
  change (String c (s +:+ "") = String c s). by f_equal.
Qed.

Lemma append_assoc (s1 s2 s3 : string) : (s1 +:+ s2) +:+ s3 = s1 +:+ (s2 +:+ s3).
Proof.
  induction s1 as [|c s1 IH]; [done|].
  change (String c ((s1 +:+ s2) +:+ s3) = String c (s1 +:+ (s2 +:+ s3))).
  by f_equal.
Qed.

Lemma for_each_yield (l : list AgentEvent) w :
  for_each l yield_event w
  = (Returned tt,
     {| session := session w; draws := draws w; requests := requests w;
        delivered := delivered w; yielded := yielded w ++ l |}).
Proof.
  revert w. induction l as [|ev l IH]; intros w; simpl.
  - rewrite app_nil_r. by destruct w.
  - unfold bind, yield_event at 1. rewrite IH. simpl.
    by rewrite <- app_assoc.
Qed.

(** The [for await] loop ends with the locals the events lead to; it
    returns exactly when there is no [error] event. *)
Lemma consume_Returned events st w st' w' :
  consume events st w = (Returned st', w') ->
  st' = fold_left advance events st
  /\ forallb (fun ev => negb (is_error_event ev)) events = true
  /\ session w' = session w /\ requests w' = requests w /\ draws w' = draws w.
Proof.
  revert st st' w. induction events as [|ev events IH]; intros st st' w; simpl.
  - intros [= <- <-]. done.
  - unfold advance at 2. destruct (on_event st ev) as [[st1 out] thrown] eqn:Hon.
    unfold bind. rewrite for_each_yield.
    destruct thrown as [e|]; [done|].
    intros Hrest. apply IH in Hrest as (-> & Hall & Hs & Hr & Hd).
    simpl in *. rewrite Hall. repeat split; try done.
    destruct ev; simpl in *; done.
Qed.

Lemma consume_no_error events st w :
  forallb (fun ev => negb (is_error_event ev)) events = true ->
  exists w', consume events st w = (Returned (fold_left advance events st), w').
Proof.
  revert st w. induction events as [|ev events IH]; intros st w; simpl.
  - by eexists.
  - intros [Hev Hall]%andb_prop.
    unfold advance at 2. destruct (on_event st ev) as [[st1 out] thrown] eqn:Hon.
    unfold bind. rewrite for_each_yield.
    assert (thrown = None) as ->.
    { destruct ev; simpl in *; try done; try by injection Hon as <- <- <-.
      - destruct (JsMap.get _ _); by injection Hon as <- <- <-.
      - destruct (String.eqb _ _); by injection Hon as <- <- <-. }
    apply IH, Hall.
Qed.

Lemma st_toolCalls_fold events st :
  st_toolCalls (fold_left advance events st) = st_toolCalls st ++ ended_calls events.
Proof.
  revert st. induction events as [|ev events IH]; intros st; simpl.
  - by rewrite app_nil_r.
  - rewrite IH. unfold advance.
    destruct ev; simpl; try done.
    + by destruct (JsMap.get _ _).
    + by rewrite <- app_assoc.
    + by destruct (String.eqb _ _).
Qed.

Lemma currentText_fold events st :
  currentText (fold_left advance events st) = currentText st +:+ delta_text events.
Proof.
  revert st. induction events as [|ev events IH]; intros st; simpl.
  - unfold delta_text; simpl. by rewrite append_nil_r.
  - rewrite IH. unfold advance, delta_text.
    destruct ev; simpl; try done.
    + by rewrite append_assoc.
    + by destruct (JsMap.get _ _).
    + by destruct (String.eqb _ _).
Qed.

Lemma st_content_fold_no_finish body st :
  forallb (fun ev => negb (is_finish ev)) body = true ->
  st_content (fold_left advance body st) = st_content st.
Proof.
  revert st. induction body as [|ev body IH]; intros st; simpl; [done|].
  intros [Hev Hall]%andb_prop. rewrite IH by done. unfold advance.
  destruct ev; simpl in *; try done.
  by destruct (JsMap.get _ _).
Qed.

(** The content holds text blocks only, so that in the sealed content
    every text block comes before every tool-call block. *)
Lemma st_content_fold_text events st :
  Forall is_text (st_content st) ->
  Forall is_text (st_content (fold_left advance events st)).
Proof.
  revert st. induction events as [|ev events IH]; intros st Hst; simpl; [done|].
  apply IH. unfold advance. destruct ev; simpl; try done.
  - by destruct (JsMap.get _ _).
  - destruct (String.eqb _ _); simpl; [done|].
    apply Forall_app. split; [done|]. by repeat constructor.
Qed.

Lemma buffers_fold_no_start id post st :
  forallb (fun ev => negb (starts id ev)) post = true ->
  JsMap.get id (toolCallBuffers (fold_left advance post st))
  = match JsMap.get id (toolCallBuffers st) with
    | Some b =>
        Some {| buf_id := buf_id b; buf_name := buf_name b;
                buf_arguments := buf_arguments b +:+ fragments id post |}
    | None => None
    end.
Proof.
  revert st. induction post as [|ev post IH]; intros st; simpl.
  - intros _. unfold fragments; simpl.
    destruct (JsMap.get id (toolCallBuffers st)) as [[i n args]|]; [|done].
    simpl. by rewrite append_nil_r.
  - intros [Hev Hall]%andb_prop. rewrite IH by done. unfold advance, fragments.
    destruct ev as [t|id' name|id' args|id' name args|reason u|e]; simpl in *;
      try done.
    + apply negb_true_iff, String.eqb_neq in Hev.
      by rewrite JsMap_get_set_ne.
    + destruct (String.eqb id' id) eqn:E.
      * apply String.eqb_eq in E. subst id'.
        destruct (JsMap.get id (toolCallBuffers st)) as [[i n args0]|] eqn:Hg;
          simpl; [|by rewrite Hg].
        rewrite JsMap_get_set_eq. simpl. by rewrite append_assoc.
      * apply String.eqb_neq in E.
        destruct (JsMap.get id' (toolCallBuffers st)) as [b'|] eqn:Hg; simpl;
          [|done].
        by rewrite JsMap_get_set_ne.
    + by destruct (String.eqb _ _).
Qed.

Lemma buffers_after_start id name pre post :
  forallb (fun ev => negb (starts id ev)) post = true ->
  JsMap.get id
    (toolCallBuffers (after_events (pre ++ tool_call_start id name :: post)))
  = Some {| buf_id := id; buf_name := name;
            buf_arguments := fragments id post |}.
Proof.
  intros Hpost. unfold after_events. rewrite fold_left_app. simpl.
  rewrite (buffers_fold_no_start id post _ Hpost).
  unfold advance at 2. simpl. by rewrite JsMap_get_set_eq.
Qed.

End StreamLemmas.

(** ** Batch mode and streaming mode *)

Section ModesLemmas.
Context `{JsHost}.
Local Open Scope agent_scope.
Implicit Types (a : Agent) (w : World).

(** [stream], in terms of its loop. *)
Lemma stream_unfold a userMessage w :
  stream a userMessage w
  = match stream_loop a (maxSteps (config a)) 0 (started w userMessage) with
    | (Returned step, wl) =>
        if (maxSteps (config a) <=? step)%nat
        then
          bind (yield_event
                  (ev_error (new_MaxStepsExceededError (maxSteps (config a)))))
               (fun _ => throw (new_MaxStepsExceededError (maxSteps (config a))))
               (set_status wl status_error)
        else (Returned tt, set_status wl status_completed)
    | (Threw e, wl) =>
        bind (yield_event (ev_error (as_Error e))) (fun _ => throw e)
             (set_status wl status_error)
    | (Pending, wl) => (Pending, wl)
    end.
Proof.
  unfold stream. unfold bind at 1. unfold addUserMessage, bind at 1. simpl.
  unfold bind at 1. simpl. unfold bind at 1. simpl.
  unfold try_catch. unfold bind at 1.
  fold (user_message w userMessage). fold (started w userMessage).
  destruct (stream_loop a (maxSteps (config a)) 0 (started w userMessage))
    as [[step|e|] wl]; [|done|done].
  unfold after_loop.
  destruct (maxSteps (config a) <=? step)%nat; reflexivity.
Qed.

(** One streamed step that yields two text chunks and a [finish]. *)
Lemma stream_loop_two_chunks a budget step w t1 t2 reason u :
  LLMClient_stream (llm a) (length (requests w)) (request_of a (session w))
  = [text_delta t1; text_delta t2; finish reason u] ->
  exists wl m,
    stream_loop a (S budget) step w = (Returned (S step), wl)
    /\ session wl = with_messages (session w) (messages (session w) ++ [m])
    /\ role m = role_assistant
    /\ content m = sealed_text (t1 +:+ t2).
Proof.
  intros Hev. simpl. unfold bind at 1. simpl. unfold bind at 1. simpl.
  unfold bind at 1. unfold open_stream. simpl. rewrite Hev.
  unfold bind at 1. simpl. unfold sealed_text.
  change (("" +:+ t1) +:+ t2) with (t1 +:+ t2).
  destruct (String.eqb (t1 +:+ t2) ""); simpl; eexists _, _;
    (split; [reflexivity|]); simpl; (split; [reflexivity|]); done.
Qed.

Lemma getTextContent_sealed_text m t :
  content m = sealed_text t -> getTextContent m = t.
Proof.
  unfold getTextContent, sealed_text. intros ->.
  destruct (String.eqb t "") eqn:E; [|done].
  apply String.eqb_eq in E. by subst.
Qed.

Lemma getLastAssistantMessage_last (s : Session) l m :
  messages s = l ++ [m] -> role m = role_assistant ->
  getLastAssistantMessage s = Some m.
Proof.
  intros Hmsgs Hrole. unfold getLastAssistantMessage.
  rewrite Hmsgs, rev_app_distr. simpl. unfold is_assistant. by rewrite Hrole.
Qed.

(** C5, as amended.  A turn streamed as two [text_delta] events and a
    [finish] with reason ["stop"], and the same turn answered in batch
    mode by one response whose content is the concatenated text: as long
    as the callback of [run], if there is one, returns normally, [run]
    and [stream] leave the session with the same status and with
    transcripts that agree message by message on role and text content,
    and end alike (both throw or both return).  When the budget allows a
    step, the last assistant message carries the concatenated text in
    both; when it allows two, both sessions are [completed]. *)
Theorem stream_matches_batch a userMessage w t1 t2 u u' :
  never_throws a ->
  LLMClient_stream (llm a) (length (requests w))
    (request_of a (session (started w userMessage)))
  = [text_delta t1; text_delta t2; finish "stop" u] ->
  LLMClient_call (llm a) (length (requests w))
    (request_of a (session (started w userMessage)))
  = Return {| out_content := [text_content {| text := t1 +:+ t2 |}];
              finishReason := "stop"; usage := u' |} ->
  status (session (snd (run a userMessage w)))
  = status (session (snd (stream a userMessage w)))
  /\ transcript_texts (session (snd (run a userMessage w)))
     = transcript_texts (session (snd (stream a userMessage w)))
  /\ (threw (fst (run a userMessage w)) <-> threw (fst (stream a userMessage w)))
  /\ (1 <= maxSteps (config a) ->
      exists mb ms,
        getLastAssistantMessage (session (snd (run a userMessage w))) = Some mb
        /\ getLastAssistantMessage (session (snd (stream a userMessage w))) = Some ms
        /\ getTextContent mb = t1 +:+ t2
        /\ getTextContent ms = t1 +:+ t2)
  /\ (2 <= maxSteps (config a) ->
      status (session (snd (run a userMessage w))) = status_completed
      /\ status (session (snd (stream a userMessage w))) = status_completed).
Proof.
  intros Hquiet Hev Hcall.
  destruct (run_agree_mute a userMessage w Hquiet) as [Hc Hf].
  apply (f_equal session) in Hf. simpl in Hf. rewrite Hc, Hf. clear Hc Hf.
  rewrite run_mute_unfold, stream_unfold.
  destruct (maxSteps (config a)) as [|budget] eqn:Hmax.
  - simpl. repeat split; try done; lia.
  - rewrite run_loop_mute_S.
    change (requests (started w userMessage)) with (requests w).
    rewrite Hcall. cbv zeta.
    change (length (tool_calls_of
              (out_content {| out_content := [text_content {| text := t1 +:+ t2 |}];
                              finishReason := "stop"; usage := u' |})) =? 0)%nat
      with true.
    cbv iota.
    destruct (stream_loop_two_chunks a budget 0 (started w userMessage)
                t1 t2 "stop" u Hev) as (wl & m & Hloop & Hs & Hrole & Hcont).
    rewrite Hloop.
    pose proof (getTextContent_sealed_text m (t1 +:+ t2) Hcont) as Htext.
    destruct (S budget <=? 1)%nat eqn:Hle.
    + unfold bind, yield_event, throw. simpl. rewrite Hs. simpl.
      unfold transcript_texts. simpl. rewrite !map_app. simpl.
      rewrite Htext, Hrole.
      split; [done|]. split; [done|]. split; [done|]. split.
      * intros _. eexists _, m. split; [|split; [|split]].
        -- eapply getLastAssistantMessage_last; [reflexivity | reflexivity].
        -- eapply getLastAssistantMessage_last; [reflexivity | exact Hrole].
        -- reflexivity.
        -- exact Htext.
      * apply Nat.leb_le in Hle. lia.
    + simpl. rewrite Hs. simpl.
      unfold transcript_texts. simpl. rewrite !map_app. simpl.
      rewrite Htext, Hrole.
      split; [done|]. split; [done|]. split; [done|]. split.
      * intros _. eexists _, m. split; [|split; [|split]].
        -- eapply getLastAssistantMessage_last; [reflexivity | reflexivity].
        -- eapply getLastAssistantMessage_last; [reflexivity | exact Hrole].
        -- reflexivity.
        -- exact Htext.
      * done.
Qed.

End ModesLemmas.

(** ** Tools adapted from a remote host *)

Section McpLemmas.
Context `{JsHost}.
Implicit Types (c : MCPClient) (def : MCPToolDefinition) (args : JsValue)
  (ctx : ExecutionContext).

Lemma settled_callTool_connected c name args :
  connected c = true ->
  settled (callTool c name args)
  = match settled (sdk_callTool c name args) with
    | Return res =>
        Return {| output := content_output (mcp_content res);
                  metadata := None;
                  error := if mcp_isError res
                           then Some (content_output (mcp_content res))
                           else None |}
    | Throw e =>
        Return {| output := ""; metadata := None;
                  error := Some (error_message e) |}
    end.
Proof.
  intros Hc. unfold callTool. rewrite Hc. simpl.
  rewrite settled_async_catch, settled_async_bind.
  by destruct (settled (sdk_callTool c name args)).
Qed.

Lemma settled_callTool_offline c name args :
  connected c = false ->
  settled (callTool c name args)
  = Throw (ErrorObj PlainError "MCP client is not connected").
Proof. intros Hc. unfold callTool. by rewrite Hc. Qed.

(** C8, as the code has it.  A tool adapted from a remote host, invoked
    while its client is connected, always resolves to a [ToolResult]: a
    failed remote call gives [output = ""] and the error's message in
    [error]; a call the host reports as an error gives its output in
    [error] as well.  Invoked while the client is not connected, the
    tool's [execute] throws [Error("MCP client is not connected")]; an
    executor without hooks that runs the tool turns that into an error
    block carrying the message. *)
Theorem adapted_tool_failures c def args ctx :
  (connected c = true ->
     (exists r, settled (tool_execute (adaptTool c def) args ctx) = Return r)
     /\ (forall e,
           settled (sdk_callTool c (mcp_tool_name def) args) = Throw e ->
           settled (tool_execute (adaptTool c def) args ctx)
           = Return {| output := ""; metadata := None;
                       error := Some (error_message e) |})
     /\ (forall res,
           settled (sdk_callTool c (mcp_tool_name def) args) = Return res ->
           mcp_isError res = true ->
           settled (tool_execute (adaptTool c def) args ctx)
           = Return {| output := content_output (mcp_content res);
                       metadata := None;
                       error := Some (content_output (mcp_content res)) |}))
  /\ (connected c = false ->
        settled (tool_execute (adaptTool c def) args ctx)
        = Throw (ErrorObj PlainError "MCP client is not connected")
        /\ (forall ex call,
              get (call_name call) (registry ex) = Some (adaptTool c def) ->
              options ex = default_options ->
              call_arguments call = args ->
              settled (execute ex call ctx)
              = Return {| toolCallId := call_id call;
                          result := "MCP client is not connected";
                          isError := Some true |})).
Proof.
  split.
  - intros Hc. simpl. rewrite (settled_callTool_connected _ _ _ Hc).
    split; [|split].
    + destruct (settled (sdk_callTool c (mcp_tool_name def) args)); by eexists.
    + by intros e ->.
    + by intros res -> ->.
  - intros Hc. simpl. split; [by apply settled_callTool_offline|].
    intros ex call Hget Hopts <-.
    rewrite (settled_execute_found _ _ _ _ Hget).
    unfold run_before, executeWithTimeout. rewrite Hopts. simpl.
    by rewrite (settled_callTool_offline _ _ _ Hc).
Qed.

End McpLemmas.

(** ** [Map<string, V>]: removal *)

Section JsMapRemoval.
Context {V : Type}.
Implicit Types (m : list (string * V)) (k : string) (v : V).

Lemma JsMap_get_Some_elem m k v :
  JsMap.get k m = Some v -> (k, v) ∈ m.
Proof.
  induction m as [|[k0 v0] m IH]; simpl; [done|].
  destruct (String.eqb k0 k) eqn:E.
  - apply String.eqb_eq in E. intros [= ->]. subst. left.
  - intros Hg. right. by apply IH.
Qed.

Lemma JsMap_elem_get m k v :
  NoDup (JsMap.keys m) -> (k, v) ∈ m -> JsMap.get k m = Some v.
Proof.
  unfold JsMap.keys. induction m as [|[k0 v0] m IH]; simpl.
  - intros _ Hin. by apply elem_of_nil in Hin.
  - intros [Hk0 Hnd]%NoDup_cons Hin.
    apply elem_of_cons in Hin as [[= -> ->]|Hin].
    + by rewrite String.eqb_refl.
    + destruct (String.eqb k0 k) eqn:E.
      * apply String.eqb_eq in E. subst k0. exfalso. apply Hk0.
        change k with (fst (k, v)). by apply list_elem_of_fmap_2.
      * by apply IH.
Qed.

Lemma JsMap_keys_remove m k :
  NoDup (JsMap.keys m) ->
  JsMap.keys (JsMap.remove k m)
  = List.filter (fun k' => negb (String.eqb k' k)) (JsMap.keys m).
Proof.
  unfold JsMap.keys. induction m as [|[k0 v0] m IH]; simpl; [done|].
  intros [Hk0 Hnd]%NoDup_cons.
  destruct (String.eqb k0 k) eqn:E; simpl.
  - apply String.eqb_eq in E. subst k0.
    clear IH. induction m as [|[k1 v1] m IH]; simpl; [done|].
    apply not_elem_of_cons in Hk0 as [Hne Hk0]. simpl in *.
    apply NoDup_cons in Hnd as [_ Hnd].
    destruct (String.eqb k1 k) eqn:E1.
    + apply String.eqb_eq in E1. congruence.
    + simpl. f_equal. by apply IH.
  - f_equal. by apply IH.
Qed.

Lemma JsMap_get_remove_eq m k :
  NoDup (JsMap.keys m) -> JsMap.get k (JsMap.remove k m) = None.
Proof.
  intros Hnd. apply JsMap_get_None_keys. rewrite JsMap_keys_remove by done.
  intros Hin. apply list_elem_of_In, List.filter_In in Hin as [_ Hk].
  by rewrite String.eqb_refl in Hk.
Qed.

Lemma JsMap_get_remove_ne m k k' :
  k <> k' -> JsMap.get k' (JsMap.remove k m) = JsMap.get k' m.
Proof.
  intros Hne. induction m as [|[k0 v0] m IH]; simpl; [done|].
  destruct (String.eqb k0 k) eqn:E; simpl.
  - apply String.eqb_eq in E. subst k0.
    destruct (String.eqb k k') eqn:E'; [|done].
    apply String.eqb_eq in E'. contradiction.
  - by rewrite IH.
Qed.

Lemma JsMap_size_remove_present m k v :
  JsMap.get k m = Some v -> S (JsMap.size (JsMap.remove k m)) = JsMap.size m.
Proof.
  unfold JsMap.size. induction m as [|[k0 v0] m IH]; simpl; [done|].
  destruct (String.eqb k0 k); simpl; [done|]. intros Hg. by rewrite IH.
Qed.

(** Removing a key that was just set undoes the insertion. *)
Lemma JsMap_remove_set m k v :
  JsMap.remove k (JsMap.set k v m) = JsMap.remove k m.
Proof.
  induction m as [|[k0 v0] m IH]; simpl.
  - by rewrite String.eqb_refl.
  - destruct (String.eqb k0 k) eqn:E; simpl.
    + by rewrite String.eqb_refl.
    + by rewrite E, IH.
Qed.

Lemma JsMap_keys_values_length m :
  length (JsMap.values m) = JsMap.size m /\ length (JsMap.keys m) = JsMap.size m.
Proof. unfold JsMap.values, JsMap.keys, JsMap.size. by rewrite !length_map. Qed.

Lemma JsMap_has_keys m k : JsMap.has k m = true <-> k ∈ JsMap.keys m.
Proof.
  unfold JsMap.has. destruct (JsMap.get k m) as [v|] eqn:E.
  - split; [intros _|done].
    destruct (decide (k ∈ JsMap.keys m)) as [Hin|Hnin]; [done|].
    apply JsMap_get_None_keys in Hnin. congruence.
  - split; [done|]. intros Hin. by apply JsMap_get_None_keys in E.
Qed.

End JsMapRemoval.

(** ** The registry as an interface *)

Section RegistryInvariant.
Context `{JsHost}.
Implicit Types (r : ToolRegistry) (t tool : Tool) (name : string).

Lemma filed_set m t :
  Forall (fun kv : string * Tool => kv.1 = tool_name kv.2) m ->
  Forall (fun kv : string * Tool => kv.1 = tool_name kv.2)
         (JsMap.set (tool_name t) t m).
Proof.
  induction 1 as [|[k0 t0] m Hk Hm IH]; simpl.
  - by repeat constructor.
  - destruct (String.eqb k0 (tool_name t)); constructor; done.
Qed.

Lemma filed_remove m name :
  Forall (fun kv : string * Tool => kv.1 = tool_name kv.2) m ->
  Forall (fun kv : string * Tool => kv.1 = tool_name kv.2) (JsMap.remove name m).
Proof.
  induction 1 as [|[k0 t0] m Hk Hm IH]; simpl; [constructor|].
  destruct (String.eqb k0 name); [done|]. by constructor.
Qed.

Lemma unregister_NoDup r name :
  NoDup (names r) -> NoDup (names (unregister name r).2).
Proof.
  intros Hnd. unfold names, unregister, JsMap.delete in *; simpl.
  rewrite JsMap_keys_remove by done.
  apply NoDup_ListNoDup, List.NoDup_filter, NoDup_ListNoDup, Hnd.
Qed.

Lemma built_wf r : built r -> NoDup (names r) /\ filed r.
Proof.
  induction 1 as [|t r _ [Hnd Hf]|name r _ [Hnd Hf]|r _ _].
  - split; [apply NoDup_nil_2 | constructor].
  - split; [by apply register_NoDup | by apply filed_set].
  - split; [by apply unregister_NoDup | by apply filed_remove].
  - split; [apply NoDup_nil_2 | constructor].
Qed.

Lemma built_registerMany ts r : built r -> built (registerMany ts r).
Proof.
  unfold registerMany. revert r.
  induction ts as [|t ts IH]; intros r Hr; simpl; [done|].
  apply IH. by constructor.
Qed.

Lemma filed_names r : filed r -> map tool_name (list_tools r) = names r.
Proof.
  unfold filed, list_tools, names, JsMap.values, JsMap.keys.
  induction 1 as [|[k t] m Hk _ IH]; simpl; [done|].
  simpl in Hk. by rewrite IH, Hk.
Qed.
(** X4. A registry built from [new ToolRegistry()] by [register],
    [unregister] and [clear] lists no name twice and files each tool under
    its own name: [list()], [names()] and [toToolDefinitions()] are
    aligned entry by entry, their length is [size()], [has(name)] holds
    exactly for the listed names, [get(name)] returns the listed tool of
    that name, and [getOrThrow(name)] returns it or throws
    [ToolNotFoundError("Tool not found: <name>")] when there is none. *)
Theorem registry_consistent r :
  built r ->
  NoDup (names r)
  /\ map tool_name (list_tools r) = names r
  /\ map def_name (toToolDefinitions r) = names r
  /\ length (list_tools r) = size r
  /\ (forall name, has name r = true <-> name ∈ names r)
  /\ (forall name tool,
        get name r = Some tool <-> tool ∈ list_tools r /\ tool_name tool = name)
  /\ (forall name,
        (exists tool, getOrThrow name r = Return tool /\ get name r = Some tool
                      /\ has name r = true)
        \/ (getOrThrow name r = Throw (new_ToolNotFoundError name)
            /\ get name r = None /\ has name r = false)).
Proof.
  intros Hb. destruct (built_wf r Hb) as [Hnd Hf].
  pose proof (filed_names r Hf) as Hnames.
  split; [done|]. split; [done|]. split.
  { unfold toToolDefinitions. rewrite map_map. simpl. exact Hnames. }
  split; [apply JsMap_keys_values_length|]. split.
  { intros name. apply JsMap_has_keys. }
  split.
  - intros name tool. split.
    + intros Hget. apply JsMap_get_Some_elem in Hget.
      unfold filed in Hf. rewrite Forall_forall in Hf.
      split.
      * unfold list_tools, JsMap.values.
        change tool with (snd (name, tool)). by apply list_elem_of_fmap_2.
      * symmetry. exact (Hf _ Hget).
    + intros [Hin <-]. apply JsMap_elem_get; [done|].
      unfold list_tools, JsMap.values in Hin.
      apply list_elem_of_fmap in Hin as ([k t] & -> & Hin).
      unfold filed in Hf. rewrite Forall_forall in Hf.
      pose proof (Hf _ Hin) as Hk. simpl in *. by subst k.
  - intros name. unfold getOrThrow, has, JsMap.has, get.
    destruct (JsMap.get name (tools r)) as [tool|]; [left|right]; eauto.
Qed.
(** X5. On such a registry [unregister(name)] returns whether the name
    was registered and takes exactly that name out: [has] and [get] no
    longer find it, every other name keeps its tool and its place, and
    the size drops by one if the name was there.  Unregistering the name
    of a tool just registered returns [true] and leaves the registry
    without that name, which is the registry as it was when the name is
    new. *)
Theorem unregister_removes r name :
  built r ->
  (unregister name r).1 = has name r
  /\ has name (unregister name r).2 = false
  /\ get name (unregister name r).2 = None
  /\ (forall other, other <> name ->
        get other (unregister name r).2 = get other r)
  /\ names (unregister name r).2
     = List.filter (fun k => negb (String.eqb k name)) (names r)
  /\ size (unregister name r).2
     = (if has name r then size r - 1 else size r)
  /\ (forall t, unregister (tool_name t) (register t r)
                = (true, (unregister (tool_name t) r).2))
  /\ (forall t, has (tool_name t) r = false ->
                unregister (tool_name t) (register t r) = (true, r)).
Proof.
  intros Hb. destruct (built_wf r Hb) as [Hnd _].
  unfold unregister, JsMap.delete, has, get, names, size, register in *; simpl.
  split; [done|].
  assert (Hgone : JsMap.get name (JsMap.remove name (tools r)) = None)
    by (by apply JsMap_get_remove_eq).
  split; [unfold JsMap.has; by rewrite Hgone|]. split; [done|]. split.
  { intros other Hne. apply JsMap_get_remove_ne. congruence. }
  split; [by apply JsMap_keys_remove|]. split.
  { unfold JsMap.has. destruct (JsMap.get name (tools r)) as [t|] eqn:E.
    - rewrite <- (JsMap_size_remove_present _ _ _ E). lia.
    - by rewrite JsMap_remove_absent. }
  split.
  - intros t. unfold JsMap.has. rewrite JsMap_get_set_eq, JsMap_remove_set. done.
  - intros t. unfold JsMap.has at 1.
    destruct (JsMap.get (tool_name t) (tools r)) eqn:E; [done|]. intros _.
    unfold JsMap.has. rewrite JsMap_get_set_eq, JsMap_remove_set.
    rewrite JsMap_remove_absent by done. by destruct r.
Qed.

Lemma find_app_last {A} (f : A -> bool) l x :
  List.find f (rev (l ++ [x])) = if f x then Some x else List.find f (rev l).
Proof. rewrite rev_app_distr. reflexivity. Qed.

Lemma get_registerMany ts r name :
  get name (registerMany ts r)
  = match last_named name ts with
    | Some tool => Some tool
    | None => get name r
    end.
Proof.
  unfold registerMany, last_named. revert r.
  induction ts as [|t ts IH] using rev_ind; intros r; [done|].
  rewrite fold_left_app, find_app_last. simpl.
  destruct (String.eqb (tool_name t) name) eqn:E.
  - apply String.eqb_eq in E. subst name. apply get_register_eq.
  - apply String.eqb_neq in E. rewrite get_register_ne by done. apply IH.
Qed.

Lemma names_register_elem r t name :
  name ∈ names (register t r) <-> name ∈ names r \/ name = tool_name t.
Proof.
  unfold names, register; simpl.
  destruct (JsMap.get (tool_name t) (tools r)) as [t'|] eqn:E.
  - rewrite (JsMap_keys_set_present _ _ _ _ E). split; [by left|].
    intros [Hin | ->]; [done|].
    destruct (decide (tool_name t ∈ JsMap.keys (tools r))) as [|Hn]; [done|].
    apply JsMap_get_None_keys in Hn. congruence.
  - rewrite (JsMap_keys_set_absent _ _ _ E), elem_of_app, list_elem_of_singleton.
    done.
Qed.

Lemma size_register_le r t : size r <= size (register t r) <= S (size r).
Proof.
  unfold size, register; simpl.
  destruct (JsMap.get (tool_name t) (tools r)) as [t'|] eqn:E.
  - rewrite (JsMap_size_set_present _ _ _ _ E). lia.
  - rewrite (JsMap_size_set_absent _ _ _ E). lia.
Qed.
(** X6. [registerMany(ts)] is last-write-wins over the batch: [get(name)]
    afterwards is the last tool of [ts] with that name, and the tool
    registered before when [ts] has none; the names afterwards are those
    before and those of [ts], none listed twice; the size grows by at most
    the length of [ts]; an empty batch changes nothing. *)
Theorem registerMany_last_wins ts r :
  (forall name,
     get name (registerMany ts r)
     = match last_named name ts with
       | Some tool => Some tool
       | None => get name r
       end)
  /\ (forall name, name ∈ names (registerMany ts r)
                   <-> name ∈ names r \/ name ∈ map tool_name ts)
  /\ (NoDup (names r) -> NoDup (names (registerMany ts r)))
  /\ size r <= size (registerMany ts r) <= size r + length ts
  /\ registerMany [] r = r.
Proof.
  split; [intros name; apply get_registerMany|].
  unfold registerMany.
  split; [|split; [|split; [|done]]].
  - revert r. induction ts as [|t ts IH]; intros r name; simpl.
    + split; [by left|]. intros [?|Hin]; [done|]. by apply elem_of_nil in Hin.
    + rewrite IH, names_register_elem, elem_of_cons. tauto.
  - revert r. induction ts as [|t ts IH]; intros r Hnd; simpl; [done|].
    by apply IH, register_NoDup.
  - revert r. induction ts as [|t ts IH]; intros r; simpl; [lia|].
    pose proof (IH (register t r)). pose proof (size_register_le r t). lia.
Qed.

End RegistryInvariant.

(** ** [Promise.all]: the time it takes *)

Section PromiseTiming.
Context {A : Type}.
Implicit Types (ps : list (Async A)) (order : list nat).







End PromiseTiming.

(** ** Timeouts, sequential execution and result events *)

Section ExecutorTiming.
Context `{JsHost}.
Implicit Types (ex : ToolExecutor) (call : ToolCallContent)
  (ctx : ExecutionContext) (tool : Tool).

Lemma elapsed_async_bind {A B} (m : Async A) (k : A -> Async B) :
  elapsed (async_bind m k)
  = match settled m with
    | Return a => elapsed m + elapsed (k a)
    | Throw _ => elapsed m
    end.
Proof. unfold async_bind. by destruct (settled m). Qed.

Lemma elapsed_async_catch {A} (m : Async A) (h : Thrown -> Async A) :
  elapsed (async_catch m h)
  = match settled m with
    | Return _ => elapsed m
    | Throw e => elapsed m + elapsed (h e)
    end.
Proof. unfold async_catch. by destruct (settled m). Qed.

(** An executor without hooks takes the time its tool run takes. *)
Lemma execute_plain ex call ctx tool :
  get (call_name call) (registry ex) = Some tool ->
  onBeforeExecute (options ex) = None ->
  onAfterExecute (options ex) = None ->
  settled (execute ex call ctx)
  = match settled (executeWithTimeout ex tool call ctx) with
    | Return r => Return (toolResult_of call r)
    | Throw e => Return (errorResult_of call e)
    end
  /\ elapsed (execute ex call ctx) = elapsed (executeWithTimeout ex tool call ctx).
Proof.
  intros Hget Hb Ha. split.
  - rewrite (settled_execute_found _ _ _ _ Hget).
    unfold run_before, run_after. rewrite Hb, Ha. simpl.
    by destruct (settled (executeWithTimeout ex tool call ctx)).
  - unfold execute. rewrite Hget.
    rewrite elapsed_async_catch, settled_async_bind, elapsed_async_bind.
    unfold run_before, run_after. rewrite Hb, Ha. simpl.
    rewrite settled_async_bind, elapsed_async_bind.
    destruct (settled (executeWithTimeout ex tool call ctx)); simpl; lia.
Qed.
(** X7. The timeout of an executor without hooks, on a registered tool.
    A timeout of 0 is no timeout, and a tool that settles before the
    timer fires is reported as without one: its result or its error,
    after the time it takes.  A tool that takes longer than the timer is
    reported when the timer fires as the error block
    ["Tool execution timed out after <timeout>ms"], and with a timeout
    other than 0 [execute] never takes longer than the timer.  The timer
    runs for the timeout when that lies between 1 and [2^31 - 1]
    milliseconds, and for 1 millisecond when the timeout is negative or
    [2^31] and more: such a timeout cuts off every tool that takes more
    than a millisecond. *)
Theorem execute_timeout ex call ctx tool t :
  get (call_name call) (registry ex) = Some tool ->
  timeout (options ex) = Some t ->
  onBeforeExecute (options ex) = None ->
  onAfterExecute (options ex) = None ->
  (t = 0%Z \/ elapsed (tool_execute tool (call_arguments call) ctx) < timer_delay t ->
     settled (execute ex call ctx)
     = match settled (tool_execute tool (call_arguments call) ctx) with
       | Return r =>
           Return {| toolCallId := call_id call;
                     result := match error r with
                               | Some e => e
                               | None => output r
                               end;
                     isError := Some (match error r with
                                      | Some e => negb (String.eqb e "")
                                      | None => false
                                      end) |}
       | Throw e =>
           Return {| toolCallId := call_id call;
                     result := error_message e;
                     isError := Some true |}
       end
     /\ elapsed (execute ex call ctx)
        = elapsed (tool_execute tool (call_arguments call) ctx))
  /\ (t <> 0%Z ->
      timer_delay t < elapsed (tool_execute tool (call_arguments call) ctx) ->
      settled (execute ex call ctx)
      = Return {| toolCallId := call_id call;
                  result := "Tool execution timed out after "
                            +:+ show_Z t +:+ "ms";
                  isError := Some true |}
      /\ elapsed (execute ex call ctx) = timer_delay t)
  /\ (t <> 0%Z -> elapsed (execute ex call ctx) <= timer_delay t)
  /\ ((1 <= t <= 2147483647)%Z -> timer_delay t = Z.to_nat t)
  /\ ((t < 1 \/ 2147483647 < t)%Z -> timer_delay t = 1).
Proof.
  intros Hget Ht Hb Ha.
  destruct (execute_plain ex call ctx tool Hget Hb Ha) as [Hs He].
  rewrite Hs, He.
  set (p := tool_execute tool (call_arguments call) ctx).
  split; [|split; [|split; [|split]]].
  - intros Hcase.
    rewrite (executeWithTimeout_in_time ex tool call ctx).
    + split; [|done]. fold p. by destruct (settled p).
    + intros t0 Ht0 Hne. rewrite Ht in Ht0. injection Ht0 as <-.
      by destruct Hcase.
  - intros Hne Hlate.
    rewrite (executeWithTimeout_late ex tool call ctx t Ht Hne)
      by (fold p; lia).
    done.
  - intros Hne. destruct (timer_delay t <=? elapsed p)%nat eqn:E.
    + apply Nat.leb_le in E.
      by rewrite (executeWithTimeout_late ex tool call ctx t Ht Hne).
    + apply Nat.leb_gt in E.
      rewrite (executeWithTimeout_in_time ex tool call ctx).
      * fold p. lia.
      * intros t0 Ht0 _. rewrite Ht in Ht0. by injection Ht0 as <-.
  - intros [Hlo Hhi]. unfold timer_delay.
    assert ((t <? 1)%Z = false) as -> by (apply Z.ltb_ge; lia).
    assert ((2147483647 <? t)%Z = false) as -> by (apply Z.ltb_ge; lia).
    done.
  - intros Hout. unfold timer_delay.
    destruct Hout as [Hlo | Hhi].
    + assert ((t <? 1)%Z = true) as -> by (apply Z.ltb_lt; lia). done.
    + assert ((2147483647 <? t)%Z = true) as -> by (apply Z.ltb_lt; lia).
      by rewrite orb_true_r.
Qed.


Lemma find_call_id (calls : list ToolCallContent) id :
  id ∈ map call_id calls ->
  exists c, List.find (fun c => String.eqb (call_id c) id) calls = Some c
            /\ c ∈ calls /\ call_id c = id.
Proof.
  induction calls as [|c calls IH]; simpl.
  - intros Hin. by apply elem_of_nil in Hin.
  - intros Hin. destruct (String.eqb (call_id c) id) eqn:E.
    + apply String.eqb_eq in E. exists c. split; [done|]. split; [left|done].
    + apply String.eqb_neq in E. apply elem_of_cons in Hin as [Hin|Hin];
        [congruence|].
      destruct (IH Hin) as (c' & Hf & Hc' & Hid). exists c'.
      split; [done|]. split; [by right|done].
Qed.

Lemma find_call_id_NoDup (calls : list ToolCallContent) i c :
  NoDup (map call_id calls) ->
  calls !! i = Some c ->
  List.find (fun c' => String.eqb (call_id c') (call_id c)) calls = Some c.
Proof.
  revert i. induction calls as [|c0 calls IH]; intros i Hnd Hi; [done|].
  simpl in Hnd. apply NoDup_cons in Hnd as [Hc0 Hnd]. simpl.
  destruct i as [|i]; simpl in Hi.
  - injection Hi as ->. by rewrite String.eqb_refl.
  - destruct (String.eqb (call_id c0) (call_id c)) eqn:E.
    + apply String.eqb_eq in E. exfalso. apply Hc0. rewrite E.
      apply list_elem_of_fmap_2. by eapply list_elem_of_lookup_2.
    + by apply (IH i).
Qed.
(** X10. The [tool_result] events that [run] and [stream] build for the
    results of [executeAll] never fall back to the name ["unknown"]: each
    carries the name of a call with the result's identifier, the first
    such call of the step; when the identifiers of the step's calls are
    pairwise distinct, the event for the [i]-th result names the [i]-th
    call. *)
Theorem tool_result_events_name_calls ex calls ctx a results :
  executeAll ex calls ctx = Some a ->
  settled a = Return results ->
  Forall (fun r =>
            exists c, c ∈ calls
                      /\ call_id c = toolCallId r
                      /\ tool_result_event calls r
                         = ev_tool_result (toolCallId r) (call_name c)
                             (result r) (isError r)) results
  /\ (NoDup (map call_id calls) ->
      forall i c r, calls !! i = Some c -> results !! i = Some r ->
        tool_result_event calls r
        = ev_tool_result (call_id c) (call_name c) (result r) (isError r)).
Proof.
  intros Ha Hs.
  destruct (executeAll_fulfilled ex calls ctx) as (a' & results' & Ha' & Hs' & Hf).
  rewrite Ha in Ha'. injection Ha' as <-. rewrite Hs in Hs'. injection Hs' as <-.
  pose proof (Forall2_call_ids _ _ _ Hf) as Hids.
  split.
  - apply Forall_forall. intros r Hr.
    assert (Hin : toolCallId r ∈ map call_id calls).
    { rewrite <- Hids. by apply list_elem_of_fmap_2. }
    destruct (find_call_id calls _ Hin) as (c & Hfind & Hc & Hid).
    exists c. split; [done|]. split; [done|].
    unfold tool_result_event. by rewrite Hfind.
  - intros Hnd i c r Hc Hr.
    destruct (Forall2_lookup_l _ _ _ _ _ Hf Hc) as (r' & Hr' & _ & Hid).
    rewrite Hr in Hr'. injection Hr' as <-.
    unfold tool_result_event. rewrite Hid.
    by rewrite (find_call_id_NoDup calls i c Hnd Hc).
Qed.

End ExecutorTiming.

(** ** What every run keeps *)

Section HistoryLemmas.
Context `{JsHost}.
Local Open Scope agent_scope.
Implicit Types (a : Agent) (w : World).

Lemma configured_mono a s s' r :
  messages s `prefix_of` messages s' ->
  systemPrompt s' = systemPrompt s ->
  configured a s' r -> configured a s r.
Proof.
  intros Hp Hs (? & ? & ? & ? & ? & Hm).
  repeat split; try done; [congruence|]. by etrans.
Qed.

Lemma chained_nil : chained [].
Proof. intros i j x y _ Hx. done. Qed.

Lemma chained_singleton (x : list Message) : chained [x].
Proof.
  intros i j y z _ Hy Hz.
  apply list_lookup_singleton_Some in Hy as [_ <-].
  by apply list_lookup_singleton_Some in Hz as [_ <-].
Qed.

Lemma chained_app (l l' : list (list Message)) mid :
  chained l -> chained l' ->
  Forall (fun x => x `prefix_of` mid) l ->
  Forall (fun y => mid `prefix_of` y) l' ->
  chained (l ++ l').
Proof.
  intros Hl Hl' Hlow Hhigh i j x y Hij Hx Hy.
  apply lookup_app_Some in Hx as [Hx | [Hi Hx]];
    apply lookup_app_Some in Hy as [Hy | [Hj Hy]].
  - by apply (Hl i j).
  - rewrite Forall_lookup in Hlow. rewrite Forall_lookup in Hhigh.
    etrans; [by eapply Hlow | by eapply Hhigh].
  - apply lookup_lt_Some in Hy. lia.
  - apply (Hl' (i - length l) (j - length l)); [lia|done|done].
Qed.

(** A heap that differs by growth only, with no inference request. *)
Lemma advances_quiet a w w' :
  messages (session w) `prefix_of` messages (session w') ->
  session_id (session w') = session_id (session w) ->
  systemPrompt (session w') = systemPrompt (session w) ->
  session_model (session w') = session_model (session w) ->
  draws w <= draws w' ->
  delivered w `prefix_of` delivered w' ->
  yielded w `prefix_of` yielded w' ->
  requests w' = requests w ->
  advances a 0 w w'.
Proof.
  intros. repeat split; try done. exists [].
  rewrite app_nil_r. split; [done|]. split; [done|].
  split; [constructor|]. split; [constructor|]. apply chained_nil.
Qed.

Lemma advances_refl a w : advances a 0 w w.
Proof. by apply advances_quiet. Qed.

Lemma advances_trans a n1 n2 w w1 w2 :
  advances a n1 w w1 -> advances a n2 w1 w2 -> advances a (n1 + n2) w w2.
Proof.
  intros (Hm & Hi & Hp & Hmo & Hd & Hdl & Hy & new & Hr & Hl & Hc & Hup & Hch)
         (Hm' & Hi' & Hp' & Hmo' & Hd' & Hdl' & Hy' & new' & Hr' & Hl' & Hc'
          & Hup' & Hch').
  split; [by etrans|]. split; [congruence|]. split; [congruence|].
  split; [congruence|]. split; [lia|]. split; [by etrans|]. split; [by etrans|].
  exists (new ++ new'). split; [by rewrite Hr', Hr, app_assoc|].
  split; [rewrite length_app; lia|]. split; [|split].
  - apply Forall_app. split; [done|].
    eapply Forall_impl; [exact Hc'|]. intros r. by apply configured_mono.
  - apply Forall_app. split; [|done].
    eapply Forall_impl; [exact Hup|]. intros r Hr1. simpl in *. by etrans.
  - rewrite map_app.
    apply (chained_app _ _ (messages (session w1))); [done|done| |].
    + by apply Forall_fmap.
    + apply Forall_fmap. eapply Forall_impl; [exact Hc'|].
      intros r (_ & _ & _ & _ & _ & Hpre). exact Hpre.
Qed.

Lemma advances_weaken a n n' w w' :
  n <= n' -> advances a n w w' -> advances a n' w w'.
Proof.
  intros Hn (Hm & Hi & Hp & Hmo & Hd & Hdl & Hy & new & Hr & Hl & Hc).
  repeat split; try done. exists new. split; [done|]. split; [lia|done].
Qed.

Lemma keeps_weaken a n n' {A} (m : M A) : n <= n' -> keeps a n m -> keeps a n' m.
Proof. intros Hn Hm w. by eapply advances_weaken. Qed.

Lemma keeps_ret a {A} (x : A) : keeps a 0 (ret x).
Proof. intros w. apply advances_refl. Qed.

Lemma keeps_throw a {A} (e : Thrown) : keeps a 0 (throw (A:=A) e).
Proof. intros w. apply advances_refl. Qed.

Lemma keeps_bind a n1 n2 {A B} (m : M A) (k : A -> M B) :
  keeps a n1 m -> (forall x, keeps a n2 (k x)) -> keeps a (n1 + n2) (bind m k).
Proof.
  intros Hm Hk w. unfold bind. specialize (Hm w).
  destruct (m w) as [[x|e|] w1]; simpl in *.
  - eapply advances_trans; [exact Hm | apply Hk].
  - eapply advances_weaken; [|exact Hm]. lia.
  - eapply advances_weaken; [|exact Hm]. lia.
Qed.

Lemma keeps_bind0 a n {A B} (m : M A) (k : A -> M B) :
  keeps a 0 m -> (forall x, keeps a n (k x)) -> keeps a n (bind m k).
Proof. intros Hm Hk. by apply (keeps_bind a 0 n). Qed.

Lemma keeps_try_catch a n {A} (m : M A) (h : Thrown -> M A) :
  keeps a n m -> (forall e, keeps a 0 (h e)) -> keeps a n (try_catch m h).
Proof.
  intros Hm Hh w. unfold try_catch. specialize (Hm w).
  destruct (m w) as [[x|e|] w1]; simpl in *; try done.
  rewrite <- (Nat.add_0_r n). eapply advances_trans; [exact Hm | apply Hh].
Qed.

Lemma keeps_for_each a {A} (l : list A) (f : A -> M unit) :
  (forall x, keeps a 0 (f x)) -> keeps a 0 (for_each l f).
Proof.
  intros Hf. induction l as [|x l IH]; simpl; [apply keeps_ret|].
  apply keeps_bind0; [apply Hf | intros _; apply IH].
Qed.

Ltac keeps_prim :=
  intros w; apply advances_quiet; simpl; try done; try lia;
  try (by apply prefix_app_r).

Lemma keeps_generateId a : keeps a 0 generateId.
Proof. keeps_prim. Qed.

Lemma keeps_new_Date a : keeps a 0 new_Date.
Proof. keeps_prim. Qed.

Lemma keeps_get_session a : keeps a 0 get_session.
Proof. keeps_prim. Qed.

Lemma keeps_push_message a m : keeps a 0 (push_message m).
Proof. keeps_prim. Qed.

Lemma keeps_updateSessionStatus a st : keeps a 0 (updateSessionStatus st).
Proof. keeps_prim. Qed.

Lemma keeps_yield_event a ev : keeps a 0 (yield_event ev).
Proof. keeps_prim. Qed.

Lemma keeps_await_promise a {A} (p : option (Async A)) : keeps a 0 (await_promise p).
Proof.
  intros w. unfold await_promise.
  destruct p as [p|]; [destruct (settled p)|]; apply advances_refl.
Qed.

Lemma keeps_emit a ev : keeps a 0 (emit a ev).
Proof.
  intros w. unfold emit. destruct (onEvent (config a)) as [cb|].
  - destruct (cb (delivered w) ev); revert w; keeps_prim.
  - apply advances_refl.
Qed.

Lemma advances_log_request a w :
  advances a 1 w (log_request (request_of a (session w)) w).
Proof.
  repeat split; simpl; try done.
  exists [request_of a (session w)]. split; [done|]. split; [done|].
  split; [by repeat constructor|]. split; [by repeat constructor|].
  apply chained_singleton.
Qed.

Lemma keeps_call_llm a : keeps a 1 (call_llm a).
Proof.
  intros w. unfold call_llm.
  destruct (LLMClient_call _ _ _); apply advances_log_request.
Qed.

Lemma keeps_open_stream a : keeps a 1 (open_stream a).
Proof. intros w. apply advances_log_request. Qed.

Lemma keeps_new_message a r cs : keeps a 0 (new_message r cs).
Proof.
  unfold new_message.
  apply keeps_bind0; [apply keeps_generateId|]. intros mid.
  apply keeps_bind0; [apply keeps_new_Date|]. intros date. apply keeps_ret.
Qed.

Lemma keeps_addUserMessage a text : keeps a 0 (addUserMessage text).
Proof.
  unfold addUserMessage.
  apply keeps_bind0; [apply keeps_generateId|]. intros mid.
  apply keeps_bind0; [apply keeps_new_Date|]. intros date.
  apply keeps_bind0; [apply keeps_push_message|]. intros _. apply keeps_ret.
Qed.

Lemma keeps_run_tools a out m calls :
  (forall ev, keeps a 0 (out ev)) -> keeps a 0 (run_tools a out m calls).
Proof.
  intros Hout. unfold run_tools.
  apply keeps_bind0; [apply keeps_get_session|]. intros s.
  apply keeps_bind0; [apply keeps_await_promise|]. intros results.
  apply keeps_bind0; [apply keeps_new_message|]. intros toolMessage.
  apply keeps_bind0; [apply keeps_push_message|]. intros _.
  apply keeps_bind0; [apply Hout|]. intros _.
  apply keeps_bind0; [apply keeps_for_each; intros r; apply Hout|]. intros _.
  apply Hout.
Qed.

Lemma keeps_emit_text a c : keeps a 0 (emit_text a c).
Proof.
  destruct c; simpl; try apply keeps_ret.
  apply keeps_bind0; [apply keeps_emit|]. intros _. apply keeps_emit.
Qed.

Lemma keeps_run_loop a budget step : keeps a budget (run_loop a budget step).
Proof.
  revert step. induction budget as [|budget IH]; intros step; simpl.
  - apply keeps_ret.
  - apply keeps_bind0; [apply keeps_emit|]. intros _.
    apply (keeps_bind a 1 budget); [apply keeps_call_llm|]. intros response.
    apply keeps_bind0; [apply keeps_new_message|]. intros assistantMessage.
    apply keeps_bind0; [apply keeps_push_message|]. intros _.
    apply keeps_bind0; [apply keeps_emit|]. intros _.
    apply keeps_bind0; [apply keeps_for_each, keeps_emit_text|]. intros _.
    destruct (length (tool_calls_of (out_content response)) =? 0)%nat.
    + apply (keeps_weaken a 0); [lia|].
      apply keeps_bind0; [apply keeps_emit|]. intros _. apply keeps_ret.
    + apply keeps_bind0; [apply keeps_for_each; intros c; apply keeps_emit|].
      intros _.
      apply keeps_bind0; [apply keeps_run_tools, keeps_emit|]. intros _.
      apply IH.
Qed.

Lemma keeps_after_loop a step : keeps a 0 (after_loop a step).
Proof.
  unfold after_loop. destruct (maxSteps (config a) <=? step)%nat.
  - apply keeps_throw.
  - apply keeps_updateSessionStatus.
Qed.

(** [run] and [stream] start their loop on the heap [started]. *)
Lemma run_started a userMessage w :
  run a userMessage w
  = try_catch
      (let! step := run_loop a (maxSteps (config a)) 0 in
       after_loop a step ;;
       let! s := get_session in
       ret (messages s))
      (fun error =>
         updateSessionStatus status_error ;;
         emit a (ev_error (as_Error error)) ;;
         throw error)
      (started w userMessage).
Proof. reflexivity. Qed.

Lemma stream_started a userMessage w :
  stream a userMessage w
  = try_catch
      (let! step := stream_loop a (maxSteps (config a)) 0 in
       after_loop a step)
      (fun error =>
         updateSessionStatus status_error ;;
         yield_event (ev_error (as_Error error)) ;;
         throw error)
      (started w userMessage).
Proof. reflexivity. Qed.

Lemma keeps_run_body a :
  keeps a (maxSteps (config a))
    (try_catch
      (let! step := run_loop a (maxSteps (config a)) 0 in
       after_loop a step ;;
       let! s := get_session in
       ret (messages s))
      (fun error =>
         updateSessionStatus status_error ;;
         emit a (ev_error (as_Error error)) ;;
         throw error)).
Proof.
  apply keeps_try_catch.
  - apply (keeps_weaken a (maxSteps (config a) + 0)); [lia|].
    apply keeps_bind; [apply keeps_run_loop|]. intros step.
    apply keeps_bind0; [apply keeps_after_loop|]. intros _.
    apply keeps_bind0; [apply keeps_get_session|]. intros s. apply keeps_ret.
  - intros e.
    apply keeps_bind0; [apply keeps_updateSessionStatus|]. intros _.
    apply keeps_bind0; [apply keeps_emit|]. intros _. apply keeps_throw.
Qed.

Lemma keeps_consume a events st : keeps a 0 (consume events st).
Proof.
  revert st. induction events as [|ev events IH]; intros st; simpl.
  - apply keeps_ret.
  - destruct (on_event st ev) as [[st' out] thrown].
    apply keeps_bind0; [apply keeps_for_each, keeps_yield_event|]. intros _.
    destruct thrown; [apply keeps_throw | apply IH].
Qed.

Lemma keeps_stream_loop a budget step : keeps a budget (stream_loop a budget step).
Proof.
  revert step. induction budget as [|budget IH]; intros step; simpl.
  - apply keeps_ret.
  - apply keeps_bind0; [apply keeps_yield_event|]. intros _.
    apply keeps_bind0; [apply keeps_yield_event|]. intros _.
    apply (keeps_bind a 1 budget); [apply keeps_open_stream|]. intros events.
    apply keeps_bind0; [apply keeps_consume|]. intros st.
    apply keeps_bind0; [apply keeps_new_message|]. intros assistantMessage.
    apply keeps_bind0; [apply keeps_push_message|]. intros _.
    destruct (length (st_toolCalls st) =? 0)%nat.
    + apply (keeps_weaken a 0); [lia|]. apply keeps_ret.
    + apply keeps_bind0; [apply keeps_run_tools, keeps_yield_event|]. intros _.
      apply IH.
Qed.

Lemma keeps_stream_body a :
  keeps a (maxSteps (config a))
    (try_catch
      (let! step := stream_loop a (maxSteps (config a)) 0 in
       after_loop a step)
      (fun error =>
         updateSessionStatus status_error ;;
         yield_event (ev_error (as_Error error)) ;;
         throw error)).
Proof.
  apply keeps_try_catch.
  - apply (keeps_weaken a (maxSteps (config a) + 0)); [lia|].
    apply keeps_bind; [apply keeps_stream_loop|]. intros step.
    apply keeps_after_loop.
  - intros e.
    apply keeps_bind0; [apply keeps_updateSessionStatus|]. intros _.
    apply keeps_bind0; [apply keeps_yield_event|]. intros _. apply keeps_throw.
Qed.

(** What [advances] from the heap [started] says about the heap the run
    began on. *)
Lemma advances_from_started a n w userMessage w' :
  advances a n (started w userMessage) w' ->
  (exists added,
     messages (session w')
     = messages (session w) ++ user_message w userMessage :: added)
  /\ session_id (session w') = session_id (session w)
  /\ systemPrompt (session w') = systemPrompt (session w)
  /\ session_model (session w') = session_model (session w)
  /\ exists new,
       requests w' = requests w ++ new
       /\ length new <= n
       /\ Forall (fun r =>
                    in_model r = cfg_model (config a)
                    /\ in_systemPrompt r = systemPrompt (session w)
                    /\ in_tools r = toToolDefinitions (agent_registry a)
                    /\ in_maxTokens r = maxTokens (config a)
                    /\ in_temperature r = temperature (config a)
                    /\ (messages (session w) ++ [user_message w userMessage])
                         `prefix_of` in_messages r
                    /\ in_messages r `prefix_of` messages (session w')) new
       /\ chained (map in_messages new).
Proof.
  intros (Hm & Hi & Hp & Hmo & _ & _ & _ & new & Hr & Hl & Hc & Hup & Hch).
  simpl in *. split.
  { destruct Hm as [added Hm]. exists added. by rewrite Hm, <- app_assoc. }
  split; [done|]. split; [done|]. split; [done|].
  exists new. split; [done|]. split; [done|]. split; [|done].
  rewrite Forall_forall in Hc. rewrite Forall_forall in Hup.
  apply Forall_forall. intros r Hin.
  destruct (Hc r Hin) as (? & ? & ? & ? & ? & ?). pose proof (Hup r Hin). done.
Qed.
(** X11. Whatever the callback does and however [run] ends, it only
    appends to the transcript, the user message first, and leaves the
    session's identifier, system prompt and model as they were.  It makes
    at most [maxSteps] inference requests; each carries the agent's
    model, tools, token limit and temperature (not the session's model)
    and the session's system prompt, and a transcript that holds the
    transcript so far with the user message, is a prefix of the final
    transcript, and is a prefix of the transcript of every later
    request. *)
Theorem run_keeps_history a userMessage w :
  (exists added,
     messages (session (snd (run a userMessage w)))
     = messages (session w) ++ user_message w userMessage :: added)
  /\ session_id (session (snd (run a userMessage w))) = session_id (session w)
  /\ systemPrompt (session (snd (run a userMessage w))) = systemPrompt (session w)
  /\ session_model (session (snd (run a userMessage w))) = session_model (session w)
  /\ exists new,
       requests (snd (run a userMessage w)) = requests w ++ new
       /\ length new <= maxSteps (config a)
       /\ Forall (fun r =>
                    in_model r = cfg_model (config a)
                    /\ in_systemPrompt r = systemPrompt (session w)
                    /\ in_tools r = toToolDefinitions (agent_registry a)
                    /\ in_maxTokens r = maxTokens (config a)
                    /\ in_temperature r = temperature (config a)
                    /\ (messages (session w) ++ [user_message w userMessage])
                         `prefix_of` in_messages r
                    /\ in_messages r `prefix_of` messages (session (snd (run a userMessage w)))) new
       /\ chained (map in_messages new).
Proof.
  rewrite run_started. apply advances_from_started, keeps_run_body.
Qed.
(** X12. The same for [stream]: the transcript is only appended to, the
    rest of the session is kept, at most [maxSteps] inference requests are
    made, each configured by the agent and carrying a transcript that
    extends the ones before it. *)
Theorem stream_keeps_history a userMessage w :
  (exists added,
     messages (session (snd (stream a userMessage w)))
     = messages (session w) ++ user_message w userMessage :: added)
  /\ session_id (session (snd (stream a userMessage w))) = session_id (session w)
  /\ systemPrompt (session (snd (stream a userMessage w))) = systemPrompt (session w)
  /\ session_model (session (snd (stream a userMessage w))) = session_model (session w)
  /\ exists new,
       requests (snd (stream a userMessage w)) = requests w ++ new
       /\ length new <= maxSteps (config a)
       /\ Forall (fun r =>
                    in_model r = cfg_model (config a)
                    /\ in_systemPrompt r = systemPrompt (session w)
                    /\ in_tools r = toToolDefinitions (agent_registry a)
                    /\ in_maxTokens r = maxTokens (config a)
                    /\ in_temperature r = temperature (config a)
                    /\ (messages (session w) ++ [user_message w userMessage])
                         `prefix_of` in_messages r
                    /\ in_messages r `prefix_of` messages (session (snd (stream a userMessage w)))) new
       /\ chained (map in_messages new).
Proof.
  rewrite stream_started. apply advances_from_started, keeps_stream_body.
Qed.

(** ** Runs settle *)

Lemma settles_ret {A} (x : A) : settles (ret x).
Proof. by intros w. Qed.

Lemma settles_throw {A} (e : Thrown) : settles (throw (A:=A) e).
Proof. by intros w. Qed.

Lemma settles_bind {A B} (m : M A) (k : A -> M B) :
  settles m -> (forall x, settles (k x)) -> settles (bind m k).
Proof.
  intros Hm Hk w. unfold bind. specialize (Hm w).
  destruct (m w) as [[x|e|] w1]; simpl in *; [apply Hk|done|done].
Qed.

Lemma settles_try_catch {A} (m : M A) (h : Thrown -> M A) :
  settles m -> (forall e, settles (h e)) -> settles (try_catch m h).
Proof.
  intros Hm Hh w. unfold try_catch. specialize (Hm w).
  destruct (m w) as [[x|e|] w1]; simpl in *; [done|apply Hh|done].
Qed.

Lemma settles_for_each {A} (l : list A) (f : A -> M unit) :
  (forall x, settles (f x)) -> settles (for_each l f).
Proof.
  intros Hf. induction l as [|x l IH]; simpl; [apply settles_ret|].
  apply settles_bind; [apply Hf | intros _; apply IH].
Qed.

Lemma settles_emit a ev : settles (emit a ev).
Proof.
  intros w. unfold emit. destruct (onEvent (config a)) as [cb|]; [|done].
  by destruct (cb (delivered w) ev).
Qed.

Lemma settles_call_llm a : settles (call_llm a).
Proof. intros w. unfold call_llm. by destruct (LLMClient_call _ _ _). Qed.

Lemma settles_new_message r cs : settles (new_message r cs).
Proof. by intros w. Qed.

Lemma settles_emit_text a c : settles (emit_text a c).
Proof.
  destruct c; simpl; try apply settles_ret.
  apply settles_bind; [apply settles_emit|]. intros _. apply settles_emit.
Qed.

Lemma settles_run_tools a out m calls :
  (forall ev, settles (out ev)) -> settles (run_tools a out m calls).
Proof.
  intros Hout. unfold run_tools.
  apply settles_bind; [by intros w|]. intros s.
  apply settles_bind.
  { intros w.
    destruct (executeAll_fulfilled (executor a) calls
                {| sessionId := session_id s; messageId := msg_id m;
                   abortSignal := None |}) as (p & results & Hp & Hs & _).
    unfold await_promise. by rewrite Hp, Hs. }
  intros results.
  apply settles_bind; [apply settles_new_message|]. intros toolMessage.
  apply settles_bind; [by intros w|]. intros _.
  apply settles_bind; [apply Hout|]. intros _.
  apply settles_bind; [apply settles_for_each; intros r; apply Hout|]. intros _.
  apply Hout.
Qed.

Lemma settles_run_loop a budget step : settles (run_loop a budget step).
Proof.
  revert step. induction budget as [|budget IH]; intros step; simpl.
  - apply settles_ret.
  - apply settles_bind; [apply settles_emit|]. intros _.
    apply settles_bind; [apply settles_call_llm|]. intros response.
    apply settles_bind; [apply settles_new_message|]. intros assistantMessage.
    apply settles_bind; [by intros w|]. intros _.
    apply settles_bind; [apply settles_emit|]. intros _.
    apply settles_bind; [apply settles_for_each, settles_emit_text|]. intros _.
    destruct (length (tool_calls_of (out_content response)) =? 0)%nat.
    + apply settles_bind; [apply settles_emit|]. intros _. apply settles_ret.
    + apply settles_bind; [apply settles_for_each; intros c; apply settles_emit|].
      intros _.
      apply settles_bind; [apply settles_run_tools, settles_emit|]. intros _.
      apply IH.
Qed.

Lemma settles_after_loop a step : settles (after_loop a step).
Proof.
  unfold after_loop. by destruct (maxSteps (config a) <=? step)%nat.
Qed.

Lemma settles_consume events st : settles (consume events st).
Proof.
  revert st. induction events as [|ev events IH]; intros st; simpl.
  - apply settles_ret.
  - destruct (on_event st ev) as [[st' out] thrown].
    apply settles_bind; [apply settles_for_each; by intros x w|]. intros _.
    destruct thrown; [apply settles_throw | apply IH].
Qed.

Lemma settles_stream_loop a budget step : settles (stream_loop a budget step).
Proof.
  revert step. induction budget as [|budget IH]; intros step; simpl.
  - apply settles_ret.
  - apply settles_bind; [by intros w|]. intros _.
    apply settles_bind; [by intros w|]. intros _.
    apply settles_bind; [by intros w|]. intros events.
    apply settles_bind; [apply settles_consume|]. intros st.
    apply settles_bind; [apply settles_new_message|]. intros assistantMessage.
    apply settles_bind; [by intros w|]. intros _.
    destruct (length (st_toolCalls st) =? 0)%nat.
    + apply settles_ret.
    + apply settles_bind; [apply settles_run_tools; by intros ev w|]. intros _.
      apply IH.
Qed.

(** The session of a heap after [emit]. *)
Lemma session_emit a ev w : session (snd (emit a ev w)) = session w.
Proof.
  unfold emit. destruct (onEvent (config a)) as [cb|]; [|done].
  by destruct (cb (delivered w) ev).
Qed.

(** The [catch] block of [run] leaves the session in [error] and throws. *)
Lemma run_handler a {A} e w :
  status (session
            (snd ((updateSessionStatus status_error ;;
                   emit a (ev_error (as_Error e)) ;; throw (A:=A) e) w)))
  = status_error
  /\ threw (fst ((updateSessionStatus status_error ;;
                  emit a (ev_error (as_Error e)) ;; throw (A:=A) e) w)).
Proof.
  unfold bind at 1 3. simpl. unfold bind.
  match goal with |- context [emit a ?ev ?w2] =>
    pose proof (session_emit a ev w2) as Hs;
    pose proof (settles_emit a ev w2) as Hp;
    destruct (emit a ev w2) as [[[]|e'|] w3]
  end; simpl in *; rewrite Hs; done.
Qed.

Lemma settles_run_body a :
  settles
    (let! step := run_loop a (maxSteps (config a)) 0 in
     after_loop a step ;;
     let! s := get_session in
     ret (messages s)).
Proof.
  apply settles_bind; [apply settles_run_loop|]. intros step.
  apply settles_bind; [apply settles_after_loop|]. intros _.
  apply settles_bind; [by intros w'|]. intros s. apply settles_ret.
Qed.
(** X13. [run] always settles, and the session status tells how,
    whatever the callback does: when [run] returns, the status is
    [completed] and the value returned is the session's transcript; when
    it throws, the status is [error]. *)
Theorem run_outcome_and_status a userMessage w :
  (forall msgs,
     fst (run a userMessage w) = Returned msgs ->
     status (session (snd (run a userMessage w))) = status_completed
     /\ msgs = messages (session (snd (run a userMessage w))))
  /\ (forall e,
        fst (run a userMessage w) = Threw e ->
        status (session (snd (run a userMessage w))) = status_error)
  /\ fst (run a userMessage w) <> Pending.
Proof.
  rewrite run_started. unfold try_catch.
  set (w0 := started w userMessage).
  pose proof (settles_run_body a w0) as Hsettles.
  destruct ((let! step := run_loop a (maxSteps (config a)) 0 in
             after_loop a step ;;
             let! s := get_session in
             ret (messages s)) w0) as [[msgs|e|] w1] eqn:Hbody; [| |done].
  - split; [|split; [done|done]].
    intros msgs' [= <-]. simpl.
    apply bind_Returned in Hbody as (step & wl & _ & Hrest).
    apply bind_Returned in Hrest as ([] & wa & Hafter & Hrest).
    unfold after_loop in Hafter.
    destruct (maxSteps (config a) <=? step)%nat; [done|].
    injection Hafter as <-. injection Hrest as <- <-. done.
  - destruct (run_handler a (A:=list Message) e w1) as [Hst Hthrew].
    destruct ((updateSessionStatus status_error ;;
               emit a (ev_error (as_Error e)) ;; throw e) w1)
      as [[msgs|e'|] w2]; simpl in *; done.
Qed.

End HistoryLemmas.

(** ** How [stream] ends *)

Section StreamOutcome.
Context `{JsHost}.
Local Open Scope agent_scope.
Implicit Types (a : Agent) (w : World).

Lemma silent_ret {A} (x : A) : silent (ret x).
Proof. by intros w. Qed.

Lemma silent_throw {A} (e : Thrown) : silent (throw (A:=A) e).
Proof. by intros w. Qed.

Lemma silent_bind {A B} (m : M A) (k : A -> M B) :
  silent m -> (forall x, silent (k x)) -> silent (bind m k).
Proof.
  intros Hm Hk w. unfold bind. specialize (Hm w).
  destruct (m w) as [[x|e|] w1]; simpl in *; [|done|done].
  by rewrite Hk.
Qed.

Lemma silent_try_catch {A} (m : M A) (h : Thrown -> M A) :
  silent m -> (forall e, silent (h e)) -> silent (try_catch m h).
Proof.
  intros Hm Hh w. unfold try_catch. specialize (Hm w).
  destruct (m w) as [[x|e|] w1]; simpl in *; [done| |done].
  by rewrite Hh.
Qed.

Lemma silent_for_each {A} (l : list A) (f : A -> M unit) :
  (forall x, silent (f x)) -> silent (for_each l f).
Proof.
  intros Hf. induction l as [|x l IH]; simpl; [apply silent_ret|].
  apply silent_bind; [apply Hf | intros _; apply IH].
Qed.

Lemma silent_new_message r cs : silent (new_message r cs).
Proof. by intros w. Qed.

Lemma silent_await_promise {A} (p : option (Async A)) : silent (await_promise p).
Proof.
  intros w. unfold await_promise. destruct p as [p|]; [|done].
  by destruct (settled p).
Qed.

Lemma silent_run_tools a m calls : silent (run_tools a yield_event m calls).
Proof.
  unfold run_tools.
  apply silent_bind; [by intros w|]. intros s.
  apply silent_bind; [apply silent_await_promise|]. intros results.
  apply silent_bind; [apply silent_new_message|]. intros toolMessage.
  apply silent_bind; [by intros w|]. intros _.
  apply silent_bind; [by intros w|]. intros _.
  apply silent_bind; [apply silent_for_each; by intros r w|]. intros _.
  by intros w.
Qed.

Lemma silent_consume events st : silent (consume events st).
Proof.
  revert st. induction events as [|ev events IH]; intros st; simpl.
  - apply silent_ret.
  - destruct (on_event st ev) as [[st' out] thrown].
    apply silent_bind; [apply silent_for_each; by intros x w|]. intros _.
    destruct thrown; [apply silent_throw | apply IH].
Qed.

Lemma silent_stream_loop a budget step : silent (stream_loop a budget step).
Proof.
  revert step. induction budget as [|budget IH]; intros step; simpl.
  - apply silent_ret.
  - apply silent_bind; [by intros w|]. intros _.
    apply silent_bind; [by intros w|]. intros _.
    apply silent_bind; [by intros w|]. intros events.
    apply silent_bind; [apply silent_consume|]. intros st.
    apply silent_bind; [apply silent_new_message|]. intros assistantMessage.
    apply silent_bind; [by intros w|]. intros _.
    destruct (length (st_toolCalls st) =? 0)%nat.
    + apply silent_ret.
    + apply silent_bind; [apply silent_run_tools|]. intros _. apply IH.
Qed.

Lemma silent_after_loop a step : silent (after_loop a step).
Proof.
  unfold after_loop. by destruct (maxSteps (config a) <=? step)%nat.
Qed.

Lemma silent_stream a userMessage : silent (stream a userMessage).
Proof.
  unfold stream.
  apply silent_bind; [by intros w|]. intros _.
  apply silent_bind; [by intros w|]. intros _.
  apply silent_try_catch.
  - apply silent_bind; [apply silent_stream_loop|]. intros step.
    apply silent_after_loop.
  - intros e.
    apply silent_bind; [by intros w|]. intros _.
    apply silent_bind; [by intros w|]. intros _. apply silent_throw.
Qed.

Lemma settles_stream_body a :
  settles
    (let! step := stream_loop a (maxSteps (config a)) 0 in
     after_loop a step).
Proof.
  apply settles_bind; [apply settles_stream_loop|]. intros step.
  apply settles_after_loop.
Qed.
(** X14. [stream] always ends: when the generator returns, the status
    is [completed]; when it throws [e], the status is [error] and the last
    event it yielded is the [error] event of [e].  It never calls the
    [onEvent] callback. *)
Theorem stream_outcome_and_status a userMessage w :
  (fst (stream a userMessage w) = Returned tt ->
     status (session (snd (stream a userMessage w))) = status_completed)
  /\ (forall e,
        fst (stream a userMessage w) = Threw e ->
        status (session (snd (stream a userMessage w))) = status_error
        /\ last (yielded (snd (stream a userMessage w)))
           = Some (ev_error (as_Error e)))
  /\ fst (stream a userMessage w) <> Pending
  /\ delivered (snd (stream a userMessage w)) = delivered w.
Proof.
  split; [|split; [|split]]; [| | |apply silent_stream].
  all: rewrite stream_started; unfold try_catch;
    set (w0 := started w userMessage);
    pose proof (settles_stream_body a w0) as Hsettles;
    destruct ((let! step := stream_loop a (maxSteps (config a)) 0 in
               after_loop a step) w0) as [[[]|e|] w1] eqn:Hbody; try done.
  - intros _. simpl.
    apply bind_Returned in Hbody as (step & wl & _ & Hafter).
    unfold after_loop in Hafter.
    destruct (maxSteps (config a) <=? step)%nat; [done|].
    by injection Hafter as <-.
  - intros e' Hthrow. unfold bind, updateSessionStatus, update_session,
      yield_event, throw in *. simpl in *. injection Hthrow as <-.
    split; [done|]. apply last_snoc.
Qed.

End StreamOutcome.

(** ** Runs that fail, runs that answer *)

Section FailureLemmas.
Context `{JsHost}.
Local Open Scope agent_scope.
Implicit Types (a : Agent) (w : World).

(** X15. With [maxSteps = 0] neither mode makes an inference request:
    the user message is appended, the status becomes [error], and
    [MaxStepsExceededError("Max steps exceeded: 0")] is thrown ([stream]
    yields its [error] event first).  In [run], a callback that throws
    when it is handed the [error] event replaces the error: the caller
    gets the callback's error. *)
Theorem zero_budget_fails a userMessage w :
  maxSteps (config a) = 0 ->
  (fst (run a userMessage w)
   = Threw (match onEvent (config a) with
            | None => new_MaxStepsExceededError 0
            | Some cb =>
                match cb (delivered w) (ev_error (new_MaxStepsExceededError 0)) with
                | Return _ => new_MaxStepsExceededError 0
                | Throw e' => e'
                end
            end)
   /\ session (snd (run a userMessage w))
      = with_status (session (started w userMessage)) status_error
   /\ requests (snd (run a userMessage w)) = requests w)
  /\ (fst (stream a userMessage w) = Threw (new_MaxStepsExceededError 0)
      /\ session (snd (stream a userMessage w))
         = with_status (session (started w userMessage)) status_error
      /\ requests (snd (stream a userMessage w)) = requests w
      /\ yielded (snd (stream a userMessage w))
         = yielded w ++ [ev_error (new_MaxStepsExceededError 0)]).
Proof.
  intros Hmax. split.
  - rewrite run_started. unfold try_catch, after_loop. rewrite Hmax. simpl.
    unfold bind at 1. simpl. unfold bind at 1. simpl. unfold bind, emit.
    simpl. destruct (onEvent (config a)) as [cb|]; [|done].
    by destruct (cb (delivered w) _).
  - rewrite stream_started. unfold try_catch, after_loop. rewrite Hmax. done.
Qed.

(** X16. When the first inference call of [run] fails with [e] (and the
    callback, if any, returns normally), [run] throws an [LLMError]: [e]
    itself when it is one, and otherwise
    [LLMError("LLM call failed: <message of e>")].  The session is left in
    [error] with the user message as the only message appended, and one
    request was made. *)
Theorem run_inference_failure a userMessage w e :
  never_throws a ->
  1 <= maxSteps (config a) ->
  responses_create (llm a) (length (requests w))
    (request_of a (session (started w userMessage))) = Throw e ->
  fst (run a userMessage w) = Threw (call_failure e)
  /\ instanceof_LLMError (call_failure e) = true
  /\ status (session (snd (run a userMessage w))) = status_error
  /\ messages (session (snd (run a userMessage w)))
     = messages (session w) ++ [user_message w userMessage]
  /\ requests (snd (run a userMessage w))
     = requests w ++ [request_of a (session (started w userMessage))].
Proof.
  intros Hquiet Hmax Hfail.
  destruct (run_agree_mute a userMessage w Hquiet) as [Hc Hf].
  pose proof (f_equal session Hf) as Hs. pose proof (f_equal requests Hf) as Hr.
  simpl in Hs, Hr. rewrite Hc, Hs, Hr. clear Hc Hf Hs Hr.
  rewrite run_mute_unfold.
  destruct (maxSteps (config a)) as [|budget]; [lia|].
  rewrite run_loop_mute_S.
  change (requests (started w userMessage)) with (requests w).
  unfold LLMClient_call. rewrite Hfail. unfold call_failure.
  destruct (instanceof_LLMError e) eqn:E; simpl; by rewrite ?E.
Qed.

(** [for_each] of [yield_event], and the loop over the events of a step
    that ends on an [error] event. *)
Lemma consume_error body e st w :
  forallb (fun ev => negb (is_error_event ev)) body = true ->
  consume (body ++ [error_event e]) st w
  = (Threw e,
     {| session := session w; draws := draws w; requests := requests w;
        delivered := delivered w;
        yielded := yielded w ++ yields_of body st ++ [ev_error e] |}).
Proof.
  revert st w. induction body as [|ev body IH]; intros st w; simpl.
  - intros _. unfold bind. simpl. by destruct w.
  - intros [Hev Hall]%andb_prop.
    unfold advance. destruct (on_event st ev) as [[st' out] thrown] eqn:Hon.
    unfold bind. rewrite for_each_yield.
    assert (thrown = None) as ->.
    { destruct ev; simpl in *; try done; try by injection Hon as <- <- <-.
      - destruct (JsMap.get _ _); by injection Hon as <- <- <-.
      - destruct (String.eqb _ _); by injection Hon as <- <- <-. }
    rewrite IH by done. simpl. by rewrite <- !app_assoc.
Qed.

Lemma bind_step {A B} (m : M A) (k : A -> M B) w x w1 :
  m w = (Returned x, w1) -> bind m k w = k x w1.
Proof. unfold bind. by intros ->. Qed.

Lemma bind_threw {A B} (m : M A) (k : A -> M B) w e w1 :
  m w = (Threw e, w1) -> bind m k w = (Threw e, w1).
Proof. unfold bind. by intros ->. Qed.

(** A step of the streaming loop whose events end on an [error]. *)
Lemma stream_loop_error a budget step w body e :
  LLMClient_stream (llm a) (length (requests w)) (request_of a (session w))
  = body ++ [error_event e] ->
  forallb (fun ev => negb (is_error_event ev)) body = true ->
  stream_loop a (S budget) step w
  = (Threw e,
     {| session := session w; draws := draws w;
        requests := requests w ++ [request_of a (session w)];
        delivered := delivered w;
        yielded :=
          yielded w
          ++ [ev_step (S step) (maxSteps (config a));
              ev_message_start role_assistant]
          ++ yields_of body stream_start ++ [ev_error e] |}).
Proof.
  intros Hev Hbody. simpl.
  erewrite bind_step by reflexivity.
  erewrite bind_step by reflexivity.
  erewrite bind_step by reflexivity.
  simpl. rewrite Hev.
  erewrite bind_threw by (apply consume_error, Hbody).
  simpl. by rewrite <- !app_assoc.
Qed.

(** X17. When the events of the first step of [stream] end on an
    [error] event, the generator throws that error as it is (it is not
    wrapped in an [LLMError]), after yielding the step's events and the
    [error] event twice: once by the [switch] and once by the [catch]
    block.  The session is left in [error], and no assistant message is
    appended: the text received before the failure is not kept. *)
Theorem stream_inference_failure a userMessage w body e :
  1 <= maxSteps (config a) ->
  LLMClient_stream (llm a) (length (requests w))
    (request_of a (session (started w userMessage)))
  = body ++ [error_event e] ->
  forallb (fun ev => negb (is_error_event ev)) body = true ->
  fst (stream a userMessage w) = Threw e
  /\ status (session (snd (stream a userMessage w))) = status_error
  /\ messages (session (snd (stream a userMessage w)))
     = messages (session w) ++ [user_message w userMessage]
  /\ yielded (snd (stream a userMessage w))
     = yielded w
       ++ [ev_step 1 (maxSteps (config a)); ev_message_start role_assistant]
       ++ yields_of body stream_start
       ++ [ev_error e; ev_error (as_Error e)].
Proof.
  intros Hmax Hev Hbody. rewrite stream_unfold.
  destruct (maxSteps (config a)) as [|budget] eqn:Hsteps; [lia|].
  rewrite (stream_loop_error a budget 0 (started w userMessage) body e Hev Hbody).
  unfold bind, yield_event, throw. simpl.
  split; [done|]. split; [done|]. split; [done|].
  rewrite <- app_assoc. simpl. rewrite Hsteps. by rewrite <- app_assoc.
Qed.

(** A loop that returns before its budget is used up has just appended
    an assistant message without tool calls. *)
Lemma run_loop_mute_break a budget step w s w' :
  run_loop (mute a) budget step w = (Returned s, w') ->
  s < step + budget ->
  exists before m,
    messages (session w') = before ++ [m]
    /\ role m = role_assistant
    /\ tool_calls_of (content m) = []
    /\ tool_results_of (content m) = [].
Proof.
  revert step w. induction budget as [|budget IH]; intros step w Hrun Hlt.
  - injection Hrun as <- <-. lia.
  - rewrite run_loop_mute_S in Hrun.
    destruct (LLMClient_call _ _ _) as [response|e] eqn:Hcall; [|done].
    pose proof (LLMClient_call_no_results _ _ _ _ Hcall) as Hnores.
    cbv zeta in Hrun.
    destruct (length (tool_calls_of (out_content response)) =? 0)%nat eqn:Hlen.
    + injection Hrun as <- <-. simpl. eexists _, _.
      split; [reflexivity|]. simpl. split; [done|]. split; [|done].
      apply Nat.eqb_eq in Hlen. by destruct (tool_calls_of _).
    + apply bind_Returned in Hrun as ([] & w3 & _ & Hrest).
      apply IH in Hrest; [done|lia].
Qed.

(** X18. After a [run] that returns, the last message of the transcript
    is an assistant message without tool calls (and without tool
    results), and [getLastAssistantMessage] returns it. *)
Theorem run_ends_on_answer a userMessage w :
  returned (fst (run a userMessage w)) = true ->
  exists before m,
    transcript_after a userMessage w = before ++ [m]
    /\ role m = role_assistant
    /\ tool_calls_of (content m) = []
    /\ tool_results_of (content m) = []
    /\ getLastAssistantMessage (session (snd (run a userMessage w))) = Some m.
Proof.
  unfold transcript_after.
  destruct (run a userMessage w) as [[msgs|e|] w'] eqn:Hrun; simpl;
    [|done|done].
  intros _.
  apply run_Returned_mute in Hrun as (w0 & Hrun & Hforget).
  assert (Hsess : session w' = session w0)
    by (apply (f_equal session) in Hforget; exact Hforget).
  rewrite Hsess. clear Hsess Hforget w'.
  rewrite run_mute_unfold in Hrun.
  destruct (run_loop (mute a) (maxSteps (config a)) 0 (started w userMessage))
    as [[step|e|] wl] eqn:Hloop; [|done|done].
  destruct (maxSteps (config a) <=? step)%nat eqn:Hle; [done|].
  injection Hrun as <- <-. apply Nat.leb_gt in Hle.
  apply run_loop_mute_break in Hloop as (before & m & Hm & Hrole & Hc & Hr);
    [|lia].
  exists before, m. simpl. split; [done|]. split; [done|]. split; [done|].
  split; [done|].
  apply (getLastAssistantMessage_last _ before); done.
Qed.

Lemma find_is_assistant_rev (msgs : list Message) :
  match List.find is_assistant (rev msgs) with
  | Some m =>
      exists before after,
        msgs = before ++ m :: after
        /\ role m = role_assistant
        /\ Forall (fun m' => role m' <> role_assistant) after
  | None => Forall (fun m' => role m' <> role_assistant) msgs
  end.
Proof.
  induction msgs as [|m msgs IH] using rev_ind; simpl; [constructor|].
  rewrite rev_app_distr. simpl. unfold is_assistant at 1.
  destruct (role m) eqn:Hrole.
  - destruct (List.find is_assistant (rev msgs)) as [m0|].
    + destruct IH as (before & after & -> & Hm0 & Hafter).
      exists before, (after ++ [m]). rewrite <- app_assoc. split; [done|].
      split; [done|]. apply Forall_app. split; [done|].
      constructor; [congruence|constructor].
    + apply Forall_app. split; [done|]. constructor; [congruence|constructor].
  - exists msgs, []. split; [done|]. split; [done|constructor].
  - destruct (List.find is_assistant (rev msgs)) as [m0|].
    + destruct IH as (before & after & -> & Hm0 & Hafter).
      exists before, (after ++ [m]). rewrite <- app_assoc. split; [done|].
      split; [done|]. apply Forall_app. split; [done|].
      constructor; [congruence|constructor].
    + apply Forall_app. split; [done|]. constructor; [congruence|constructor].
Qed.
(** X19. [getLastAssistantMessage] returns the last message whose role
    is [assistant]: no message after it is one; it returns [undefined]
    exactly when the session has no assistant message, as after
    [clearSessionMessages]. *)
Theorem getLastAssistantMessage_spec (s : Session) :
  match getLastAssistantMessage s with
  | Some m =>
      exists before after,
        messages s = before ++ m :: after
        /\ role m = role_assistant
        /\ Forall (fun m' => role m' <> role_assistant) after
  | None => Forall (fun m' => role m' <> role_assistant) (messages s)
  end
  /\ getLastAssistantMessage (clearSessionMessages s) = None.
Proof. split; [apply find_is_assistant_rev | done]. Qed.

End FailureLemmas.

(** ** [LLMClient.call] and [LLMClient.stream] *)

Section ClientLemmas.
Context `{JsHost}.
Implicit Types (c : LLMClient) (input : LLMInput).

Lemma mapResponseStatus_range st :
  mapResponseStatus st = "stop" \/ mapResponseStatus st = "max_tokens"
  \/ mapResponseStatus st = "error".
Proof.
  unfold mapResponseStatus.
  destruct (String.eqb st "completed"); [by left|].
  destruct (String.eqb st "incomplete"); [by right; left|].
  destruct (String.eqb st "failed"); [by right; right | by left].
Qed.

Lemma tool_calls_of_parse_part part : tool_calls_of (parse_part part) = [].
Proof. by destruct part. Qed.

Lemma length_tool_calls_of_parse_item item :
  length (tool_calls_of (parse_item item))
  = if is_function_call item then 1 else 0.
Proof.
  destruct item as [parts| |]; simpl; try done.
  induction parts as [|part parts IH]; simpl; [done|].
  by rewrite tool_calls_of_app, tool_calls_of_parse_part.
Qed.

Lemma length_tool_calls_of_parseResponseOutput response :
  length (tool_calls_of (parseResponseOutput response))
  = length (List.filter is_function_call (resp_output response)).
Proof.
  unfold parseResponseOutput.
  induction (resp_output response) as [|item items IH]; simpl; [done|].
  rewrite tool_calls_of_app, length_app, length_tool_calls_of_parse_item, IH.
  by destruct (is_function_call item).
Qed.
(** X20. What [LLMClient.call] hands back.  An output has a finish
    reason among ["stop"], ["max_tokens"] and ["error"], never
    ["tool_calls"]; its content holds no [tool_result] block and one
    [tool_call] block per function-call item of the response; the usage
    is zero when the response has none.  A failure is always an
    [LLMError]: the backend's own, or
    [LLMError("LLM call failed: <message>")]. *)
Theorem LLMClient_call_output c n input :
  match LLMClient_call c n input with
  | Return r =>
      (finishReason r = "stop" \/ finishReason r = "max_tokens"
       \/ finishReason r = "error")
      /\ finishReason r <> "tool_calls"
      /\ tool_results_of (out_content r) = []
      /\ exists response,
           responses_create c n input = Return response
           /\ length (tool_calls_of (out_content r))
              = length (List.filter is_function_call (resp_output response))
           /\ (resp_usage response = None ->
               usage r = {| inputTokens := 0; outputTokens := 0 |})
  | Throw e =>
      instanceof_LLMError e = true
      /\ exists e0,
           responses_create c n input = Throw e0
           /\ e = call_failure e0
           /\ (instanceof_LLMError e0 = false ->
               e = ErrorObj LLMError ("LLM call failed: " +:+ error_message e0))
  end.
Proof.
  unfold LLMClient_call.
  destruct (responses_create c n input) as [response|e0].
  - simpl. split; [apply mapResponseStatus_range|]. split.
    { destruct (mapResponseStatus_range (default "completed" (resp_status response)))
        as [-> | [-> | ->]]; done. }
    split; [apply parseResponseOutput_no_results|].
    exists response. split; [done|].
    split; [apply length_tool_calls_of_parseResponseOutput|].
    unfold usage_of. by intros ->.
  - unfold call_failure. destruct (instanceof_LLMError e0) eqn:E.
    + split; [done|]. exists e0. by rewrite E.
    + split; [done|]. exists e0. by rewrite E.
Qed.

(** What [translate] yields is no [finish] and no [error]. *)
Lemma translate_not_terminal st event :
  forallb (fun ev => negb (is_terminal ev)) (translate st event).2 = true.
Proof.
  destruct event as [delta|item_id delta|item|item|status u|]; simpl; try done.
  - by destruct item.
  - destruct item as [|arguments call_id id name|]; simpl; try done.
    by destruct (JsMap.get _ _).
Qed.

Lemma translate_all_not_terminal st events :
  forallb (fun ev => negb (is_terminal ev)) (translate_all st events).2 = true.
Proof.
  revert st. induction events as [|event events IH]; intros st; simpl; [done|].
  pose proof (translate_not_terminal st event) as Hev.
  destruct (translate st event) as [st1 out]. specialize (IH st1).
  destruct (translate_all st1 events) as [st2 out']. simpl in *.
  rewrite forallb_app. by rewrite Hev, IH.
Qed.

Lemma not_terminal_not_error (events : list LLMEvent) :
  forallb (fun ev => negb (is_terminal ev)) events = true ->
  forallb (fun ev => negb (is_error_event ev)) events = true.
Proof.
  induction events as [|ev events IH]; simpl; [done|].
  intros [Hev Hall]%andb_prop. rewrite IH by done.
  unfold is_terminal in Hev. by destruct ev.
Qed.
(** X21. [LLMClient.stream] never throws and ends every sequence with
    exactly one closing event: the events before the last are neither
    [finish] nor [error], and the last is [finish] when the backend's
    stream ends normally and [error] otherwise.  Hence the [for await]
    loop of [Agent.stream] returns exactly when the backend's stream does
    not fail. *)
Theorem LLMClient_stream_ends_once c n input :
  exists body last,
    LLMClient_stream c n input = body ++ [last]
    /\ forallb (fun ev => negb (is_terminal ev)) body = true
    /\ is_terminal last = true
    /\ (is_finish last = true
        <-> exists events, responses_stream c n input = Return (events, None))
    /\ (forall w,
          returned (fst (consume (LLMClient_stream c n input) stream_start w))
          = is_finish last).
Proof.
  unfold LLMClient_stream.
  destruct (responses_stream c n input) as [[events failure]|e].
  - pose proof (translate_all_not_terminal adapter_start events) as Hbody.
    destruct (translate_all adapter_start events) as [st out]. simpl in Hbody.
    destruct failure as [e|].
    + exists out, (error_event (as_Error e)). split; [done|]. split; [done|].
      split; [done|]. split.
      * split; [done|]. by intros (events' & [=]).
      * intros w. rewrite consume_error by (by apply not_terminal_not_error).
        done.
    + exists out, (finish (ad_finishReason st) (ad_usage st)).
      split; [done|]. split; [done|]. split; [done|]. split.
      * split; [by eexists|done].
      * intros w.
        destruct (consume_no_error (out ++ [finish (ad_finishReason st) (ad_usage st)])
                    stream_start w) as (w' & ->); [|done].
        rewrite forallb_app. rewrite (not_terminal_not_error _ Hbody). done.
  - exists [], (error_event (as_Error e)). split; [done|]. split; [done|].
    split; [done|]. split.
    + split; [done|]. by intros (events' & [=]).
    + intros w. done.
Qed.

(** The adapter's record of a call after its fragments. *)
Lemma translate_all_deltas st callId deltas pc :
  JsMap.get callId (ad_toolCalls st) = Some pc ->
  exists st',
    translate_all st (map (function_call_arguments_delta callId) deltas)
    = (st', map (tool_call_delta callId) deltas)
    /\ JsMap.get callId (ad_toolCalls st')
       = Some {| pc_id := pc_id pc; pc_name := pc_name pc;
                 pc_arguments :=
                   pc_arguments pc +:+ fold_right String.append "" deltas |}.
Proof.
  revert st pc. induction deltas as [|d deltas IH]; intros st pc Hget; simpl.
  - exists st. split; [done|]. rewrite Hget, append_nil_r. by destruct pc.
  - rewrite Hget.
    match goal with |- context [translate_all ?st1 _] =>
      destruct (IH st1 {| pc_id := pc_id pc; pc_name := pc_name pc;
                          pc_arguments := pc_arguments pc +:+ d |})
        as (st' & Hrun & Hget')
    end.
    { simpl. apply JsMap_get_set_eq. }
    rewrite Hrun. exists st'. split; [done|].
    rewrite Hget'. simpl. by rewrite append_assoc.
Qed.

Lemma ended_calls_app (evs evs' : list LLMEvent) :
  ended_calls (evs ++ evs') = ended_calls evs ++ ended_calls evs'.
Proof. unfold ended_calls. apply flat_map_app. Qed.

Lemma ended_calls_deltas callId deltas :
  ended_calls (map (tool_call_delta callId) deltas) = [].
Proof. induction deltas as [|d deltas IH]; [done|]. exact IH. Qed.
(** X22. A function call streamed as [output_item.added], argument
    fragments under the item's identifier and [output_item.done] yields
    one completed call: identifier [call_id ?? id ?? ""], name
    [name ?? ""], and as arguments the item's [arguments], or the
    concatenated fragments when the item has none, parsed as JSON with
    the raw string as fallback.  When the item carries its arguments, this
    is the [tool_call] block [parseResponseOutput] builds for the item in
    batch mode, and it is the call [Agent.stream] records. *)
Theorem streamed_call_matches_batch st arguments0 arguments cid id name deltas :
  ended_calls
    (translate_all st (call_events arguments0 arguments cid id name deltas)).2
  = [{| call_id := default (default "" id) cid;
        call_name := default "" name;
        call_arguments :=
          parse_or_raw (default (fold_right String.append "" deltas) arguments) |}]
  /\ (forall args,
        arguments = Some args ->
        ended_calls
          (translate_all st
             (call_events arguments0 arguments cid id name deltas)).2
        = tool_calls_of (parse_item (item_function_call arguments cid id name)))
  /\ st_toolCalls
       (after_events
          (translate_all st
             (call_events arguments0 arguments cid id name deltas)).2)
     = ended_calls
         (translate_all st
            (call_events arguments0 arguments cid id name deltas)).2.
Proof.
  assert (Hmain :
    ended_calls
      (translate_all st (call_events arguments0 arguments cid id name deltas)).2
    = [{| call_id := default (default "" id) cid;
          call_name := default "" name;
          call_arguments :=
            parse_or_raw (default (fold_right String.append "" deltas) arguments) |}]).
  { unfold call_events. cbn [translate_all translate].
    set (callId := default "" id).
    set (st1 := with_toolCalls st _).
    destruct (translate_all_deltas st1 callId deltas
                {| pc_id := default callId cid; pc_name := default "" name;
                   pc_arguments := "" |}) as (st2 & Hrun & Hget).
    { apply JsMap_get_set_eq. }
    simpl in Hget.
    assert (Hall : forall evs st0 out0,
              translate_all st0 evs = (st2, out0) ->
              (translate_all st0
                 (evs ++ [output_item_done
                            (item_function_call arguments cid id name)])).2
              = out0 ++ [tool_call_end (default callId cid)
                           (default (default "" name) name)
                           (default (fold_right String.append "" deltas) arguments)]).
    { clear Hrun. induction evs as [|ev evs IH]; intros st0 out0; simpl.
      - intros [= -> <-]. fold callId. by rewrite Hget.
      - destruct (translate st0 ev) as [sta outa].
        destruct (translate_all sta evs) as [stb outb] eqn:Hb.
        intros [= -> <-]. specialize (IH sta outb Hb).
        destruct (translate_all sta (evs ++ _)) as [stc outc]. simpl in *.
        by rewrite IH, app_assoc. }
    rewrite (surjective_pairing (translate_all st1 _)).
    cbn [snd]. rewrite (Hall _ _ _ Hrun).
    change (tool_call_start ?i ?n :: ?l) with ([tool_call_start i n] ++ l).
    rewrite !ended_calls_app, ended_calls_deltas. simpl.
    by destruct name. }
  split; [exact Hmain|]. split.
  - intros args ->. rewrite Hmain. simpl. unfold parse_or_raw.
    by destruct (JSON_parse args).
  - unfold after_events. rewrite st_toolCalls_fold. done.
Qed.

End ClientLemmas.

Section AssemblyLemmas.
Context `{JsHost}.
Local Open Scope agent_scope.
Implicit Types (a : Agent) (w : World).

(** The [for await] loop throws on the first [error] event, and leaves
    the session and the requests as they are. *)
Lemma consume_throws events st w :
  forallb (fun ev => negb (is_error_event ev)) events = false ->
  exists e w',
    consume events st w = (Threw e, w')
    /\ session w' = session w /\ requests w' = requests w.
Proof.
  revert st w. induction events as [|ev events IH]; intros st w; simpl; [done|].
  intros Hbad. destruct (on_event st ev) as [[st' out] thrown] eqn:Hon.
  unfold bind. rewrite for_each_yield.
  destruct thrown as [e|]; [by eexists _, _|].
  assert (Hev : negb (is_error_event ev) = true).
  { destruct ev; simpl in *; try done. }
  rewrite Hev in Hbad. simpl in Hbad.
  match goal with |- context [consume events st' ?w0] =>
    destruct (IH st' w0 Hbad) as (e & w' & Hc & Hs & Hr)
  end.
  by exists e, w'.
Qed.

(** One turn of the loop of [stream]: the request, the events, and the
    assistant message built from them. *)
Lemma stream_loop_step a budget step w :
  let input := request_of a (session w) in
  let events := LLMClient_stream (llm a) (length (requests w)) input in
  (forallb (fun ev => negb (is_error_event ev)) events = false ->
   exists e w',
     stream_loop a (S budget) step w = (Threw e, w')
     /\ session w' = session w
     /\ requests w' = requests w ++ [input])
  /\ (forallb (fun ev => negb (is_error_event ev)) events = true ->
      exists m w',
        role m = role_assistant
        /\ content m = sealed_content (after_events events)
        /\ session w' = with_messages (session w) (messages (session w) ++ [m])
        /\ requests w' = requests w ++ [input]
        /\ stream_loop a (S budget) step w
           = if (length (st_toolCalls (after_events events)) =? 0)%nat
             then (Returned (S step), w')
             else bind (run_tools a yield_event m
                          (st_toolCalls (after_events events)))
                       (fun _ => stream_loop a budget (S step)) w').
Proof.
  cbv zeta. split.
  - intros Hbad. simpl.
    erewrite bind_step by reflexivity.
    erewrite bind_step by reflexivity.
    erewrite bind_step by reflexivity.
    simpl.
    match goal with |- context [bind (consume ?evs ?st) _ ?w0] =>
      destruct (consume_throws evs st w0 Hbad) as (e & w' & Hc & Hs & Hr)
    end.
    erewrite bind_threw by exact Hc.
    by exists e, w'.
  - intros Hok. simpl.
    erewrite bind_step by reflexivity.
    erewrite bind_step by reflexivity.
    erewrite bind_step by reflexivity.
    simpl.
    match goal with |- context [bind (consume ?evs ?st) _ ?w0] =>
      destruct (consume_no_error evs st w0 Hok) as (w1 & Hc);
      pose proof (consume_Returned _ _ _ _ _ Hc) as (_ & _ & Hs & Hr & Hd)
    end.
    erewrite bind_step by exact Hc.
    erewrite bind_step by reflexivity.
    erewrite bind_step by reflexivity.
    fold (after_events
            (LLMClient_stream (llm a) (length (requests w))
               (request_of a (session w)))).
    eexists _, _. split; [|split; [|split; [|split]]]; cycle 4.
    { destruct (length _ =? 0)%nat; reflexivity. }
    + reflexivity.
    + reflexivity.
    + simpl. by rewrite Hs.
    + simpl. by rewrite Hr.
Qed.


(** Every request of the loop whose events hold no [error] is followed
    in the transcript by the assistant message built from them. *)
Lemma stream_loop_assembles a budget step w :
  exists new,
    requests (snd (stream_loop a budget step w)) = requests w ++ new
    /\ forall k r,
         new !! k = Some r ->
         forallb (fun ev => negb (is_error_event ev))
                 (LLMClient_stream (llm a) (length (requests w) + k) r) = true ->
         exists m,
           (in_messages r ++ [m])
             `prefix_of` messages (session (snd (stream_loop a budget step w)))
           /\ role m = role_assistant
           /\ content m
              = sealed_content
                  (after_events
                     (LLMClient_stream (llm a) (length (requests w) + k) r)).
Proof.
  revert step w. induction budget as [|budget IH]; intros step w.
  - simpl. exists []. split; [by rewrite app_nil_r|].
    intros k r Hk. by destruct k.
  - destruct (stream_loop_step a budget step w) as [Hbad Hok]. cbv zeta in *.
    destruct (forallb (fun ev => negb (is_error_event ev))
                (LLMClient_stream (llm a) (length (requests w))
                   (request_of a (session w)))) eqn:E.
    + destruct (Hok eq_refl) as (m & w1 & Hrole & Hcont & Hs & Hr & Hloop).
      clear Hbad Hok.
      assert (Hfirst : forall w',
                messages (session w1) `prefix_of` messages (session w') ->
                forall k r,
                  [request_of a (session w)] !! k = Some r ->
                  exists m0,
                    (in_messages r ++ [m0]) `prefix_of` messages (session w')
                    /\ role m0 = role_assistant
                    /\ content m0
                       = sealed_content
                           (after_events
                              (LLMClient_stream (llm a)
                                 (length (requests w) + k) r))).
      { intros w' Hpre [|k] r Hk; [|by destruct k].
        injection Hk as <-. rewrite Nat.add_0_r. exists m.
        split; [|done]. rewrite Hs in Hpre. exact Hpre. }
      rewrite Hloop.
      destruct (length (st_toolCalls _) =? 0)%nat.
      * simpl. exists [request_of a (session w)]. split; [done|].
        intros k r Hk _. by apply Hfirst.
      * unfold bind.
        pose proof (keeps_run_tools a yield_event m
                      (st_toolCalls
                         (after_events
                            (LLMClient_stream (llm a) (length (requests w))
                               (request_of a (session w)))))
                      (keeps_yield_event a) w1) as Hadv.
        destruct (run_tools a yield_event m _ w1) as [[u|e|] w2] eqn:Ht;
          simpl in Hadv;
          destruct Hadv as (Hpre & _ & _ & _ & _ & _ & _ & new0 & Hreq & Hlen & _);
          (destruct new0; [|simpl in Hlen; lia]);
          rewrite app_nil_r in Hreq.
        -- destruct (IH (S step) w2) as (new & Hnew & Hall).
           pose proof (keeps_stream_loop a budget (S step) w2) as (Hpre2 & _).
           exists (request_of a (session w) :: new). split.
           { rewrite Hnew, Hreq, Hr. by rewrite <- app_assoc. }
           intros [|k] r Hk Hev.
           ++ apply (Hfirst _ ltac:(by etrans) 0 r Hk).
           ++ simpl in Hk.
              assert (Hidx : length (requests w2) + k = length (requests w) + S k).
              { rewrite Hreq, Hr, length_app. simpl. lia. }
              rewrite <- Hidx in *. by apply Hall.
        -- simpl. exists [request_of a (session w)]. split; [by rewrite Hreq|].
           intros k r Hk _. by apply Hfirst.
        -- simpl. exists [request_of a (session w)]. split; [by rewrite Hreq|].
           intros k r Hk _. by apply Hfirst.
    + destruct (Hbad eq_refl) as (e & w' & Hloop & Hs & Hr).
      rewrite Hloop. simpl. exists [request_of a (session w)].
      split; [done|].
      intros [|k] r Hk; [|by destruct k].
      injection Hk as <-. rewrite Nat.add_0_r. simpl. by rewrite E.
Qed.

(** [stream] ends with the transcript and the requests of its loop. *)
Lemma stream_ends_as_loop a userMessage w :
  messages (session (snd (stream a userMessage w)))
  = messages (session (snd (stream_loop a (maxSteps (config a)) 0
                              (started w userMessage))))
  /\ requests (snd (stream a userMessage w))
     = requests (snd (stream_loop a (maxSteps (config a)) 0
                        (started w userMessage))).
Proof.
  rewrite stream_unfold.
  destruct (stream_loop a (maxSteps (config a)) 0 (started w userMessage))
    as [[step|e|] wl]; [|done|done].
  by destruct (maxSteps (config a) <=? step)%nat.
Qed.

(** C6, as the code has it.  Each inference request of [stream] whose
    events hold no [error] is followed in the transcript by an assistant
    message whose content is the text blocks sealed by the [finish]
    events followed by one tool-call block per [tool_call_end] event, in
    order; the arguments of a block are [JSON.parse] of the event's own
    [arguments] string, or that string when parsing fails.  When the
    events end with their only [finish], the content is one text block
    with the concatenated deltas, or none when that text is empty, and
    then the tool-call blocks.  The buffer kept for a call identifier
    holds the fragments of the [tool_call_delta] events that followed
    the identifier's last [tool_call_start]; nothing of the message
    depends on it. *)
Theorem stream_assembles_message a userMessage w :
  (exists new,
     requests (snd (stream a userMessage w)) = requests w ++ new
     /\ forall k r events,
          new !! k = Some r ->
          LLMClient_stream (llm a) (length (requests w) + k) r = events ->
          forallb (fun ev => negb (is_error_event ev)) events = true ->
          exists m,
            (in_messages r ++ [m])
              `prefix_of` messages (session (snd (stream a userMessage w)))
            /\ role m = role_assistant
            /\ content m
               = st_content (after_events events)
                 ++ map tool_call_content (ended_calls events)
            /\ Forall is_text (st_content (after_events events))
            /\ (forall body reason u,
                  events = body ++ [finish reason u] ->
                  forallb (fun ev => negb (is_finish ev)) body = true ->
                  content m
                  = sealed_text (delta_text body)
                    ++ map tool_call_content (ended_calls body)))
  /\ (forall id name pre post,
        forallb (fun ev => negb (starts id ev)) post = true ->
        JsMap.get id
          (toolCallBuffers (after_events (pre ++ tool_call_start id name :: post)))
        = Some {| buf_id := id; buf_name := name;
                  buf_arguments := fragments id post |})
  /\ (forall events w0 st w',
        consume events stream_start w0 = (Returned st, w') ->
        st = after_events events).
Proof.
  split; [|split].
  - destruct (stream_ends_as_loop a userMessage w) as [Hm Hr].
    destruct (stream_loop_assembles a (maxSteps (config a)) 0
                (started w userMessage)) as (new & Hnew & Hall).
    exists new. split; [by rewrite Hr, Hnew|].
    intros k r events Hk <- Hev.
    destruct (Hall k r Hk Hev) as (m & Hpre & Hrole & Hcont).
    exists m. rewrite Hm. split; [exact Hpre|]. split; [exact Hrole|].
    set (events := LLMClient_stream (llm a) (length (requests w) + k) r) in *.
    assert (Hsealed : content m
                      = st_content (after_events events)
                        ++ map tool_call_content (ended_calls events)).
    { rewrite Hcont. unfold sealed_content, after_events.
      by rewrite st_toolCalls_fold. }
    split; [exact Hsealed|]. split.
    + by apply st_content_fold_text.
    + intros body reason u Hshape Hbody. rewrite Hsealed, Hshape.
      rewrite ended_calls_app. simpl. rewrite app_nil_r. f_equal.
      unfold after_events. rewrite fold_left_app. simpl.
      unfold advance at 1. simpl. rewrite currentText_fold. simpl.
      unfold sealed_text.
      change ("" +:+ delta_text body) with (delta_text body).
      destruct (String.eqb (delta_text body) ""); simpl;
        by rewrite st_content_fold_no_finish.
  - apply buffers_after_start.
  - intros events w0 st w' Hc. by apply consume_Returned in Hc as [-> _].
Qed.

End AssemblyLemmas.

(** ** The input of a request *)

Section WireLemmas.
Context `{JsPlatform}.
Local Open Scope agent_scope.
Implicit Types (a : Agent) (w : World) (msgs : list Message).

Lemma convertToResponseInput_app msgs msgs' :
  convertToResponseInput (msgs ++ msgs')
  = convertToResponseInput msgs ++ convertToResponseInput msgs'.
Proof. unfold convertToResponseInput. apply flat_map_app. Qed.

Lemma input_calls_app items items' :
  input_calls (items ++ items') = input_calls items ++ input_calls items'.
Proof. unfold input_calls. apply flat_map_app. Qed.

Lemma input_outputs_app items items' :
  input_outputs (items ++ items') = input_outputs items ++ input_outputs items'.
Proof. unfold input_outputs. apply flat_map_app. Qed.

Lemma input_calls_calls (cs : list ToolCallContent) :
  input_calls
    (map (fun tc => input_function_call (call_id tc) (call_name tc)
                      (arguments_text (call_arguments tc))) cs)
  = map (fun c => (call_id c, call_name c)) cs.
Proof. induction cs as [|c cs IH]; simpl; [done|]. by f_equal. Qed.

Lemma input_outputs_calls (cs : list ToolCallContent) :
  input_outputs
    (map (fun tc => input_function_call (call_id tc) (call_name tc)
                      (arguments_text (call_arguments tc))) cs)
  = [].
Proof. induction cs as [|c cs IH]; simpl; done. Qed.

Lemma input_calls_results (rs : list ToolResultContent) :
  input_calls
    (map (fun tr => input_function_call_output (toolCallId tr) (result tr)) rs)
  = [].
Proof. induction rs as [|r rs IH]; simpl; done. Qed.

Lemma input_outputs_results (rs : list ToolResultContent) :
  input_outputs
    (map (fun tr => input_function_call_output (toolCallId tr) (result tr)) rs)
  = map (fun r => (toolCallId r, result r)) rs.
Proof. induction rs as [|r rs IH]; simpl; [done|]. by f_equal. Qed.

Lemma convert_message_in_place (msg : Message) :
  in_place msg ->
  input_calls (convert_message msg)
  = map (fun c => (call_id c, call_name c)) (tool_calls_of (content msg))
  /\ input_outputs (convert_message msg)
     = map (fun r => (toolCallId r, result r)) (tool_results_of (content msg)).
Proof.
  unfold in_place, convert_message. destruct (role msg).
  - intros [-> ->]. by destruct (String.eqb _ _).
  - intros ->. rewrite input_calls_app, input_outputs_app.
    rewrite input_calls_calls, input_outputs_calls.
    by destruct (0 <? _)%nat.
  - intros ->. by rewrite input_calls_results, input_outputs_results.
Qed.

Lemma convert_in_place msgs :
  Forall in_place msgs ->
  input_calls (convertToResponseInput msgs)
  = map (fun c => (call_id c, call_name c)) (calls_in msgs)
  /\ input_outputs (convertToResponseInput msgs)
     = map (fun r => (toolCallId r, result r)) (results_in msgs).
Proof.
  induction 1 as [|msg msgs Hmsg _ [IHc IHo]]; [done|].
  destruct (convert_message_in_place msg Hmsg) as [Hc Ho].
  unfold convertToResponseInput, calls_in, results_in in *. simpl.
  rewrite input_calls_app, input_outputs_app, !map_app.
  by rewrite Hc, Ho, IHc, IHo.
Qed.

(** The messages a loop appends hold their blocks in place. *)
Lemma loop_trace_in_place (base added : list Message) reqs :
  loop_trace base added reqs -> Forall in_place added.
Proof.
  induction 1 as [base | base m Hrole _ Hres
                 | base a0 t rest reqs Ha Ht Hres Hcalls _ _ IH].
  - constructor.
  - constructor; [|constructor]. unfold in_place. by rewrite Hrole.
  - constructor; [|constructor; [|done]]; unfold in_place.
    + by rewrite Ha.
    + by rewrite Ht.
Qed.
(** X23. After a [run] that returns, on a session whose earlier messages
    hold tool calls in assistant messages and tool results in [tool]
    messages only, the transcript still does, and
    [convertToResponseInput] keeps every call and every result: the
    [function_call] items of the input are the tool calls of the
    transcript, in order, by identifier and name, and the
    [function_call_output] items are its tool results, by identifier and
    result. *)
Theorem run_transcript_on_the_wire a userMessage w :
  returned (fst (run a userMessage w)) = true ->
  Forall in_place (messages (session w)) ->
  Forall in_place (transcript_after a userMessage w)
  /\ input_calls (convertToResponseInput (transcript_after a userMessage w))
     = map (fun c => (call_id c, call_name c))
           (calls_in (transcript_after a userMessage w))
  /\ input_outputs (convertToResponseInput (transcript_after a userMessage w))
     = map (fun r => (toolCallId r, result r))
           (results_in (transcript_after a userMessage w)).
Proof.
  intros Hret Hbase.
  cut (Forall in_place (transcript_after a userMessage w)).
  { intros Hall. split; [done|]. by apply convert_in_place. }
  revert Hret. unfold transcript_after.
  destruct (run a userMessage w) as [[msgs|e|] w'] eqn:Hrun; simpl;
    [|done|done].
  intros _.
  apply run_Returned_mute in Hrun as (w0 & Hrun & Hforget).
  assert (Hsess : session w' = session w0)
    by (apply (f_equal session) in Hforget; exact Hforget).
  rewrite Hsess. clear Hsess Hforget w'.
  rewrite run_mute_unfold in Hrun.
  destruct (run_loop (mute a) (maxSteps (config a)) 0 (started w userMessage))
    as [[step|e|] wl] eqn:Hloop; [|done|done].
  destruct (maxSteps (config a) <=? step)%nat; [done|].
  injection Hrun as <- <-.
  apply run_loop_mute_trace in Hloop as (added & reqs & Htrace & Hs & _ & _).
  simpl in *. rewrite Hs. simpl.
  apply Forall_app. split.
  - apply Forall_app. split; [done|]. by repeat constructor.
  - by apply loop_trace_in_place in Htrace.
Qed.

Lemma filter_messages_calls (cs : list ToolCallContent) :
  List.filter is_input_message
    (map (fun tc => input_function_call (call_id tc) (call_name tc)
                      (arguments_text (call_arguments tc))) cs)
  = [].
Proof. induction cs as [|c cs IH]; simpl; done. Qed.

Lemma filter_messages_results (rs : list ToolResultContent) :
  List.filter is_input_message
    (map (fun tr => input_function_call_output (toolCallId tr) (result tr)) rs)
  = [].
Proof. induction rs as [|r rs IH]; simpl; done. Qed.
(** X24. What [convertToResponseInput] leaves out.  The message
    [addUserMessage] builds becomes one [user] item, and none when its
    text is empty.  A user message contributes no function call and no
    output, whatever blocks it holds; an assistant message no output, and
    it keeps an empty text block as an empty [assistant] item; a [tool]
    message contributes outputs only, its text and tool-call blocks being
    dropped. *)
Theorem wire_leaves_out (m : Message) w t :
  convertToResponseInput [user_message w t]
  = (if String.eqb t "" then [] else [input_message role_user t])
  /\ (role m = role_user ->
      input_calls (convertToResponseInput [m]) = []
      /\ input_outputs (convertToResponseInput [m]) = []
      /\ (join_lines (texts_of (content m)) = "" ->
          convertToResponseInput [m] = []))
  /\ (role m = role_assistant ->
      input_outputs (convertToResponseInput [m]) = []
      /\ (content m = [text_content {| text := "" |}] ->
          convertToResponseInput [m] = [input_message role_assistant ""])
      /\ (texts_of (content m) = [] ->
          List.filter is_input_message (convertToResponseInput [m]) = []))
  /\ (role m = role_tool ->
      input_calls (convertToResponseInput [m]) = []
      /\ List.filter is_input_message (convertToResponseInput [m]) = []).
Proof.
  unfold convertToResponseInput, convert_message. simpl.
  rewrite !app_nil_r. split.
  { unfold join_lines. simpl. by destruct (String.eqb t ""). }
  split; [|split].
  - intros ->. split; [by destruct (String.eqb _ _)|].
    split; [by destruct (String.eqb _ _)|]. by intros ->.
  - intros ->. rewrite input_outputs_app, input_outputs_calls.
    split; [by destruct (0 <? _)%nat|]. split; [by intros ->|].
    intros ->. simpl. apply filter_messages_calls.
  - intros ->. by rewrite input_calls_results, filter_messages_results.
Qed.

End WireLemmas.

(** ** [Promise.all]: rejection *)

Section PromiseRejection.
Context {A : Type}.
Implicit Types (ps : list (Async A)) (order : list nat).

(** [Promise.all] rejects when one of its promises does. *)
Lemma settle_all_rejects ps order (values : list (option A)) remaining :
  (forall i, i ∈ order -> is_Some (ps !! i)) ->
  (exists i p e, i ∈ order /\ ps !! i = Some p /\ settled p = Throw e) ->
  length order <= remaining ->
  exists a e, settle_all ps order values remaining = Some a
              /\ settled a = Throw e.
Proof.
  revert values remaining.
  induction order as [|i order IH]; intros values remaining Hall Hbad Hlen.
  { destruct Hbad as (i & p & e & Hin & _). by apply elem_of_nil in Hin. }
  destruct (Hall i) as [p Hp]; [left|]. simpl. rewrite Hp.
  destruct (settled p) as [v|e] eqn:Hs; [|by eexists _, _].
  assert (Hbad' : exists j q e, j ∈ order /\ ps !! j = Some q /\ settled q = Throw e).
  { destruct Hbad as (j & q & e & Hin & Hq & He).
    apply elem_of_cons in Hin as [-> | Hin]; [|by exists j, q, e].
    congruence. }
  assert (Hne : order <> []).
  { destruct Hbad' as (j & _ & _ & Hin & _). intros ->.
    by apply elem_of_nil in Hin. }
  simpl in Hlen.
  destruct remaining as [|[|remaining]].
  - lia.
  - destruct order; [done|]. simpl in Hlen. lia.
  - apply IH; [|done|simpl; lia]. intros j Hj. apply Hall. by right.
Qed.

Lemma promise_all_rejects ps :
  (exists p e, p ∈ ps /\ settled p = Throw e) ->
  exists a e, promise_all ps = Some a /\ settled a = Throw e.
Proof.
  intros (p & e & Hin & He). unfold promise_all.
  destruct ps as [|p0 ps'] eqn:E; [by apply elem_of_nil in Hin|].
  rewrite <- E in *.
  apply settle_all_rejects.
  - intros i Hi. rewrite settle_order_Permutation in Hi.
    apply list_elem_of_In, List.in_seq in Hi. apply lookup_lt_is_Some_2. lia.
  - apply list_elem_of_lookup in Hin as [i Hi]. exists i, p, e.
    split; [|done]. rewrite settle_order_Permutation.
    apply list_elem_of_In, List.in_seq. apply lookup_lt_Some in Hi. lia.
  - rewrite settle_order_Permutation. by rewrite length_seq.
Qed.

End PromiseRejection.

Section JsMapValues.
Context {V : Type}.
Implicit Types (m : list (string * V)) (k : string) (v : V).

Lemma JsMap_values_set_absent m k v :
  JsMap.get k m = None -> JsMap.values (JsMap.set k v m) = JsMap.values m ++ [v].
Proof.
  unfold JsMap.values. induction m as [|[k0 v0] m IH]; simpl; [done|].
  destruct (String.eqb k0 k) eqn:E; simpl; [done|].
  intros Hg. by rewrite IH.
Qed.

Lemma JsMap_has_false m k : JsMap.has k m = false <-> JsMap.get k m = None.
Proof. unfold JsMap.has. by destruct (JsMap.get k m). Qed.

Lemma JsMap_get_values m k v : JsMap.get k m = Some v -> v ∈ JsMap.values m.
Proof.
  intros Hg. apply JsMap_get_Some_elem in Hg. unfold JsMap.values.
  change v with (snd (k, v)). by apply list_elem_of_fmap_2.
Qed.

Lemma JsMap_values_remove_sublist m k :
  JsMap.values (JsMap.remove k m) `sublist_of` JsMap.values m.
Proof.
  unfold JsMap.values. induction m as [|[k0 v0] m IH]; simpl; [done|].
  destruct (String.eqb k0 k); simpl.
  - by apply sublist_cons.
  - by apply sublist_skip.
Qed.

End JsMapValues.

(** ** Connections to tool hosts *)

Section ConnectionLemmas.
Context `{JsPlatform}.
Implicit Types (o : ClientObject) (h : McpHeap) (name : string).

Lemma attach_connected o t :
  (obj_connected (attach o t).2 = true
   <-> exists u, settled (attach o t).1 = Return u)
  /\ obj_config (attach o t).2 = obj_config o.
Proof.
  unfold attach. simpl.
  destruct (settled (client_connect (obj_client o) t)) as [u|e].
  - split; [|done]. split; [by eexists | done].
  - split; [|done]. split; [done | by intros [? ?]].
Qed.
(** X25. [MCPClient.connect] does nothing on a connected client.  On a
    client that is not connected it throws, without contacting the
    server and leaving the client as it is,
    ["Command is required for stdio transport"] for a [stdio] transport
    without a command (or with an empty one),
    ["URL is required for SSE transport"] for an [sse] transport without
    a URL, and ["Unsupported transport: <t>"] for any other transport; the
    client is connected afterwards exactly when [connect] resolved, and a
    second [connect] is then a no-op. *)
Theorem connect_validates o :
  (isConnected o = true -> connect o = (async_ret tt, o))
  /\ (isConnected o = false ->
      (srv_transport (obj_config o) = "stdio" ->
       srv_command (obj_config o) = None \/ srv_command (obj_config o) = Some "" ->
       connect o
       = (async_throw
            (ErrorObj PlainError "Command is required for stdio transport"), o))
      /\ (srv_transport (obj_config o) = "sse" ->
          srv_url (obj_config o) = None \/ srv_url (obj_config o) = Some "" ->
          connect o
          = (async_throw
               (ErrorObj PlainError "URL is required for SSE transport"), o))
      /\ (srv_transport (obj_config o) <> "stdio" ->
          srv_transport (obj_config o) <> "sse" ->
          connect o
          = (async_throw
               (ErrorObj PlainError
                  ("Unsupported transport: " +:+ srv_transport (obj_config o))),
             o))
      /\ (isConnected (connect o).2 = true
          <-> exists u, settled (connect o).1 = Return u)
      /\ obj_config (connect o).2 = obj_config o)
  /\ (isConnected (connect o).2 = true ->
      connect (connect o).2 = (async_ret tt, (connect o).2)).
Proof.
  unfold isConnected. split; [|split].
  - intros Hc. unfold connect. by rewrite Hc.
  - intros Hc. unfold connect. rewrite Hc.
    split; [|split; [|split]].
    + intros -> [-> | ->]; done.
    + intros -> [-> | ->]; done.
    + intros Hs%String.eqb_neq He%String.eqb_neq. by rewrite Hs, He.
    + repeat case_match;
        first [ apply attach_connected
              | simpl; rewrite Hc; split; [split; [done | by intros [? ?]] | done] ].
  - intros Hc. unfold connect at 1. by rewrite Hc.
Qed.

(** A client that is connected always answers a tool call with a
    [ToolResult]. *)
Lemma callTool_connected_returns (c : MCPClient) name args :
  connected c = true -> exists r, settled (callTool c name args) = Return r.
Proof.
  intros Hc. rewrite (settled_callTool_connected _ _ _ Hc).
  destruct (settled (sdk_callTool c name args)); by eexists.
Qed.

(** What a [connect] that resolves leaves. *)
Lemma connect_success o :
  obj_connected o = false ->
  settled (connect o).1 = Return tt ->
  exists t,
    (connect o).2
    = {| obj_client := obj_client o; obj_transport := Some t;
         obj_config := obj_config o; obj_connected := true |}.
Proof.
  intros Hc. unfold connect. rewrite Hc.
  repeat case_match; simpl; try done;
    intros Hs; rewrite Hs; by eexists.
Qed.
(** X26. After a [connect] that resolves, the client is connected and
    [callTool] always resolves to a [ToolResult].  A [disconnect] whose
    [close] resolves leaves the client as it was created, not connected
    and without transport: [callTool] and [listTools] throw
    ["MCP client is not connected"] again, and a further [disconnect] is a
    no-op.  A [disconnect] whose [close] fails throws and leaves the
    client connected. *)
Theorem connect_disconnect_round_trip o :
  isConnected o = false ->
  settled (connect o).1 = Return tt ->
  isConnected (connect o).2 = true
  /\ (forall name args,
        exists r, settled (callTool (client_of (connect o).2) name args) = Return r)
  /\ (settled (client_close (obj_client o)) = Return tt ->
      settled (disconnect (connect o).2).1 = Return tt
      /\ (disconnect (connect o).2).2
         = {| obj_client := obj_client o; obj_transport := None;
              obj_config := obj_config o; obj_connected := false |}
      /\ (forall name args,
            settled (callTool (client_of (disconnect (connect o).2).2) name args)
            = Throw not_connected)
      /\ settled (listTools (client_of (disconnect (connect o).2).2))
         = Throw not_connected
      /\ disconnect (disconnect (connect o).2).2
         = (async_ret tt, (disconnect (connect o).2).2))
  /\ (forall e,
        settled (client_close (obj_client o)) = Throw e ->
        settled (disconnect (connect o).2).1 = Throw e
        /\ (disconnect (connect o).2).2 = (connect o).2).
Proof.
  unfold isConnected. intros Hc Hs.
  destruct (connect_success o Hc Hs) as [t ->].
  split; [done|]. split.
  { intros name args. by apply callTool_connected_returns. }
  unfold disconnect. simpl. split.
  - intros ->. simpl. repeat split.
  - intros e ->. done.
Qed.

Lemma heap_ok_add h name client :
  heap_ok h ->
  JsMap.get name (manager_clients h) = None ->
  heap_ok {| mcp_objects := mcp_objects h ++ [client];
             manager_clients :=
               JsMap.set name (length (mcp_objects h)) (manager_clients h) |}.
Proof.
  intros (Hk & Hv & Hlt) Hget. unfold heap_ok. simpl.
  rewrite (JsMap_keys_set_absent _ _ _ Hget), (JsMap_values_set_absent _ _ _ Hget).
  split; [|split].
  - apply NoDup_app. split; [done|]. split; [|apply NoDup_singleton].
    intros k Hin Hk'. apply list_elem_of_singleton in Hk'. subst k.
    by apply JsMap_get_None_keys in Hget.
  - apply NoDup_app. split; [done|]. split; [|apply NoDup_singleton].
    intros q Hin Hq. apply list_elem_of_singleton in Hq. subst q.
    rewrite Forall_forall in Hlt. specialize (Hlt _ Hin). lia.
  - apply Forall_app. split.
    + eapply Forall_impl; [exact Hlt|]. intros q Hq. simpl in *.
      rewrite length_app. simpl. lia.
    + constructor; [|constructor]. rewrite length_app. simpl. lia.
Qed.
(** X27. [MCPManager.addServer] throws
    ["MCP server already exists: <name>"] for a name that is registered,
    leaving everything as it is, and it leaves the manager as it is when
    the connection fails.  Once the connection is made, the server is
    registered under its name, last in [getServerNames], and connected,
    whether or not listing its tools succeeds: [addServer] then returns
    one adapted tool per definition of the server, or throws the listing
    error with the server still registered. *)
Theorem addServer_registers config sdk h :
  (forall p, getClient (srv_name config) h = Some p ->
     addServer config sdk h
     = (async_throw
          (ErrorObj PlainError
             ("MCP server already exists: " +:+ srv_name config)), h))
  /\ (getClient (srv_name config) h = None ->
      (forall e, settled (connectMCP config sdk).1 = Throw e ->
         settled (addServer config sdk h).1 = Throw e
         /\ (addServer config sdk h).2 = h)
      /\ (settled (connectMCP config sdk).1 = Return tt ->
          getServerNames (addServer config sdk h).2
          = getServerNames h ++ [srv_name config]
          /\ getClient (srv_name config) (addServer config sdk h).2
             = Some (length (mcp_objects h))
          /\ mcp_objects (addServer config sdk h).2
             = mcp_objects h ++ [(connectMCP config sdk).2]
          /\ isServerConnected (srv_name config) (addServer config sdk h).2 = true
          /\ settled (addServer config sdk h).1
             = match settled (client_listTools sdk) with
               | Return defs =>
                   Return (map (fun d => {| tool_client := length (mcp_objects h);
                                            tool_def := d |}) defs)
               | Throw e => Throw e
               end
          /\ (heap_ok h -> heap_ok (addServer config sdk h).2))).
Proof.
  unfold getClient, addServer, connectMCP, JsMap.has. split.
  - intros p ->. done.
  - intros Hget. rewrite Hget.
    destruct (connect (new_MCPClient config sdk)) as [connecting client] eqn:Hconn.
    simpl. split.
    + intros e He. by rewrite He.
    + intros Hs. rewrite Hs. simpl.
      assert (Hclient : client
                = {| obj_client := sdk;
                     obj_transport := obj_transport client;
                     obj_config := config; obj_connected := true |}).
      { destruct (connect_success (new_MCPClient config sdk) eq_refl) as [t Ht].
        - by rewrite Hconn.
        - rewrite Hconn in Ht. simpl in Ht. by subst client. }
      split; [apply JsMap_keys_set_absent, Hget|].
      split; [apply JsMap_get_set_eq|]. split; [done|]. split.
      { unfold isServerConnected, getClient. simpl. rewrite JsMap_get_set_eq.
        rewrite lookup_app_r by lia. rewrite Nat.sub_diag. simpl.
        by rewrite Hclient. }
      split.
      { rewrite settled_async_bind, Hs. unfold listTools_at.
        rewrite Hclient. simpl. rewrite settled_async_bind.
        by destruct (settled (client_listTools sdk)). }
      intros Hok. by apply heap_ok_add.
Qed.

Lemma heap_ok_lookup h name p :
  heap_ok h -> getClient name h = Some p -> is_Some (mcp_objects h !! p).
Proof.
  intros (_ & _ & Hlt) Hget. apply lookup_lt_is_Some_2.
  rewrite Forall_forall in Hlt. apply Hlt. by eapply JsMap_get_values.
Qed.
(** X28. [MCPManager.removeServer] of a connected server whose [close]
    resolves takes the name out of the manager and disconnects the
    client; the tools adapted from that client still refer to it and now
    throw ["MCP client is not connected"], which an executor without
    hooks reports as an error block.  When [close] fails, [removeServer]
    throws and the server stays registered and connected.  A name that is
    not registered is ignored. *)
Theorem removeServer_cuts_tools name h p o :
  heap_ok h ->
  getClient name h = Some p ->
  mcp_objects h !! p = Some o ->
  isConnected o = true ->
  (settled (client_close (obj_client o)) = Return tt ->
     settled (removeServer name h).1 = Return tt
     /\ getClient name (removeServer name h).2 = None
     /\ isServerConnected name (removeServer name h).2 = false
     /\ getServerNames (removeServer name h).2
        = List.filter (fun k => negb (String.eqb k name)) (getServerNames h)
     /\ (forall other, other <> name ->
           getClient other (removeServer name h).2 = getClient other h)
     /\ (forall t, tool_client t = p ->
           exists tool,
             tool_on (removeServer name h).2 t = Some tool
             /\ (forall args ctx,
                   settled (tool_execute tool args ctx) = Throw not_connected)
             /\ (forall ex call ctx,
                   get (call_name call) (registry ex) = Some tool ->
                   options ex = default_options ->
                   settled (execute ex call ctx)
                   = Return {| toolCallId := call_id call;
                               result := "MCP client is not connected";
                               isError := Some true |})))
  /\ (forall e,
        settled (client_close (obj_client o)) = Throw e ->
        settled (removeServer name h).1 = Throw e
        /\ getServerNames (removeServer name h).2 = getServerNames h
        /\ isServerConnected name (removeServer name h).2 = true)
  /\ (forall other, getClient other h = None ->
        removeServer other h = (async_ret tt, h)).
Proof.
  intros Hok Hget Hobj Hconn. unfold isConnected in Hconn.
  assert (Hp : p < length (mcp_objects h)) by (by eapply lookup_lt_Some).
  destruct Hok as (Hk & _ & _).
  unfold removeServer, getClient in *. rewrite Hget, Hobj.
  unfold disconnect. rewrite Hconn. simpl.
  split; [|split].
  - intros Hclose. rewrite Hclose. simpl.
    split; [done|]. split; [by apply JsMap_get_remove_eq|]. split.
    { unfold isServerConnected, getClient. simpl.
      by rewrite JsMap_get_remove_eq. }
    split; [by apply JsMap_keys_remove|]. split.
    { intros other Hne. apply JsMap_get_remove_ne. congruence. }
    intros t Ht. unfold tool_on. simpl. rewrite Ht.
    rewrite list_lookup_insert_eq by done. simpl. eexists. split; [reflexivity|].
    split.
    + intros args ctx. reflexivity.
    + intros ex call ctx Hreg Hopts.
      rewrite (settled_execute_found _ _ _ _ Hreg).
      unfold run_before, executeWithTimeout. rewrite Hopts. reflexivity.
  - intros e Hclose. rewrite Hclose. simpl. split; [done|]. split; [done|].
    unfold isServerConnected, getClient. simpl. rewrite Hget.
    rewrite list_lookup_insert_eq by done. done.
  - intros other ->. done.
Qed.

(** The objects after every client of [ps] was told to disconnect. *)
Lemma disconnect_each ps (objs : list ClientObject) p :
  NoDup ps ->
  fold_left (fun objs p =>
               match objs !! p with
               | Some o => <[p := (disconnect o).2]> objs
               | None => objs
               end) ps objs !! p
  = if decide (p ∈ ps)
    then (fun o => (disconnect o).2) <$> objs !! p
    else objs !! p.
Proof.
  revert objs. induction ps as [|q ps IH]; intros objs Hnd.
  { done. }
  apply NoDup_cons in Hnd as [Hq Hnd]. cbn [fold_left]. rewrite IH by done.
  destruct (decide (p ∈ ps)) as [Hin|Hnin].
  - rewrite decide_True by (by right).
    assert (p <> q) by congruence.
    destruct (objs !! q); [|done]. by rewrite list_lookup_insert_ne.
  - destruct (decide (p = q)) as [->|Hne].
    + rewrite decide_True by left.
      destruct (objs !! q) as [o|] eqn:Ho; [|by rewrite Ho].
      rewrite list_lookup_insert_eq; [done|]. by eapply lookup_lt_Some.
    + rewrite decide_False by (rewrite elem_of_cons; tauto).
      destruct (objs !! q); [|done]. by rewrite list_lookup_insert_ne.
Qed.

Lemma disconnect_resolved o u :
  settled (disconnect o).1 = Return u -> obj_connected (disconnect o).2 = false.
Proof.
  unfold disconnect. destruct (obj_connected o) eqn:Hc; simpl; [|done].
  by intros ->.
Qed.

Lemma disconnect_promises h :
  Forall (fun p => is_Some (mcp_objects h !! p)) (JsMap.values (manager_clients h)) ->
  Forall2 (fun p promise =>
             exists o, mcp_objects h !! p = Some o /\ promise = (disconnect o).1)
    (JsMap.values (manager_clients h))
    (omap (fun p => option_map (fun o => (disconnect o).1) (mcp_objects h !! p))
          (JsMap.values (manager_clients h))).
Proof.
  induction 1 as [|p ps [o Ho] _ IH]; [constructor|].
  cbn. rewrite Ho. simpl. constructor; [by exists o | exact IH].
Qed.
(** X29. [MCPManager.disconnectAll]: when every client disconnects, the
    promise is fulfilled, no server name is left and every client is
    disconnected; when a [close] fails, the promise is rejected and the
    manager keeps all its server names. *)
Theorem disconnectAll_clears h :
  heap_ok h ->
  (Forall (fun p => exists o u, mcp_objects h !! p = Some o
                                /\ settled (disconnect o).1 = Return u)
          (JsMap.values (manager_clients h)) ->
     exists a,
       (disconnectAll h).1 = Some a
       /\ settled a = Return tt
       /\ getServerNames (disconnectAll h).2 = []
       /\ Forall (fun p => exists o', mcp_objects (disconnectAll h).2 !! p = Some o'
                                      /\ isConnected o' = false)
                 (JsMap.values (manager_clients h)))
  /\ ((exists p o e, p ∈ JsMap.values (manager_clients h)
                     /\ mcp_objects h !! p = Some o
                     /\ settled (disconnect o).1 = Throw e) ->
      exists a e,
        (disconnectAll h).1 = Some a
        /\ settled a = Throw e
        /\ getServerNames (disconnectAll h).2 = getServerNames h).
Proof.
  intros (Hk & Hv & Hlt).
  assert (Hsome : Forall (fun p => is_Some (mcp_objects h !! p))
                         (JsMap.values (manager_clients h))).
  { eapply Forall_impl; [exact Hlt|]. intros p Hp. by apply lookup_lt_is_Some_2. }
  pose proof (disconnect_promises h Hsome) as Hps.
  unfold disconnectAll.
  set (promises := omap _ _) in *.
  split.
  - intros Hall.
    assert (Hm : map settled promises
                 = map Return (replicate (length promises) tt)).
    { clear -Hps Hall. induction Hps as [|p pr ps prs (o & Ho & ->) _ IH];
        [done|].
      apply Forall_cons in Hall as [(o' & u & Ho' & Hu) Hall].
      rewrite Ho in Ho'. injection Ho' as <-. simpl. rewrite Hu.
      destruct u. f_equal. by apply IH. }
    destruct (promise_all_fulfilled _ _ Hm) as (a & -> & Hs). rewrite Hs.
    eexists. split; [reflexivity|]. split; [done|]. split; [done|]. simpl.
    rewrite Forall_forall in Hall. apply Forall_forall. intros p Hp.
    destruct (Hall p Hp) as (o & u & Ho & Hu).
    exists (disconnect o).2. split.
    + rewrite disconnect_each by done. rewrite decide_True by done.
      by rewrite Ho.
    + by eapply disconnect_resolved.
  - intros (p & o & e & Hin & Ho & He).
    destruct (promise_all_rejects promises) as (a & e' & -> & Hs).
    { exists (disconnect o).1, e. split; [|done].
      clear -Hps Hin Ho. induction Hps as [|q pr ps prs (o' & Ho' & ->) _ IH].
      - by apply elem_of_nil in Hin.
      - apply elem_of_cons in Hin as [-> | Hin].
        + rewrite Ho in Ho'. injection Ho' as <-. left.
        + right. by apply IH. }
    rewrite Hs. by eexists _, _.
Qed.

End ConnectionLemmas.


(** ** Tools defined from a zod schema *)

Section ZodLemmas.
Context `{JsPlatform}.

Lemma non_empty_spec (required : list string) :
  match non_empty required with
  | Some keys => keys = required /\ keys <> []
  | None => required = []
  end.
Proof. by destruct required. Qed.

Lemma required_keys (entries : list (string * ZodType)) key :
  key ∈ map fst (List.filter (fun kv => negb (is_optional kv.2)) entries)
  <-> exists value, (key, value) ∈ entries /\ is_optional value = false.
Proof.
  split.
  - intros ([k v] & -> & Hin)%list_elem_of_fmap.
    apply list_elem_of_In, List.filter_In in Hin as [Hin Hopt].
    exists v. split; [by apply list_elem_of_In|].
    by apply negb_true_iff in Hopt.
  - intros (v & Hin & Hopt).
    change key with (fst (key, v)). apply list_elem_of_fmap_2.
    apply list_elem_of_In, List.filter_In. split; [by apply list_elem_of_In|].
    simpl. by rewrite Hopt.
Qed.

(** X30. A tool made by [defineZodTool] parses its arguments with the
    schema first: the configured [execute] gets the parsed value, and
    when [parse] throws the tool rejects with that error, which an
    executor whose before-hook lets the call through reports as an error
    block carrying the error's message, whatever its timeout.  The
    parameters of an object schema list one property per entry of the
    shape, and [required] holds exactly the keys whose value is not
    optional, and is left out rather than empty.  A schema whose type
    name is none of the five handled ones, an optional wrapper for one,
    is described as [{ type: "object" }], as is an object without a
    shape. *)
Theorem defineZodTool_validates config :
  (forall args ctx parsed,
     zod_parse (zt_schema config) args = Return parsed ->
     tool_execute (defineZodTool config) args ctx
     = zt_execute config parsed ctx)
  /\ (forall args ctx e,
        zod_parse (zt_schema config) args = Throw e ->
        settled (tool_execute (defineZodTool config) args ctx) = Throw e
        /\ forall ex call,
             get (call_name call) (registry ex) = Some (defineZodTool config) ->
             call_arguments call = args ->
             settled (run_before ex call ctx) = Return tt ->
             settled (execute ex call ctx)
             = Return {| toolCallId := call_id call;
                         result := error_message e;
                         isError := Some true |})
  /\ (forall type entries o p,
        exists required,
          zodToJsonSchema (zod (Some (Some "ZodObject", type)) (Some entries) o p)
          = schema_object
              (map (fun '(key, value) => (key, zodToJsonSchema value)) entries)
              required
          /\ (forall key,
                (exists keys, required = Some keys /\ key ∈ keys)
                <-> exists value,
                      (key, value) ∈ entries /\ is_optional value = false)
          /\ required <> Some [])
  /\ (forall typeName type shape o p,
        (forall n, typeName = Some n ->
                   n ∉ ["ZodObject"; "ZodString"; "ZodNumber"; "ZodBoolean";
                        "ZodArray"]) ->
        zodToJsonSchema (zod (Some (typeName, type)) shape o p)
        = schema_any_object)
  /\ (forall type o p,
        zodToJsonSchema (zod (Some (Some "ZodObject", type)) None o p)
        = schema_any_object).
Proof.
  split; [|split; [|split; [|split]]].
  - intros args ctx parsed Hp. simpl. by rewrite Hp.
  - intros args ctx e He. simpl. rewrite He. split; [done|].
    intros ex call Hget <- Hbefore.
    rewrite (settled_execute_found _ _ _ _ Hget), Hbefore.
    assert (Htool : executeWithTimeout ex (defineZodTool config) call ctx
                    = async_throw e).
    { rewrite executeWithTimeout_in_time; simpl; rewrite He; [done|].
      intros t _ _. pose proof (timer_delay_pos t). simpl. lia. }
    by rewrite Htool.
  - intros type entries o p. eexists. split; [reflexivity|].
    pose proof (non_empty_spec
      (map fst (List.filter (fun kv => negb (is_optional kv.2)) entries)))
      as Hne.
    destruct (non_empty _) as [keys|].
    + destruct Hne as [-> Hne]. split; [|congruence].
      intros key. rewrite <- required_keys. split.
      * by intros (keys & [= <-] & Hin).
      * intros Hin. by eexists.
    + split; [|done]. intros key. rewrite <- required_keys, Hne. split.
      * by intros (keys & [=] & _).
      * by intros Hin%elem_of_nil.
  - intros typeName type shape o p Hname.
    assert (Hno : forall name,
              name ∈ ["ZodObject"; "ZodString"; "ZodNumber"; "ZodBoolean";
                      "ZodArray"] ->
              named typeName name = false).
    { intros name Hin. destruct typeName as [n|]; [|done]. simpl.
      apply String.eqb_neq. intros ->. by apply (Hname name). }
    simpl. rewrite !Hno by (repeat constructor).
    by destruct shape.
  - done.
Qed.

End ZodLemmas.
(** ** The model on concrete inputs *)

Section Examples.
#[local] Existing Instance MiniJson.host.
#[local] Existing Instance MiniJson.platform.
Import Demo.

(** Registering [echo'] over [echo] leaves one tool, the later one. *)
Lemma registry_last_write_wins_witness :
  get "echo" (register echo' (register echo new_ToolRegistry)) = Some echo'
  /\ size (register echo' (register echo new_ToolRegistry)) = 1
  /\ unregister "never" (register echo new_ToolRegistry)
     = (false, register echo new_ToolRegistry).
Proof.
  destruct (registry_last_write_wins new_ToolRegistry echo echo' eq_refl)
    as (Hget & _ & Hsize & _ & _ & Hun).
  split; [exact Hget|]. split; [exact Hsize|].
  apply Hun. reflexivity.
Defined.

(** A result with an output and an empty [error] yields an empty
    [result] that is not flagged as an error; the hooks resolve and the
    tool takes 1 ms of the 50 it has. *)
Lemma execute_result_of_ToolResult_witness :
  exists block,
    settled (execute careful_executor blank_call ctx) = Return block
    /\ result block = ""
    /\ isError block = Some false.
Proof.
  destruct (execute_result_of_ToolResult careful_executor blank_call ctx blank
              {| output := "kept?"; metadata := None; error := Some "" |})
    as (block & Hblock & _ & _ & _ & _ & Hempty).
  - reflexivity.
  - reflexivity.
  - intros hook [= <-]. reflexivity.
  - intros t [= <-] _. vm_compute. lia.
  - intros hook [= <-]. reflexivity.
  - exists block. split; [exact Hblock|]. apply Hempty. reflexivity.
Defined.

(** [echo] resolves to a result without error, and the after-hook
    throws: the block carries the hook's message, not the tool's
    output. *)
Lemma after_hook_replaces_result :
  get (call_name echo_call) (registry audited_executor) = Some echo
  /\ settled (tool_execute echo (call_arguments echo_call) ctx)
     = Return {| output := "pong"; metadata := None; error := None |}
  /\ settled (execute audited_executor echo_call ctx)
     = Return {| toolCallId := "c1"; result := "audit log is full";
                 isError := Some true |}.
Proof. repeat split. Qed.

(** The same happens when the timer fires before the tool resolves. *)
Example timer_replaces_result :
  settled (tool_execute echo (call_arguments echo_call) ctx)
  = Return {| output := "pong"; metadata := None; error := None |}
  /\ settled (execute hasty_executor echo_call ctx)
     = Return {| toolCallId := "c1";
                 result := "Tool execution timed out after 3ms";
                 isError := Some true |}.
Proof. repeat split. Qed.

(** A tool that throws an object without prototype: [execute] rejects
    with the [TypeError] of the conversion, and so does [executeAll] on
    calls that include it. *)
Lemma execute_rejects_unreadable_witness :
  Raw.outcome (Raw.execute bare_executor bare_call ctx)
  = Raw.rejected
      (Raw.readable
         (ErrorObj PlainError "Cannot convert object to primitive value"))
  /\ exists q failure,
       Raw.executeAll bare_executor [echo_call; bare_call] ctx = Some q
       /\ Raw.outcome q = Raw.rejected failure.
Proof.
  split.
  - destruct (execute_rejects_unreadable bare_executor bare_call ctx)
      as (_ & Hthrown & _).
    apply (Hthrown bare_thrower bare_object eq_refl).
    right. split; [intros hook Hhook; discriminate Hhook|].
    split; [intros t Ht; discriminate Ht|]. left. reflexivity.
  - destruct (execute_rejects_unreadable bare_executor bare_call ctx)
      as (_ & _ & _ & _ & Hall).
    apply (Hall [echo_call; bare_call]).
    apply Exists_cons_tl, Exists_cons_hd. eexists. reflexivity.
Defined.

(** The same executor converts what it can read. *)
Example execute_converts_readable :
  Raw.outcome (Raw.execute bare_executor echo_call ctx)
  = Raw.fulfilled {| toolCallId := "c1"; result := "pong"; isError := Some false |}
  /\ Raw.outcome
       (Raw.execute bare_executor
          {| call_id := "c3"; call_name := "nope"; call_arguments := MiniJson.JNull |}
          ctx)
     = Raw.fulfilled {| toolCallId := "c3"; result := "Tool not found: nope";
                        isError := Some true |}.
Proof. split; reflexivity. Qed.

Lemma never_throws_plain steps : never_throws (plain_agent steps).
Proof. intros cb history event Hcb. discriminate Hcb. Qed.

(** [maxSteps = 1] and an answer without tool calls: the run fails. *)
Lemma run_single_step_budget_fails_witness :
  thrown (fst (run (plain_agent 1) "hi" fresh))
  = Some (ErrorObj MaxStepsExceededError "Max steps exceeded: 1")
  /\ status (session (snd (run (plain_agent 1) "hi" fresh))) = status_error.
Proof.
  destruct (run_single_step_budget_fails (plain_agent 1) "hi" fresh
              {| out_content := [text_content {| text := "hello" |}];
                 finishReason := "stop"; usage := no_usage |}
              (never_throws_plain 1) eq_refl eq_refl eq_refl)
    as (Hthrow & Hstatus & _).
  split; [|exact Hstatus]. rewrite Hthrow. reflexivity.
Defined.

(** The same answer with [maxSteps = 2] completes the session. *)
Example run_two_step_budget_completes :
  returned (fst (run (plain_agent 2) "hi" fresh)) = true
  /\ status (session (snd (run (plain_agent 2) "hi" fresh))) = status_completed.
Proof. vm_compute. split; reflexivity. Qed.

(** Two ways a returned run leaves a tool call without exactly one
    later result.  A session created with an unanswered call ["z"] keeps
    it unanswered.  Two responses that each use the identifier ["a"] (one
    call per response) leave the first call with two later results. *)
Lemma run_leaves_call_unanswered_or_answered_twice :
  (returned (fst (run (plain_agent 2) "hi" dangling)) = true
   /\ answer_counts (transcript_after (plain_agent 2) "hi" dangling)
      = [[("z", 0)]; []; []])
  /\ (returned (fst (run reuse_agent "hi" fresh)) = true
      /\ answer_counts (transcript_after reuse_agent "hi" fresh)
         = [[]; [("a", 2)]; []; [("a", 1)]; []; []]).
Proof. vm_compute. repeat split. Qed.

(** Two steps with the identifiers ["a"] and ["b"]: every call has its
    one later result. *)
Lemma run_answers_tool_calls_witness :
  (forall i m c,
     transcript_after two_step_agent "hi" fresh !! i = Some m ->
     c ∈ tool_calls_of (content m) ->
     length (matching c (later_results i (transcript_after two_step_agent "hi" fresh)))
     = 1)
  /\ answer_counts (transcript_after two_step_agent "hi" fresh)
     = [[]; [("a", 1)]; []; [("b", 1)]; []; []].
Proof.
  assert (Hrun : returned (fst (run two_step_agent "hi" fresh)) = true)
    by (vm_compute; reflexivity).
  assert (Hnd : NoDup (call_ids (transcript_after two_step_agent "hi" fresh))).
  { assert (call_ids (transcript_after two_step_agent "hi" fresh) = ["a"; "b"])
      as -> by (vm_compute; reflexivity).
    apply NoDup_cons. split; [|apply NoDup_singleton].
    intros Hin%list_elem_of_singleton. discriminate Hin. }
  destruct (run_answers_tool_calls two_step_agent "hi" fresh Hrun I Hnd)
    as (_ & _ & Hans & _ & _).
  split; [exact Hans|]. vm_compute. reflexivity.
Defined.

(** A callback that throws makes a run fail that completes without it. *)
Lemma throwing_callback_changes_outcome :
  thrown (fst (run observed_agent "hi" fresh))
  = Some (ErrorObj PlainError "observer failed")
  /\ status (session (snd (run observed_agent "hi" fresh))) = status_error
  /\ length (transcript_after observed_agent "hi" fresh) = 1
  /\ returned (fst (run (mute observed_agent) "hi" fresh)) = true
  /\ status (session (snd (run (mute observed_agent) "hi" fresh))) = status_completed
  /\ length (transcript_after (mute observed_agent) "hi" fresh) = 2.
Proof. vm_compute. repeat split. Qed.

Lemma never_throws_logged : never_throws logged_agent.
Proof. intros cb history event [= <-]. reflexivity. Qed.

(** A callback that only records its events leaves the run as it is. *)
Lemma run_unaffected_by_quiet_callback_witness :
  fst (run logged_agent "hi" fresh) = fst (run (mute logged_agent) "hi" fresh)
  /\ session (snd (run logged_agent "hi" fresh))
     = session (snd (run (mute logged_agent) "hi" fresh))
  /\ length (delivered (snd (run logged_agent "hi" fresh))) = 5.
Proof.
  destruct (run_unaffected_by_quiet_callback logged_agent "hi" fresh
              never_throws_logged) as (Hc & Hs & _).
  split; [exact Hc|]. split; [exact Hs|]. vm_compute. reflexivity.
Defined.

Lemma never_throws_hello steps : never_throws (hello_agent steps).
Proof. intros cb history event Hcb. discriminate Hcb. Qed.

(** ["Hel"] and ["lo"] streamed, ["Hello"] in one response. *)
Lemma stream_matches_batch_witness :
  status (session (snd (run (hello_agent 2) "hi" fresh)))
  = status (session (snd (stream (hello_agent 2) "hi" fresh)))
  /\ transcript_texts (session (snd (run (hello_agent 2) "hi" fresh)))
     = transcript_texts (session (snd (stream (hello_agent 2) "hi" fresh)))
  /\ transcript_texts (session (snd (stream (hello_agent 2) "hi" fresh)))
     = [(role_user, "hi"); (role_assistant, "Hello")].
Proof.
  destruct (stream_matches_batch (hello_agent 2) "hi" fresh "Hel" "lo"
              no_usage no_usage (never_throws_hello 2) eq_refl eq_refl)
    as (Hstatus & Htexts & _).
  split; [exact Hstatus|]. split; [exact Htexts|]. vm_compute. reflexivity.
Defined.

(** The same turn with a callback that throws when the assistant
    message starts: [run] fails, [stream], which never calls the
    callback, completes. *)
Lemma throwing_callback_splits_modes :
  LLMClient_stream (llm startled_agent) (length (requests fresh))
    (request_of startled_agent (session (started fresh "hi")))
  = [text_delta "Hel"; text_delta "lo"; finish "stop" no_usage]
  /\ LLMClient_call (llm startled_agent) (length (requests fresh))
       (request_of startled_agent (session (started fresh "hi")))
     = Return {| out_content := [text_content {| text := "Hello" |}];
                 finishReason := "stop"; usage := no_usage |}
  /\ status (session (snd (run startled_agent "hi" fresh))) = status_error
  /\ status (session (snd (stream startled_agent "hi" fresh))) = status_completed
  /\ threw (fst (run startled_agent "hi" fresh))
  /\ ~ threw (fst (stream startled_agent "hi" fresh)).
Proof. vm_compute. repeat split. intros []. Qed.

(** The fragments of call ["c1"] spell ["1"], its end event carries
    ["2"]: the loop returns, the buffer holds ["1"], and the tool-call
    block holds the number 2, not the number 1 the buffer parses to. *)
Lemma stream_takes_arguments_from_end_event :
  returned (fst (consume split_call stream_start fresh)) = true
  /\ option_map buf_arguments
       (JsMap.get "c1" (toolCallBuffers (after_events split_call)))
     = Some "1"
  /\ parse_or_raw "1" = MiniJson.JNum 1
  /\ map call_arguments (st_toolCalls (after_events split_call))
     = [MiniJson.JNum 2]
  /\ map call_arguments (tool_calls_of (sealed_content (after_events split_call)))
     = [MiniJson.JNum 2].
Proof. vm_compute. repeat split. Qed.

(** A step that streams a sentence and a call: the message appended
    after the user's holds the text block, then the tool-call block. *)
Lemma stream_assembles_message_witness :
  exists m,
    (messages (session (started fresh "hi")) ++ [m])
      `prefix_of` messages (session (snd (stream chatty_agent "hi" fresh)))
    /\ role m = role_assistant
    /\ content m
       = [text_content {| text := "Checking" |};
          tool_call_content
            {| call_id := "c1"; call_name := "echo";
               call_arguments := MiniJson.JObj [] |}].
Proof.
  destruct (stream_assembles_message chatty_agent "hi" fresh)
    as ((new & Hnew & Hall) & _).
  assert (Hfirst : new !! 0
                   = Some (request_of chatty_agent (session (started fresh "hi")))).
  { change (requests fresh ++ new) with new in Hnew. rewrite <- Hnew.
    reflexivity. }
  destruct (Hall 0 _ _ Hfirst eq_refl) as (m & Hpre & Hrole & _ & _ & Hshape);
    [reflexivity|].
  exists m. split; [exact Hpre|]. split; [exact Hrole|].
  rewrite (Hshape [text_delta "Checking"; tool_call_start "c1" "echo";
                   tool_call_delta "i1" "{}"; tool_call_end "c1" "echo" "{}"]
             "stop" no_usage); reflexivity.
Defined.

(** An adapted tool invoked while its client is not connected throws. *)
Lemma offline_tool_throws :
  settled (tool_execute (adaptTool offline remote_tool) MiniJson.JNull ctx)
  = Throw (ErrorObj PlainError "MCP client is not connected").
Proof. reflexivity. Qed.

(** A connected client whose host fails: the failure is a [ToolResult]. *)
Lemma adapted_tool_failures_witness :
  settled (tool_execute (adaptTool failing remote_tool) MiniJson.JNull ctx)
  = Return {| output := ""; metadata := None; error := Some "connection reset" |}.
Proof.
  destruct (adapted_tool_failures failing remote_tool MiniJson.JNull ctx)
    as [Hon _].
  destruct (Hon eq_refl) as (_ & Hfail & _).
  exact (Hfail (ErrorObj PlainError "connection reset") eq_refl).
Defined.

(** Three calls whose tools take 5, 0 and 5 milliseconds: the call of the
    unknown tool settles first, and the results are in the order of the
    calls. *)
Example executeAll_three_calls :
  option_map settled
    (executeAll (executor two_step_agent)
       [{| call_id := "A"; call_name := "echo"; call_arguments := MiniJson.JNull |};
        {| call_id := "B"; call_name := "nope"; call_arguments := MiniJson.JNull |};
        {| call_id := "C"; call_name := "echo"; call_arguments := MiniJson.JNull |}]
       ctx)
  = Some (Return
            [{| toolCallId := "A"; result := "pong"; isError := Some false |};
             {| toolCallId := "B"; result := "Tool not found: nope";
                isError := Some true |};
             {| toolCallId := "C"; result := "pong"; isError := Some false |}])
  /\ settle_order
       (map (fun call => execute (executor two_step_agent) call ctx)
          [{| call_id := "A"; call_name := "echo"; call_arguments := MiniJson.JNull |};
           {| call_id := "B"; call_name := "nope"; call_arguments := MiniJson.JNull |};
           {| call_id := "C"; call_name := "echo"; call_arguments := MiniJson.JNull |}])
     = [1; 0; 2].
Proof. vm_compute. split; reflexivity. Qed.

(** One step out of a budget of two. *)
Lemma run_returns_before_last_step_witness :
  length (requests_since fresh (snd (run (plain_agent 2) "hi" fresh))) < 2.
Proof.
  apply (run_returns_before_last_step (plain_agent 2) "hi" fresh).
  vm_compute. reflexivity.
Defined.

Lemma run_first_step_completes_witness :
  returned (fst (run (plain_agent 2) "hi" fresh)) = true
  /\ status (session (snd (run (plain_agent 2) "hi" fresh))) = status_completed.
Proof.
  destruct (run_first_step_completes (plain_agent 2) "hi" fresh
              {| out_content := [text_content {| text := "hello" |}];
                 finishReason := "stop"; usage := no_usage |}
              (never_throws_plain 2) (le_n 2) eq_refl eq_refl)
    as (Hret & Hstatus & _).
  split; [|exact Hstatus]. rewrite Hret. reflexivity.
Defined.

Lemma never_throws_looping : never_throws looping_agent.
Proof. intros cb history event Hcb. discriminate Hcb. Qed.

(** Three steps, three tool calls, and the budget is gone. *)
Lemma run_exhausts_budget_witness :
  thrown (fst (run looping_agent "hi" fresh))
  = Some (ErrorObj MaxStepsExceededError "Max steps exceeded: 3")
  /\ status (session (snd (run looping_agent "hi" fresh))) = status_error
  /\ length (transcript_after looping_agent "hi" fresh) = 7.
Proof.
  destruct (run_exhausts_budget looping_agent "hi" fresh never_throws_looping)
    as (Hthrow & Hstatus).
  { intros n input. eexists. split; [reflexivity|]. discriminate. }
  split; [rewrite Hthrow; reflexivity|]. split; [exact Hstatus|].
  vm_compute. reflexivity.
Defined.

(** A tool that throws ["boom"]: the result block carries the message,
    flagged as an error, and the loop goes on to the next step. *)
Example run_survives_throwing_tool :
  returned (fst (run boom_agent "hi" fresh)) = true
  /\ map (fun r => (toolCallId r, result r, isError r))
         (results_in (transcript_after boom_agent "hi" fresh))
     = [("a", "boom", Some true)]
  /\ length (requests_since fresh (snd (run boom_agent "hi" fresh))) = 2.
Proof. vm_compute. repeat split. Qed.

(** [echo'] registered over [echo]: one name, one definition. *)
Lemma registry_consistent_witness :
  NoDup (names (register echo' (register echo new_ToolRegistry)))
  /\ map def_name (toToolDefinitions (register echo' (register echo new_ToolRegistry)))
     = names (register echo' (register echo new_ToolRegistry))
  /\ has "echo" (register echo' (register echo new_ToolRegistry)) = true.
Proof.
  destruct (registry_consistent (register echo' (register echo new_ToolRegistry))
              (built_register _ _ (built_register _ _ built_new)))
    as (Hnd & _ & Hdefs & _ & Hhas & _).
  split; [exact Hnd|]. split; [exact Hdefs|].
  apply Hhas. change ("echo" ∈ ["echo"]). left.
Defined.

(** [echo] registered and unregistered: the registry is empty again. *)
Lemma unregister_removes_witness :
  (unregister "echo" (register echo new_ToolRegistry)).1 = true
  /\ has "echo" (unregister "echo" (register echo new_ToolRegistry)).2 = false
  /\ size (unregister "echo" (register echo new_ToolRegistry)).2 = 0.
Proof.
  destruct (unregister_removes (register echo new_ToolRegistry) "echo"
              (built_register _ _ built_new))
    as (Hwas & Hhas & _ & _ & _ & Hsize & _).
  split; [exact Hwas|]. split; [exact Hhas|]. exact Hsize.
Defined.

(** A batch that names [echo] twice registers the later tool. *)
Example registerMany_keeps_the_later_tool :
  option_map (fun tool => elapsed (tool_execute tool MiniJson.JNull ctx))
    (get "echo" (registerMany [echo; blank; echo'] new_ToolRegistry))
  = Some 7
  /\ names (registerMany [echo; blank; echo'] new_ToolRegistry) = ["echo"; "blank"].
Proof. vm_compute. split; reflexivity. Qed.

(** [echo] takes 5 ms and the executor allows 3. *)
Lemma execute_timeout_witness :
  settled (execute hasty_executor echo_call ctx)
  = Return {| toolCallId := "c1";
              result := "Tool execution timed out after 3ms";
              isError := Some true |}
  /\ elapsed (execute hasty_executor echo_call ctx) = 3.
Proof.
  destruct (execute_timeout hasty_executor echo_call ctx echo 3%Z
              eq_refl eq_refl eq_refl eq_refl) as (_ & Hslow & _).
  apply Hslow; [discriminate | vm_compute; lia].
Defined.

(** A timeout of [2^31] ms: [echo], which takes 5 ms, is cut off after
    one. *)
Example execute_cut_short_by_large_timeout :
  settled (execute patient_executor echo_call ctx)
  = Return {| toolCallId := "c1";
              result := "Tool execution timed out after 2147483648ms";
              isError := Some true |}
  /\ elapsed (execute patient_executor echo_call ctx) = 1.
Proof. split; reflexivity. Qed.

(** Two calls with the identifiers ["A"] and ["B"]: each result event
    names its call. *)
Lemma tool_result_events_name_calls_witness :
  tool_result_event two_calls
    {| toolCallId := "B"; result := "Tool not found: nope"; isError := Some true |}
  = ev_tool_result "B" "nope" "Tool not found: nope" (Some true).
Proof.
  destruct (tool_result_events_name_calls (executor two_step_agent) two_calls ctx
              (mkAsync 5
                 (Return
                    [{| toolCallId := "A"; result := "pong"; isError := Some false |};
                     {| toolCallId := "B"; result := "Tool not found: nope";
                        isError := Some true |}]))
              [{| toolCallId := "A"; result := "pong"; isError := Some false |};
               {| toolCallId := "B"; result := "Tool not found: nope";
                  isError := Some true |}]
              eq_refl eq_refl) as [_ Hnames].
  refine (Hnames _ 1 _ _ eq_refl eq_refl).
  apply NoDup_cons. split; [|apply NoDup_singleton].
  intros Hin%list_elem_of_singleton. discriminate Hin.
Defined.

(** Without a budget the run fails at once, and the callback's error
    hides the budget's. *)
Lemma zero_budget_fails_witness :
  thrown (fst (run idle_agent "hi" fresh))
  = Some (ErrorObj PlainError "observer failed")
  /\ thrown (fst (stream idle_agent "hi" fresh))
     = Some (ErrorObj MaxStepsExceededError "Max steps exceeded: 0")
  /\ requests (snd (run idle_agent "hi" fresh)) = [].
Proof.
  destruct (zero_budget_fails idle_agent "hi" fresh eq_refl)
    as [(Hrun & _ & Hreq) (Hstream & _)].
  split; [rewrite Hrun; reflexivity|].
  split; [rewrite Hstream; reflexivity|]. exact Hreq.
Defined.

Lemma never_throws_broken : never_throws broken_agent.
Proof. intros cb history event Hcb. discriminate Hcb. Qed.

(** A backend that hangs up: [run] reports an [LLMError]. *)
Lemma run_inference_failure_witness :
  thrown (fst (run broken_agent "hi" fresh))
  = Some (ErrorObj LLMError "LLM call failed: socket hang up")
  /\ status (session (snd (run broken_agent "hi" fresh))) = status_error
  /\ length (messages (session (snd (run broken_agent "hi" fresh)))) = 1.
Proof.
  assert (Hmax : 1 <= maxSteps (config broken_agent)) by (vm_compute; lia).
  destruct (run_inference_failure broken_agent "hi" fresh
              (ErrorObj PlainError "socket hang up")
              never_throws_broken Hmax eq_refl)
    as (Hthrow & _ & Hstatus & Hmsgs & _).
  split; [rewrite Hthrow; reflexivity|]. split; [exact Hstatus|].
  rewrite Hmsgs. reflexivity.
Defined.

(** A stream that breaks after ["Hel"]: the error is thrown as it is,
    the [error] event comes twice, and the text is not kept. *)
Lemma stream_inference_failure_witness :
  thrown (fst (stream stalling_agent "hi" fresh))
  = Some (ErrorObj PlainError "stream closed")
  /\ status (session (snd (stream stalling_agent "hi" fresh))) = status_error
  /\ length (messages (session (snd (stream stalling_agent "hi" fresh)))) = 1
  /\ length (yielded (snd (stream stalling_agent "hi" fresh))) = 5.
Proof.
  assert (Hmax : 1 <= maxSteps (config stalling_agent)) by (vm_compute; lia).
  destruct (stream_inference_failure stalling_agent "hi" fresh
              [text_delta "Hel"] (ErrorObj PlainError "stream closed")
              Hmax eq_refl eq_refl)
    as (Hthrow & Hstatus & Hmsgs & Hyield).
  split; [rewrite Hthrow; reflexivity|]. split; [exact Hstatus|].
  split; [rewrite Hmsgs; reflexivity|]. rewrite Hyield. reflexivity.
Defined.

(** Two steps with tools, then the answer: the last message is it. *)
Lemma run_ends_on_answer_witness :
  exists before m,
    transcript_after two_step_agent "hi" fresh = before ++ [m]
    /\ role m = role_assistant
    /\ getLastAssistantMessage (session (snd (run two_step_agent "hi" fresh)))
       = Some m.
Proof.
  assert (Hrun : returned (fst (run two_step_agent "hi" fresh)) = true)
    by (vm_compute; reflexivity).
  destruct (run_ends_on_answer two_step_agent "hi" fresh Hrun)
    as (before & m & Hlast & Hrole & _ & _ & Hget).
  exists before, m. split; [exact Hlast|]. split; [exact Hrole | exact Hget].
Defined.

(** The two calls and the two results of that run, as they are sent. *)
Lemma run_transcript_on_the_wire_witness :
  input_calls (convertToResponseInput (transcript_after two_step_agent "hi" fresh))
  = [("a", "echo"); ("b", "echo")]
  /\ input_outputs
       (convertToResponseInput (transcript_after two_step_agent "hi" fresh))
     = [("a", "pong"); ("b", "pong")].
Proof.
  assert (Hrun : returned (fst (run two_step_agent "hi" fresh)) = true)
    by (vm_compute; reflexivity).
  destruct (run_transcript_on_the_wire two_step_agent "hi" fresh Hrun
              (Forall_nil_2 _))
    as (_ & Hcalls & Houts).
  split.
  - rewrite Hcalls. vm_compute. reflexivity.
  - rewrite Houts. vm_compute. reflexivity.
Defined.

(** A user turn without text sends nothing. *)
Example empty_user_turn_sends_nothing :
  length (convertToResponseInput (transcript_after (plain_agent 2) "" fresh)) = 1
  /\ length (transcript_after (plain_agent 2) "" fresh) = 2.
Proof. vm_compute. split; reflexivity. Qed.

(** A client started by a command: connected, then disconnected. *)
Lemma connect_disconnect_round_trip_witness :
  isConnected (connect (new_MCPClient files_config files_sdk)).2 = true
  /\ isConnected
       (disconnect (connect (new_MCPClient files_config files_sdk)).2).2 = false.
Proof.
  destruct (connect_disconnect_round_trip (new_MCPClient files_config files_sdk)
              eq_refl eq_refl) as (Hon & _ & Hoff & _).
  split; [exact Hon|].
  destruct (Hoff eq_refl) as (_ & Heq & _). rewrite Heq. reflexivity.
Defined.

(** Configurations that [connect] refuses. *)
Example connect_refuses :
  option_map error_message
    (thrown_of (settled (connect (new_MCPClient
       {| srv_name := "a"; srv_transport := "stdio"; srv_command := Some "";
          srv_args := None; srv_url := None; srv_env := None |} files_sdk)).1))
  = Some "Command is required for stdio transport"
  /\ option_map error_message
       (thrown_of (settled (connect (new_MCPClient
          {| srv_name := "a"; srv_transport := "sse"; srv_command := None;
             srv_args := None; srv_url := Some "ftp.example"; srv_env := None |}
          files_sdk)).1))
     = Some "Invalid URL"
  /\ option_map error_message
       (thrown_of (settled (connect (new_MCPClient
          {| srv_name := "a"; srv_transport := "websocket"; srv_command := None;
             srv_args := None; srv_url := None; srv_env := None |} files_sdk)).1))
     = Some "Unsupported transport: websocket".
Proof. vm_compute. repeat split. Qed.

Lemma heap_ok_one_server : heap_ok one_server.
Proof.
  apply (heap_ok_add createMCPManager "files"); [|reflexivity].
  repeat split; constructor.
Qed.

(** The same server added twice, and a server that cannot be listed. *)
Example addServer_twice :
  option_map error_message
    (thrown_of (settled (addServer files_config files_sdk one_server).1))
  = Some "MCP server already exists: files"
  /\ getServerNames (addServer files_config files_sdk one_server).2 = ["files"]
  /\ option_map (map (fun t => mcp_tool_name (tool_def t)))
       (returned_of (settled (addServer files_config files_sdk createMCPManager).1))
     = Some ["remote"].
Proof. vm_compute. repeat split. Qed.

(** The server is removed; its tool still answers, with an error. *)
Lemma removeServer_cuts_tools_witness :
  getServerNames (removeServer "files" one_server).2 = []
  /\ isServerConnected "files" (removeServer "files" one_server).2 = false
  /\ exists tool,
       tool_on (removeServer "files" one_server).2 files_tool = Some tool
       /\ settled (tool_execute tool MiniJson.JNull ctx) = Throw not_connected.
Proof.
  destruct (removeServer_cuts_tools "files" one_server 0
              (connectMCP files_config files_sdk).2
              heap_ok_one_server eq_refl eq_refl eq_refl)
    as (Hgone & _ & _).
  destruct (Hgone eq_refl) as (_ & _ & Hoff & Hnames & _ & Htools).
  split; [exact Hnames|]. split; [exact Hoff|].
  destruct (Htools files_tool eq_refl) as (tool & Htool & Hthrows & _).
  exists tool. split; [exact Htool | apply Hthrows].
Defined.

(** Every client disconnects and the manager is empty. *)
Lemma disconnectAll_clears_witness :
  getServerNames (disconnectAll one_server).2 = []
  /\ option_map settled (disconnectAll one_server).1 = Some (Return tt).
Proof.
  destruct (disconnectAll_clears one_server heap_ok_one_server) as [Hall _].
  destruct Hall as (a & Ha & Hs & Hnames & _).
  { constructor; [|constructor]. eexists _, tt. split; reflexivity. }
  split; [exact Hnames|]. rewrite Ha. simpl. by rewrite Hs.
Defined.


(** The optional limit is not required, and is described as an object
    rather than as a number. *)
Example optional_field_described_as_object :
  zodToJsonSchema (zt_schema read_tool)
  = schema_object [("path", schema_string); ("limit", schema_any_object)]
      (Some ["path"]).
Proof. reflexivity. Qed.

(** Arguments that are no object do not reach the tool. *)
Example read_tool_refuses :
  settled
    (execute {| registry := register (defineZodTool read_tool) new_ToolRegistry;
                options := default_options |}
       {| call_id := "c1"; call_name := "read";
          call_arguments := MiniJson.JStr "notes.txt" |} ctx)
  = Return {| toolCallId := "c1"; result := "Expected object";
              isError := Some true |}.
Proof. reflexivity. Qed.
End Examples.
